(** * Interceptor-removal scripts: a shallow embedding

    The repository patches [src/client.rs] with three Python scripts:
    [refactor_client_complete.py] (a line-oriented scan), [fix_client.py]
    and [remove_interceptors.py] (sequences of [re.sub] calls over the
    whole content).  This file embeds the three scripts and states the
    properties of the patching engine against them.

    Python [str] values are sequences of code points.  The embedding uses
    [string], whose characters are the code points U+0000 .. U+00FF, with
    Python's classification of whitespace and word characters in that
    range written out. *)

From Stdlib Require Import String Ascii List Arith Bool Lia PeanoNat ZArith Sorted.
Import ListNotations.
Open Scope string_scope.
Open Scope nat_scope.

(** ** Python string primitives *)

Module PyStr.

(** [str.isspace] on one character (also the class [\s] of [re]):
    TAB..CR, FS..US, SPACE, NEL and NBSP. *)
Definition is_space (c : ascii) : bool :=
  let n := nat_of_ascii c in
  (((9 <=? n) && (n <=? 13)) || ((28 <=? n) && (n <=? 32))
   || (n =? 133) || (n =? 160))%nat.

(** [str.isalnum() or c == '_'], the class [\w] of [re]: ASCII letters
    and digits, underscore, and the letters and numeric characters of
    the Latin-1 supplement. *)
Definition is_word (c : ascii) : bool :=
  let n := nat_of_ascii c in
  (((48 <=? n) && (n <=? 57)) || ((65 <=? n) && (n <=? 90))
   || (n =? 95) || ((97 <=? n) && (n <=? 122))
   || (n =? 170) || (n =? 178) || (n =? 179) || (n =? 181)
   || ((185 <=? n) && (n <=? 186)) || ((188 <=? n) && (n <=? 190))
   || ((192 <=? n) && (n <=? 214)) || ((216 <=? n) && (n <=? 246))
   || (248 <=? n))%nat.

(** [s.startswith(p)] *)
Fixpoint startswith (p s : string) : bool :=
  match p, s with
  | EmptyString, _ => true
  | String a p', String b s' => Ascii.eqb a b && startswith p' s'
  | String _ _, EmptyString => false
  end.

(** [sub in s] *)
Fixpoint contains (sub s : string) : bool :=
  startswith sub s ||
  match s with
  | EmptyString => false
  | String _ s' => contains sub s'
  end.

(** [s.endswith(suf)]: some tail of [s] is [suf]. *)
Fixpoint endswith (suf s : string) : bool :=
  String.eqb suf s ||
  match s with
  | EmptyString => false
  | String _ s' => endswith suf s'
  end.

(** [s.lstrip()] *)
Fixpoint lstrip (s : string) : string :=
  match s with
  | EmptyString => EmptyString
  | String c s' => if is_space c then lstrip s' else s
  end.

(** [s.rstrip()] *)
Fixpoint rstrip (s : string) : string :=
  match s with
  | EmptyString => EmptyString
  | String c s' =>
      match rstrip s' with
      | EmptyString => if is_space c then EmptyString else String c EmptyString
      | r => String c r
      end
  end.

(** [s.strip()] *)
Definition strip (s : string) : string := rstrip (lstrip s).

(** [s.count(c)] for a one-character argument. *)
Fixpoint count (c : ascii) (s : string) : nat :=
  match s with
  | EmptyString => 0
  | String a s' => (if Ascii.eqb a c then 1 else 0) + count c s'
  end.

(** [c * n] for a one-character string [c]. *)
Fixpoint times (c : ascii) (n : nat) : string :=
  match n with
  | 0 => EmptyString
  | S n' => String c (times c n')
  end.

(** [''.join(xs)], which is also what [f.writelines(xs)] writes. *)
Fixpoint join (xs : list string) : string :=
  match xs with
  | [] => EmptyString
  | x :: xs' => x ++ join xs'
  end.

(** [f.readlines()]: the content cut after every newline; every line
    but possibly the last keeps its ["\n"]. *)
Fixpoint readlines_from (cur : string) (s : string) : list string :=
  match s with
  | EmptyString =>
      match cur with EmptyString => [] | _ => [cur] end
  | String c s' =>
      if Ascii.eqb c "010"%char
      then (cur ++ String c EmptyString) :: readlines_from EmptyString s'
      else readlines_from (cur ++ String c EmptyString) s'
  end.

Definition readlines (s : string) : list string := readlines_from EmptyString s.

End PyStr.

(** Lines end with a line feed, written [nl] below; [dq] is the double
    quote character. *)
Definition nl : string := String "010"%char EmptyString.
Definition dq : string := String (ascii_of_nat 34) EmptyString.

(** ** refactor_client_complete.py *)

Module Refactor.
Import PyStr.

(** The branches of the [if] chain in the body of the main loop, in
    source order.  They name the rule recorded in the trace of a run. *)
Inductive rule : Type :=
| InterceptorImport      (* 'use crate::interceptor' *)
| TooManyArguments       (* 'clippy::too_many_arguments' / 'Allow this lint' *)
| RwLockImport           (* 'use tokio::sync::RwLock' *)
| MacroDefinition        (* '// Helper macro to generate' *)
| MacroInvocation        (* 'impl_interceptor_helpers!' *)
| StructField            (* '    interceptors: Arc<RwLock<InterceptorChain>>,' *)
| DebugComment           (* 'since InterceptorChain' *)
| DebugField             (* '.field(#interceptors#', with # the double quote *)
| NewInit                (* '            interceptors: Arc::new' *)
| WithInterceptor        (* '    /// Add an interceptor' *)
| InterceptorsAccessor   (* 'pub(crate) fn interceptors' *)
| HelperBlock            (* '// Interceptor helper methods' *)
| MetadataDecl           (* 'let mut metadata = HashMap::new();' *)
| BeforeRequest          (* '        self.call_before_request' *)
| HandleApiError         (* '.handle_api_error(' *)
| AfterResponse.         (* '        self.call_after_response' *)

Section Loop.
(** [lines = f.readlines()] *)
Variable lines : list string.

(** [lines[i]]; every use in the source is guarded by [i < len(lines)]
    (or [i > 0] for [lines[i-1]]). *)
Definition line_at (i : nat) : string := nth i lines EmptyString.

Definition len : nat := List.length lines.

(** [while i < len(lines) and not stop(i): i += 1] *)
Fixpoint skip_until (stop : nat -> bool) (fuel i : nat) : nat :=
  match fuel with
  | 0 => i
  | S fuel' =>
      if (i <? len) && negb (stop i)
      then skip_until stop fuel' (i + 1)
      else i
  end.

(** [while i < len(lines): if hit(i): i += 1; break
                           i += 1] *)
Fixpoint skip_through (hit : nat -> bool) (fuel i : nat) : nat :=
  match fuel with
  | 0 => i
  | S fuel' =>
      if i <? len
      then if hit i then i + 1 else skip_through hit fuel' (i + 1)
      else i
  end.

(** The brace-counting loop of the helper block:
    [while i < len(lines):
         if '{' in lines[i]: brace_count += lines[i].count('{')
         if '}' in lines[i]: brace_count -= lines[i].count('}')
         i += 1
         if brace_count == 0 and lines[i-1].strip() == '}': break] *)
Definition brace_delta (s : string) : Z :=
  ((if contains "{" s then Z.of_nat (count "{" s) else 0)
   - (if contains "}" s then Z.of_nat (count "}" s) else 0))%Z.

Fixpoint skip_braces (fuel i : nat) (brace_count : Z) : nat :=
  match fuel with
  | 0 => i
  | S fuel' =>
      if i <? len then
        let brace_count := (brace_count + brace_delta (line_at i))%Z in
        let i := i + 1 in
        if (brace_count =? 0)%Z && String.eqb (strip (line_at (i - 1))) "}"
        then i
        else skip_braces fuel' i brace_count
      else i
  end.

(** The statement-collecting loop of the [handle_api_error] rule:
    [while i < len(lines) and not stmt.rstrip().endswith(';'):
         i += 1
         if i < len(lines): stmt += lines[i]] *)
Fixpoint collect_stmt (fuel i : nat) (stmt : string) : nat :=
  match fuel with
  | 0 => i
  | S fuel' =>
      if (i <? len) && negb (endswith ";" (rstrip stmt))
      then
        let i := i + 1 in
        let stmt := if i <? len then stmt ++ line_at i else stmt in
        collect_stmt fuel' i stmt
      else i
  end.

(** Stop tests of the three [skip_until] loops. *)
Definition macro_end (i : nat) : bool :=
  String.eqb (strip (line_at i)) "}"
  && (i + 1 <? len) && String.eqb (strip (line_at (i + 1))) "}".

Definition method_end (i : nat) : bool :=
  String.eqb (strip (line_at i)) "}"
  && ((len <=? i + 1) || negb (startswith "//" (strip (line_at (i + 1))))).

Definition closing_brace (i : nat) : bool :=
  String.eqb (strip (line_at i)) "}".

(** One iteration of [while i < len(lines)], entered with [i < len].
    The result is the rule whose branch ran ([None] for the final
    "keep everything else"), the value of [i] at the [continue], and
    what the branch appended to [output].  [fuel] bounds the iterations
    of the inner loops. *)
Definition body_with (fuel : nat) (i : nat) : option rule * nat * list string :=
  let line := line_at i in
  if contains "use crate::interceptor" line then
    (Some InterceptorImport, i + 1, [])
  else if contains "clippy::too_many_arguments" line
          || ((0 <? i) && contains "Allow this lint" (line_at (i - 1))) then
    (Some TooManyArguments, i + 1, [])
  else if contains "use tokio::sync::RwLock" line then
    (Some RwLockImport, i + 1, [])
  else if contains "// Helper macro to generate" line then
    (Some MacroDefinition, skip_until macro_end fuel i + 2, [])
  else if contains "impl_interceptor_helpers!" line then
    (Some MacroInvocation, i + 1, [])
  else if contains "    interceptors: Arc<RwLock<InterceptorChain>>," line then
    (Some StructField, i + 1, [])
  else if contains "since InterceptorChain" line then
    (Some DebugComment, i + 1, ["// Custom Debug implementation" ++ nl])
  else if contains (".field(" ++ dq ++ "interceptors" ++ dq) line then
    (Some DebugField, i + 1, [])
  else if contains "            interceptors: Arc::new" line then
    (Some NewInit, i + 1, [])
  else if contains "    /// Add an interceptor" line then
    (Some WithInterceptor, skip_until method_end fuel i + 1, [])
  else if contains "pub(crate) fn interceptors" line then
    let i1 := skip_until closing_brace fuel i + 1 in
    (Some InterceptorsAccessor,
     (if (i1 <? len) && String.eqb (strip (line_at i1)) "}" then i1 + 1 else i1),
     [])
  else if contains "// Interceptor helper methods" line then
    (Some HelperBlock, skip_braces fuel (i + 1) 0%Z, [])
  else if contains "        let mut metadata = HashMap::new();" line
          || contains "        let metadata = HashMap::new();" line then
    (Some MetadataDecl, i + 1, [])
  else if contains "        self.call_before_request" line then
    (Some BeforeRequest,
     skip_through (fun j => contains ".await?" (line_at j)) fuel i, [])
  else if contains ".handle_api_error(" line then
    (Some HandleApiError, collect_stmt fuel i line + 1,
     [times " " (String.length line - String.length (lstrip line))
      ++ "map_api_error(e)" ++ nl])
  else if contains "        self.call_after_response" line then
    (Some AfterResponse,
     skip_through (fun j => contains ".await;" (line_at j)) fuel i, [])
  else
    (None, i + 1, [line]).

(** The inner loops stop at the end of the buffer at the latest, so the
    lines that are left bound their iterations. *)
Definition body (i : nat) : option rule * nat * list string :=
  body_with (len - i) i.

(** One executed iteration of the main loop: the rule that fired, the
    index at entry, the index at exit and the lines appended.  The list
    of iterations of a run is its trace; it is bookkeeping of the model
    and does not influence [i] or [output]. *)
Record iteration : Type := Iteration {
  fired : option rule;
  start : nat;
  next : nat;
  emitted : list string
}.

Record state : Type := State {
  idx : nat;                  (* i *)
  output : list string;       (* output *)
  trace : list iteration
}.

Definition step (st : state) : state :=
  let '(r, i', em) := body (idx st) in
  {| idx := i';
     output := (output st ++ em)%list;
     trace := (trace st ++ [Iteration r (idx st) i' em])%list |}.

(** [while i < len(lines): ...] *)
Fixpoint loop (fuel : nat) (st : state) : state :=
  match fuel with
  | 0 => st
  | S fuel' => if idx st <? len then loop fuel' (step st) else st
  end.

Definition init : state := {| idx := 0; output := []; trace := [] |}.

(** The loop has run to completion when the guard is false. *)
Definition finished (st : state) : Prop := len <= idx st.

(** The run of the main loop on [lines]; [len] iterations are enough
    (proved with the termination theorem). *)
Definition run : state := loop len init.

End Loop.

(** The lines handed to [f.writelines]. *)
Definition refactor_lines (lines : list string) : list string :=
  output (run lines).

(** The span [start, stop] (inclusive, cut at the end of the buffer) of
    every iteration in which a rule fired. *)
Fixpoint applied (n : nat) (tr : list iteration) : list (rule * nat * nat) :=
  match tr with
  | [] => []
  | it :: tr' =>
      match fired it with
      | Some r => (r, start it, Nat.min (next it) n - 1) :: applied n tr'
      | None => applied n tr'
      end
  end.

Definition audit_trail (lines : list string) : list (rule * nat * nat) :=
  applied (List.length lines) (trace (run lines)).

End Refactor.

(** ** Python's [re.sub] on the patterns of the two regex scripts *)

Module Re.
Import PyStr.

(** One-character items of a pattern. *)
Inductive cls : Type :=
| Lit (c : ascii)          (* the character itself, plain or escaped *)
| Not (c : ascii)          (* [^c] *)
| Space                    (* \s *)
| Dot (dotall : bool).     (* . : any character, or any but newline *)

(** The fragment of the pattern language the scripts use.  A
    quantifier always applies to a one-character item or, for [?], to
    a single literal. *)
Inductive re : Type :=
| Eps
| Chr (k : cls)
| Seq (r1 r2 : re)
| Alt (r1 r2 : re)                              (* r1|r2, r1 tried first *)
| Rep (k : cls) (min : nat) (greedy : bool)     (* k* k+ (greedy) or k*? k+? *)
| WordB                                         (* \b *)
| Bol                                           (* ^ under re.MULTILINE *)
| Group (r : re).                               (* ( r ), group 1 *)

(** A run of literal characters. *)
Fixpoint lit (p : string) : re :=
  match p with
  | EmptyString => Eps
  | String c p' => Seq (Chr (Lit c)) (lit p')
  end.

(** [c?] *)
Definition Opt (r : re) : re := Alt r Eps.

Definition cls_match (k : cls) (c : ascii) : bool :=
  match k with
  | Lit a => Ascii.eqb c a
  | Not a => negb (Ascii.eqb c a)
  | Space => is_space c
  | Dot dotall => dotall || negb (Ascii.eqb c "010"%char)
  end.

Definition word_opt (c : option ascii) : bool :=
  match c with Some a => is_word a | None => false end.

Definition first (s : string) : option ascii :=
  match s with String c _ => Some c | EmptyString => None end.

Section Match.
Variable A : Type.

(** A continuation receives the character before the current
    position, the rest of the subject and the text of group 1. *)
Definition cont : Type := option ascii -> string -> option string -> option A.

(** Greedy repetition: take one more character first, give it back
    when the rest of the pattern fails. *)
Fixpoint rep_greedy (k : cls) (min : nat) (prev : option ascii) (s : string)
         (g : option string) (kont : cont) : option A :=
  match s with
  | String c s' =>
      if cls_match k c then
        match rep_greedy k (pred min) (Some c) s' g kont with
        | Some r => Some r
        | None => if min =? 0 then kont prev s g else None
        end
      else if min =? 0 then kont prev s g else None
  | EmptyString => if min =? 0 then kont prev s g else None
  end.

(** Lazy repetition: try the rest of the pattern first, take one
    more character when it fails. *)
Fixpoint rep_lazy (k : cls) (min : nat) (prev : option ascii) (s : string)
         (g : option string) (kont : cont) : option A :=
  match (if min =? 0 then kont prev s g else None) with
  | Some r => Some r
  | None =>
      match s with
      | String c s' =>
          if cls_match k c
          then rep_lazy k (pred min) (Some c) s' g kont
          else None
      | EmptyString => None
      end
  end.

(** Backtracking matcher at one position. *)
Fixpoint exec (r : re) (prev : option ascii) (s : string)
         (g : option string) (kont : cont) : option A :=
  match r with
  | Eps => kont prev s g
  | Chr k =>
      match s with
      | String c s' => if cls_match k c then kont (Some c) s' g else None
      | EmptyString => None
      end
  | Seq r1 r2 =>
      exec r1 prev s g (fun prev' s' g' => exec r2 prev' s' g' kont)
  | Alt r1 r2 =>
      match exec r1 prev s g kont with
      | Some x => Some x
      | None => exec r2 prev s g kont
      end
  | Rep k min greedy =>
      if greedy then rep_greedy k min prev s g kont
      else rep_lazy k min prev s g kont
  | WordB =>
      if xorb (word_opt prev) (word_opt (first s)) then kont prev s g else None
  | Bol =>
      match prev with
      | None => kont prev s g
      | Some c => if Ascii.eqb c "010"%char then kont prev s g else None
      end
  | Group r1 =>
      exec r1 prev s g
           (fun prev' s' _ =>
              kont prev' s'
                   (Some (substring 0 (String.length s - String.length s') s)))
  end.
End Match.

(** A match of [r] at the position whose preceding character is [prev]
    and whose following text is [s]: the number of characters matched
    and group 1.  [must_advance] rejects the empty match, as [re.sub]
    asks right after an empty match at the same position. *)
Definition match_at (r : re) (must_advance : bool) (prev : option ascii)
           (s : string) : option (nat * option string) :=
  exec _ r prev s None
       (fun _ s' g =>
          if must_advance && (String.length s' =? String.length s) then None
          else Some (String.length s - String.length s', g)).

(** What [re.sub] does with the subject: a character outside every
    match is kept, a match is cut out and replaced. *)
Inductive piece : Type :=
| Keep (c : ascii)
| Cut (matched : string) (g : option string).

(** The left-to-right scan of [re.sub]: non-overlapping matches, each
    the first one at the leftmost position that has one.  [skip] counts
    the characters of the current match still to pass over. *)
Fixpoint scan (r : re) (prev : option ascii) (s : string) (skip : nat) : list piece :=
  match skip with
  | S skip' =>
      match s with
      | String c s' => scan r (Some c) s' skip'
      | EmptyString => []
      end
  | 0 =>
      match match_at r false prev s with
      | Some (S n, g) =>
          Cut (substring 0 (S n) s) g ::
          match s with
          | String c s' => scan r (Some c) s' n
          | EmptyString => []
          end
      | Some (0, g) =>
          Cut EmptyString g ::
          match match_at r true prev s with
          | Some (S n, g') =>
              Cut (substring 0 (S n) s) g' ::
              match s with
              | String c s' => scan r (Some c) s' n
              | EmptyString => []
              end
          | _ =>
              match s with
              | String c s' => Keep c :: scan r (Some c) s' 0
              | EmptyString => []
              end
          end
      | None =>
          match s with
          | String c s' => Keep c :: scan r (Some c) s' 0
          | EmptyString => []
          end
      end
  end.

(** Replacement templates: literal text and [\1]. *)
Inductive titem : Type :=
| TLit (t : string)
| TGroup1.

Definition expand (repl : list titem) (g : option string) : string :=
  join (map (fun t => match t with
                      | TLit x => x
                      | TGroup1 => match g with Some x => x | None => EmptyString end
                      end) repl).

Definition render (repl : list titem) (p : piece) : string :=
  match p with
  | Keep c => String c EmptyString
  | Cut _ g => expand repl g
  end.

Definition original (p : piece) : string :=
  match p with
  | Keep c => String c EmptyString
  | Cut m _ => m
  end.

Definition is_cut (p : piece) : bool :=
  match p with Cut _ _ => true | Keep _ => false end.

(** [re.sub(r, repl, s)] *)
Definition sub (r : re) (repl : list titem) (s : string) : string :=
  join (map (render repl) (scan r None s 0)).

(** [re.search(r, s) is not None] *)
Definition has_match (r : re) (s : string) : bool :=
  existsb is_cut (scan r None s 0).

End Re.

(** Concatenation of the items of a pattern, left to right. *)
Fixpoint cat (rs : list Re.re) : Re.re :=
  match rs with
  | [] => Re.Eps
  | [r] => r
  | r :: rs' => Re.Seq r (cat rs')
  end.

(** One [content = re.sub(pattern, repl, content)] statement. *)
Definition substitution : Type := Re.re * list Re.titem.

Definition apply_sub (content : string) (p : substitution) : string :=
  Re.sub (fst p) (snd p) content.

(** A script body: its [re.sub] statements in order. *)
Definition apply_all (ps : list substitution) (content : string) : string :=
  fold_left apply_sub ps content.

(** ** fix_client.py *)

Module FixClient.
Import Re.

(** [r'        self\.call_before_request\([^)]+\)\s*\.await\?;\n'] *)
Definition before_request : re :=
  cat [lit "        self.call_before_request("; Rep (Not ")") 1 true; lit ")";
       Rep Space 0 true; lit (".await?;" ++ nl)].

(** [r'(\s+)self\.handle_api_error\(e,\s*[^)]+\)'] *)
Definition handle_api_error : re :=
  cat [Group (Rep Space 1 true); lit "self.handle_api_error(e,";
       Rep Space 0 true; Rep (Not ")") 1 true; lit ")"].

(** [r'        self\.call_after_response\([^)]+\)\s*\.await;\n'] *)
Definition after_response : re :=
  cat [lit "        self.call_after_response("; Rep (Not ")") 1 true; lit ")";
       Rep Space 0 true; lit (".await;" ++ nl)].

(** [r'&mut metadata|&metadata|\bmetadata\b,?\s*'] *)
Definition metadata : re :=
  Alt (lit "&mut metadata")
      (Alt (lit "&metadata")
           (cat [WordB; lit "metadata"; WordB; Opt (Chr (Lit ",")); Rep Space 0 true])).

Definition substitutions : list substitution :=
  [ (before_request, []);
    (handle_api_error, [TGroup1; TLit "map_api_error(e)"]);
    (after_response, []);
    (metadata, []) ].

(** The content written back, as a function of the content read. *)
Definition fix_content (content : string) : string :=
  apply_all substitutions content.

End FixClient.

(** ** remove_interceptors.py *)

Module RemoveInterceptors.
Import Re.

(** 1. [r'use crate::interceptor::\{[^}]+\};\n'] *)
Definition imports : re :=
  cat [lit "use crate::interceptor::{"; Rep (Not "}") 1 true; lit ("};" ++ nl)].

(** 2. [r'// Allow this lint.*?\n#!\[allow\(clippy::too_many_arguments\)\]\n\n'],
    DOTALL *)
Definition lint_allow : re :=
  cat [lit "// Allow this lint"; Rep (Dot true) 0 false;
       lit (nl ++ "#![allow(clippy::too_many_arguments)]" ++ nl ++ nl)].

(** 3. [r'use tokio::sync::RwLock;\n'] *)
Definition rwlock : re := lit ("use tokio::sync::RwLock;" ++ nl).

(** 4. [r'// Helper macro to generate interceptor helper methods.*?^}\n'],
    DOTALL | MULTILINE *)
Definition macro_def : re :=
  cat [lit "// Helper macro to generate interceptor helper methods";
       Rep (Dot true) 0 false; Bol; lit ("}" ++ nl)].

(** 5. [r'impl_interceptor_helpers!\([^)]+\);\n'] *)
Definition macro_call : re :=
  cat [lit "impl_interceptor_helpers!("; Rep (Not ")") 1 true; lit (");" ++ nl)].

(** 6. [r'    interceptors: Arc<RwLock<InterceptorChain>>,'] *)
Definition struct_field : re :=
  lit "    interceptors: Arc<RwLock<InterceptorChain>>,".

(** 7. [r'// Custom Debug implementation since InterceptorChain doesn\'t implement Debug'] *)
Definition debug_comment : re :=
  lit "// Custom Debug implementation since InterceptorChain doesn't implement Debug".

(** 7b. [r'            \.field\("interceptors", &"<InterceptorChain>"\)\n'] *)
Definition debug_field : re :=
  lit ("            .field(" ++ dq ++ "interceptors" ++ dq ++ ", &" ++ dq
       ++ "<InterceptorChain>" ++ dq ++ ")" ++ nl).

(** 8. [r'            interceptors: Arc::new\(RwLock::new\(InterceptorChain::new\(\)\)\),\n'] *)
Definition new_init : re :=
  lit ("            interceptors: Arc::new(RwLock::new(InterceptorChain::new()))," ++ nl).

(** 9. [r'    /// Add an interceptor to the client\..*?^    \}\n'],
    DOTALL | MULTILINE *)
Definition with_interceptor : re :=
  cat [lit "    /// Add an interceptor to the client."; Rep (Dot true) 0 false;
       Bol; lit ("    }" ++ nl)].

(** 10. [r'    /// Get a reference to the interceptor chain\..*?^    \}\n'],
    DOTALL | MULTILINE *)
Definition accessor : re :=
  cat [lit "    /// Get a reference to the interceptor chain."; Rep (Dot true) 0 false;
       Bol; lit ("    }" ++ nl)].

(** 11. [r'// Interceptor helper methods\nimpl Client \{.*?\n\}\n'], DOTALL *)
Definition helper_block : re :=
  cat [lit ("// Interceptor helper methods" ++ nl ++ "impl Client {");
       Rep (Dot true) 0 false; lit (nl ++ "}" ++ nl)].

(** 12. [r'\n        let mut metadata = HashMap::new\(\);\n'] *)
Definition metadata_decl : re :=
  lit (nl ++ "        let mut metadata = HashMap::new();" ++ nl).

(** 13. [r'        self\.call_before_request\([^)]+\)\.await\?;\n'] *)
Definition before_request : re :=
  cat [lit "        self.call_before_request("; Rep (Not ")") 1 true;
       lit (").await?;" ++ nl)].

(** 14. [r'self\.handle_api_error\(e, [^)]+\)'] *)
Definition handle_api_error : re :=
  cat [lit "self.handle_api_error(e, "; Rep (Not ")") 1 true; lit ")"].

(** 15. [r'        self\.call_after_response\([^)]+\)\.await;\n'] *)
Definition after_response : re :=
  cat [lit "        self.call_after_response("; Rep (Not ")") 1 true;
       lit (").await;" ++ nl)].

Definition substitutions : list substitution :=
  [ (imports, []); (lint_allow, []); (rwlock, []); (macro_def, []);
    (macro_call, []); (struct_field, []);
    (debug_comment, [TLit "// Custom Debug implementation"]);
    (debug_field, []); (new_init, []); (with_interceptor, []);
    (accessor, []); (helper_block, []); (metadata_decl, [TLit nl]);
    (before_request, []); (handle_api_error, [TLit "map_api_error(e)"]);
    (after_response, []) ].

Definition remove_content (content : string) : string :=
  apply_all substitutions content.

End RemoveInterceptors.

(** ** Reading and writing [src/client.rs] *)

Module IO.
Import PyStr.

(** The files of the working directory, each with its text as stored
    (decoded, line ends untouched): [None] where no file exists. *)
Definition world : Type := string -> option string.

Definition set_file (w : world) (p : string) (c : string) : world :=
  fun q => if String.eqb q p then Some c else w q.

Inductive exn : Type :=
| FileNotFoundError
| OSError.

(** What the environment does to the run: nothing, an error while
    reading, an error when the file is opened for writing, or an error
    during the write after [written] characters got through. *)
Inductive fault : Type :=
| NoFault
| ReadFault
| OpenWriteFault
| WriteFault (written : nat).

(** Computations on the world that return or raise. *)
Definition io (A : Type) : Type := world -> world * (A + exn).

Definition bind {A B} (m : io A) (f : A -> io B) : io B :=
  fun w =>
    match m w with
    | (w', inl a) => f a w'
    | (w', inr e) => (w', inr e)
    end.

Notation "x <- m ;; k" := (bind m (fun x => k))
  (at level 61, m at next level, right associativity).

Definition cr : ascii := "013"%char.
Definition lf : ascii := "010"%char.

(** The scripts open the file in text mode and leave [newline] at its
    default.  On input every ['\r\n'] and every other ['\r'] is handed
    to the program as ['\n']. *)
Fixpoint universal_newlines (s : string) : string :=
  match s with
  | EmptyString => EmptyString
  | String c s' =>
      if Ascii.eqb c cr then
        String lf
          match s' with
          | String d s'' =>
              if Ascii.eqb d lf then universal_newlines s''
              else universal_newlines s'
          | EmptyString => EmptyString
          end
      else String c (universal_newlines s')
  end.

(** On output every ['\n'] is written as [os.linesep]: ['\n'] itself
    on a POSIX system, ['\r\n'] on Windows. *)
Inductive platform : Type :=
| Posix
| Windows.

Definition linesep (os : platform) : string :=
  match os with
  | Posix => String lf EmptyString
  | Windows => String cr (String lf EmptyString)
  end.

Fixpoint write_newlines (os : platform) (s : string) : string :=
  match s with
  | EmptyString => EmptyString
  | String c s' =>
      (if Ascii.eqb c lf then linesep os else String c EmptyString)
      ++ write_newlines os s'
  end.

(** [with open(p, 'r') as f: content = f.read()] *)
Definition read_file (flt : fault) (p : string) : io string :=
  fun w =>
    match w p with
    | None => (w, inr FileNotFoundError)
    | Some c =>
        match flt with
        | ReadFault => (w, inr OSError)
        | _ => (w, inl (universal_newlines c))
        end
    end.

(** [with open(p, 'w') as f: f.write(data)]: mode ['w'] truncates the
    file when it is opened; the data then goes into that same file,
    with its line ends translated. *)
Definition write_file (os : platform) (flt : fault) (p : string) (data : string)
  : io unit :=
  fun w =>
    match flt with
    | OpenWriteFault => (w, inr OSError)
    | WriteFault written =>
        (set_file (set_file w p EmptyString) p
                  (substring 0 written (write_newlines os data)),
         inr OSError)
    | _ => (set_file (set_file w p EmptyString) p (write_newlines os data), inl tt)
    end.

Definition client_rs : string := "src/client.rs".

(** [refactor()] of refactor_client_complete.py (the closing [print]
    of each script writes to the terminal and is left out) *)
Definition refactor (os : platform) (flt : fault) : io unit :=
  content <- read_file flt client_rs ;;
  write_file os flt client_rs (join (Refactor.refactor_lines (readlines content))).

(** [fix_client()] of fix_client.py *)
Definition fix_client (os : platform) (flt : fault) : io unit :=
  content <- read_file flt client_rs ;;
  write_file os flt client_rs (FixClient.fix_content content).

(** [remove_interceptors()] of remove_interceptors.py *)
Definition remove_interceptors (os : platform) (flt : fault) : io unit :=
  content <- read_file flt client_rs ;;
  write_file os flt client_rs (RemoveInterceptors.remove_content content).

(** A file in which a before-request call starts and ['.await?']
    never comes. *)
Definition unterminated_sample : string :=
  "fn keep() {}" ++ nl ++ "        self.call_before_request(ctx)" ++ nl
  ++ "let a = 1;" ++ nl ++ "let b = 2;" ++ nl.

(** The world with [src/client.rs] holding [c] and no other file. *)
Definition only_client (c : string) : world :=
  set_file (fun _ => None) client_rs c.

End IO.

(** ** Statements about runs of the line loop *)

Module Trace.
Import Refactor.

(** [tiled lines a tr b]: the iterations of [tr] are consecutive
    executions of the loop body, the first entered at index [a], each
    entered where the one before left, the last leaving at [b]. *)
Inductive tiled (lines : list string) : nat -> list iteration -> nat -> Prop :=
| tiled_nil : forall a, tiled lines a [] a
| tiled_cons : forall a it tr b,
    start it = a ->
    a < len lines ->
    body lines a = (fired it, next it, emitted it) ->
    tiled lines (next it) tr b ->
    tiled lines a (it :: tr) b.

(** What a run keeps true: the trace tiles the lines from 0 to [i],
    and [output] is the concatenation of what the iterations emitted. *)
Definition inv (lines : list string) (st : state) : Prop :=
  tiled lines 0 (trace st) (idx st)
  /\ output st = flat_map emitted (trace st).

(** Span records: rule, first index, last index. *)
Definition span_start (a : rule * nat * nat) : nat := snd (fst a).
Definition span_stop (a : rule * nat * nat) : nat := snd a.

(** [a] lies wholly before [b]. *)
Definition before (a b : rule * nat * nat) : Prop :=
  span_stop a < span_start b /\ span_start a < span_start b.

(** Number of input lines an iteration consumed. *)
Definition consumed (n : nat) (it : iteration) : nat :=
  Nat.min (next it) n - start it.

Definition is_applied (it : iteration) : bool :=
  match fired it with Some _ => true | None => false end.

Fixpoint sum (l : list nat) : nat :=
  match l with
  | [] => 0
  | x :: l' => x + sum l'
  end.

(** The leading whitespace of a line: what [lstrip] removes. *)
Fixpoint indent (s : string) : string :=
  match s with
  | String c s' => if PyStr.is_space c then String c (indent s') else EmptyString
  | EmptyString => EmptyString
  end.

Fixpoint only_spaces (s : string) : bool :=
  match s with
  | String c s' => Ascii.eqb c " "%char && only_spaces s'
  | EmptyString => true
  end.

(** Depth of the brace counter after the [n] lines [a, a+n) were
    scanned, starting from 0. *)
Fixpoint depth_upto (lines : list string) (a n : nat) : Z :=
  match n with
  | 0 => 0%Z
  | S n' => (depth_upto lines a n' + brace_delta (line_at lines (a + n')))%Z
  end.

(** The exit test of the brace-counting loop at line [j], for a scan
    that started after the marker line [i]. *)
Definition brace_stop (lines : list string) (i j : nat) : bool :=
  (depth_upto lines (i + 1) (j - i) =? 0)%Z
  && String.eqb (PyStr.strip (line_at lines j)) "}".

(** A multi-line rule fired at line [i] and its terminator occurs
    nowhere from there to the end of the buffer. *)
Definition unterminated (lines : list string) (r : rule) (i : nat) : Prop :=
  match r with
  | BeforeRequest =>
      forall j, i <= j -> j < len lines ->
                PyStr.contains ".await?" (line_at lines j) = false
  | AfterResponse =>
      forall j, i <= j -> j < len lines ->
                PyStr.contains ".await;" (line_at lines j) = false
  | MacroDefinition =>
      forall j, i <= j -> j < len lines -> macro_end lines j = false
  | WithInterceptor =>
      forall j, i <= j -> j < len lines -> method_end lines j = false
  | InterceptorsAccessor =>
      forall j, i <= j -> j < len lines -> closing_brace lines j = false
  | HelperBlock =>
      forall j, i < j -> j < len lines -> brace_stop lines i j = false
  | _ => False
  end.

(** The synthetic nested construct: the marker line [X], then the
    tokens of [{ A { } B } tail] one group per line. *)
Definition synthetic : list string :=
  [ "// Interceptor helper methods (X)" ++ nl; "{" ++ nl; "A {" ++ nl;
    "}" ++ nl; "B" ++ nl; "}" ++ nl; "tail" ++ nl ].

End Trace.

(** ** The balanced-delimiter strategy as the specification words it *)

Module SpecWords.

(** Follows the specification's words, not the source: a depth
    counter seeded at [depth], raised by every [open] and lowered by
    every [close] of each scanned line; the result is the index of the
    first line at which the depth is back at zero after having been
    positive (also within that line), [None] when the lines run out. *)
Fixpoint balanced_end (open close : ascii) (depth : Z) (positive : bool)
         (ls : list string) (i : nat) : option nat :=
  match ls with
  | [] => None
  | l :: ls' =>
      let up := (depth + Z.of_nat (PyStr.count open l))%Z in
      let d := (up - Z.of_nat (PyStr.count close l))%Z in
      let positive := positive || (0 <? up)%Z in
      if positive && (d =? 0)%Z then Some i
      else balanced_end open close d positive ls' (i + 1)
  end.

End SpecWords.

(** ** Occurrences and deleted characters *)

Module Cover.
Import PyStr Re.

(** [s[n:]] *)
Fixpoint drop (n : nat) (s : string) : string :=
  match n, s with
  | 0, _ => s
  | S n', String _ s' => drop n' s'
  | S _, EmptyString => EmptyString
  end.

(** The character before the position reached by reading [p] after a
    position whose preceding character is [prev]. *)
Fixpoint last_or (prev : option ascii) (p : string) : option ascii :=
  match p with
  | EmptyString => prev
  | String c p' => last_or (Some c) p'
  end.

(** [occ] holds [p] characters into [s].  An occurrence test sees the
    text before the position, nearest character first, and the text
    from the position on. *)
Fixpoint at_offset (occ : string -> string -> bool)
         (before : string) (s : string) (p : nat) : bool :=
  match p with
  | 0 => occ before s
  | S p' =>
      match s with
      | String c s' => at_offset occ (String c before) s' p'
      | EmptyString => false
      end
  end.

(** The word [metadata] as a token: not preceded and not followed by a
    word character. *)
Definition token_here (before s : string) : bool :=
  negb (word_opt (first before)) && startswith "metadata" s
  && negb (word_opt (first (drop 8 s))).

(** A token that is not the end of [&metadata] or [&mut metadata]
    ([" tum&"] is ["&mut "] read backwards). *)
Definition bare_token_here (before s : string) : bool :=
  token_here before s
  && negb (startswith "&" before) && negb (startswith " tum&" before).

(** The text [form] starts here. *)
Definition form_here (form : string) (_ : string) (s : string) : bool :=
  startswith form s.

(** For every character of the subject, whether [re.sub] cut it out. *)
Fixpoint deleted (ps : list piece) : list bool :=
  match ps with
  | [] => []
  | Keep _ :: ps' => false :: deleted ps'
  | Cut m _ :: ps' => (repeat true (String.length m) ++ deleted ps')%list
  end.

(** The characters of [s] that the mask leaves. *)
Fixpoint keep_unmasked (mask : list bool) (s : string) : string :=
  match mask, s with
  | b :: mask', String c s' =>
      if b then keep_unmasked mask' s' else String c (keep_unmasked mask' s')
  | _, _ => EmptyString
  end.

(** The [n] characters from offset [p] on are all cut out. *)
Definition covered (mask : list bool) (p n : nat) : Prop :=
  forall j, j < n -> nth (p + j) mask false = true.

(** The text after ['metadata'] that the third alternative takes: an
    optional comma, then the whitespace that follows. *)
Definition tail_len (t : string) : nat :=
  match t with
  | String c t' =>
      if Ascii.eqb c ","%char then 1 + String.length (Trace.indent t')
      else String.length (Trace.indent t)
  | EmptyString => 0
  end.

(** Total length of the matched texts and of their replacements. *)
Fixpoint cut_length (ps : list piece) : nat :=
  match ps with
  | [] => 0
  | Keep _ :: ps' => cut_length ps'
  | Cut m _ :: ps' => String.length m + cut_length ps'
  end.

Fixpoint inserted_length (repl : list titem) (ps : list piece) : nat :=
  match ps with
  | [] => 0
  | Keep _ :: ps' => inserted_length repl ps'
  | Cut _ g :: ps' => String.length (expand repl g) + inserted_length repl ps'
  end.

(** The matches of a scan as character ranges [start, stop). *)
Fixpoint spans_from (pos : nat) (ps : list piece) : list (nat * nat) :=
  match ps with
  | [] => []
  | Keep _ :: ps' => spans_from (pos + 1) ps'
  | Cut m _ :: ps' =>
      (pos, pos + String.length m) :: spans_from (pos + String.length m) ps'
  end.

Definition match_spans (r : re) (s : string) : list (nat * nat) :=
  spans_from 0 (scan r None s 0).

End Cover.

(** ** Files on which no rule matches *)

Module Stable.

(** No pattern of the script matches anywhere in [content]. *)
Definition matches_none (ps : list substitution) (content : string) : bool :=
  forallb (fun p => negb (Re.has_match (fst p) content)) ps.

(** No branch of [refactor]'s [if] chain is taken at any line. *)
Definition no_rule_fires (lines : list string) : bool :=
  forallb (fun i => match fst (fst (Refactor.body lines i)) with
                    | None => true
                    | Some _ => false
                    end)
          (seq 0 (List.length lines)).

(** A lint comment, the attribute it explains, a blank line, an import. *)
Definition lint_sample : list string :=
  [ "// Allow this lint: builders take many arguments" ++ nl;
    "#![allow(clippy::too_many_arguments)]" ++ nl;
    nl;
    "use std::sync::Arc;" ++ nl ].

(** Two declarations of the metadata map, one after the other. *)
Definition decl_sample : string :=
  "fn a() {" ++ nl
  ++ "        let mut metadata = HashMap::new();" ++ nl
  ++ "        let mut metadata = HashMap::new();" ++ nl
  ++ "}" ++ nl.

(** One line outside every interceptor construct that names the
    variable twice. *)
Definition partly_sample : string := "let a = metadata + metadata;" ++ nl.

(** A before-request call written in the middle of a word. *)
Definition split_word_sample : string :=
  "let meta        self.call_before_request(ctx).await?;" ++ nl
  ++ "data = 1;" ++ nl.

(** The three scripts, each with the text it hands to [write] as a
    function of the text [read] gave it. *)
Definition scripts
  : list ((IO.platform -> IO.fault -> IO.io unit) * (string -> string)) :=
  [ (IO.refactor,
     fun content => PyStr.join (Refactor.refactor_lines (PyStr.readlines content)));
    (IO.fix_client, FixClient.fix_content);
    (IO.remove_interceptors, RemoveInterceptors.remove_content) ].

End Stable.

(** ** Spans and output lines of the line loop *)

Module Spans.
Import PyStr Refactor.

(** The texts the [if] chain of [refactor] looks for in the current
    line, in source order. *)
Definition markers : list string :=
  [ "use crate::interceptor";
    "clippy::too_many_arguments";
    "use tokio::sync::RwLock";
    "// Helper macro to generate";
    "impl_interceptor_helpers!";
    "    interceptors: Arc<RwLock<InterceptorChain>>,";
    "since InterceptorChain";
    ".field(" ++ dq ++ "interceptors" ++ dq;
    "            interceptors: Arc::new";
    "    /// Add an interceptor";
    "pub(crate) fn interceptors";
    "// Interceptor helper methods";
    "        let mut metadata = HashMap::new();";
    "        let metadata = HashMap::new();";
    "        self.call_before_request";
    ".handle_api_error(";
    "        self.call_after_response" ].

(** The two lines [refactor] writes that are no copy of an input line. *)
Definition replacement_line (l : string) : Prop :=
  l = "// Custom Debug implementation" ++ nl
  \/ exists n, l = times " " n ++ "map_api_error(e)" ++ nl.

(** [lines[i] + ... + lines[i+n]]: the statement collected so far by the
    [handle_api_error] rule once [n] more lines were added. *)
Fixpoint stmt_upto (lines : list string) (i n : nat) : string :=
  match n with
  | 0 => line_at lines i
  | S n' => stmt_upto lines i n' ++ line_at lines (i + S n')
  end.

(** [stmt.rstrip().endswith(';')] on that statement. *)
Definition stmt_done (lines : list string) (i n : nat) : bool :=
  endswith ";" (rstrip (stmt_upto lines i n)).

(** The two rules that scan for a text, with the text each one scans for. *)
Definition await_rules : list (rule * string * string) :=
  [ (BeforeRequest, "        self.call_before_request", ".await?");
    (AfterResponse, "        self.call_after_response", ".await;") ].

End Spans.

(** ** The texts a pattern stands for *)

Module Lang.
Import PyStr Re Cover.

(** Every character of [s] is in the class [k]. *)
Fixpoint all_cls (k : cls) (s : string) : bool :=
  match s with
  | EmptyString => true
  | String c s' => cls_match k c && all_cls k s'
  end.

(** [denotes r prev m rest g g']: the text [m], found after the
    character [prev] and followed by [rest], is one the pattern [r] stands
    for; group 1 goes from [g] to [g']. *)
Inductive denotes :
  re -> option ascii -> string -> string -> option string -> option string -> Prop :=
| D_eps : forall prev rest g, denotes Eps prev EmptyString rest g g
| D_chr : forall k c prev rest g,
    cls_match k c = true ->
    denotes (Chr k) prev (String c EmptyString) rest g g
| D_seq : forall r1 r2 prev m1 m2 rest g g1 g2,
    denotes r1 prev m1 (m2 ++ rest) g g1 ->
    denotes r2 (last_or prev m1) m2 rest g1 g2 ->
    denotes (Seq r1 r2) prev (m1 ++ m2) rest g g2
| D_alt_l : forall r1 r2 prev m rest g g',
    denotes r1 prev m rest g g' -> denotes (Alt r1 r2) prev m rest g g'
| D_alt_r : forall r1 r2 prev m rest g g',
    denotes r2 prev m rest g g' -> denotes (Alt r1 r2) prev m rest g g'
| D_rep : forall k min greedy prev m rest g,
    all_cls k m = true -> min <= String.length m ->
    denotes (Rep k min greedy) prev m rest g g
| D_wordb : forall prev rest g,
    xorb (word_opt prev) (word_opt (first rest)) = true ->
    denotes WordB prev EmptyString rest g g
| D_bol : forall prev rest g,
    (prev = None \/ prev = Some "010"%char) ->
    denotes Bol prev EmptyString rest g g
| D_group : forall r prev m rest g g1,
    denotes r prev m rest g g1 ->
    denotes (Group r) prev m rest g (Some m).

(** A property of every match of a scan. *)
Definition cut_ok (P : string -> option string -> Prop) (p : piece) : Prop :=
  match p with
  | Keep _ => True
  | Cut m g => P m g
  end.

(** A call statement as the await patterns of the scripts take it:
    [call], arguments with no closing parenthesis in them and at least
    one character, the closing parenthesis, whitespace, [await]. *)
Definition await_statement (call await m : string) : Prop :=
  exists args ws,
    m = call ++ args ++ ")" ++ ws ++ await
    /\ args <> EmptyString /\ count ")" args = 0
    /\ all_cls Space ws = true.

(** A [handle_api_error] call as the pattern of [fix_client] takes it,
    with the whitespace in front of it as group 1. *)
Definition api_error_call (m : string) (g : option string) : Prop :=
  exists ws ws2 args,
    m = ws ++ "self.handle_api_error(e," ++ ws2 ++ args ++ ")"
    /\ g = Some ws
    /\ ws <> EmptyString /\ all_cls Space ws = true
    /\ all_cls Space ws2 = true
    /\ args <> EmptyString /\ count ")" args = 0.

(** A call as the patterns of [remove_interceptors] take it: [call],
    arguments with no closing parenthesis in them and at least one
    character, then [close]. *)
Definition plain_call (call close m : string) : Prop :=
  exists args,
    m = call ++ args ++ close
    /\ args <> EmptyString /\ count ")" args = 0.

(** The literal text each pattern of [remove_interceptors] begins with,
    in the order of the substitutions. *)
Definition anchors : list string :=
  [ "use crate::interceptor::{";
    "// Allow this lint";
    "use tokio::sync::RwLock;" ++ nl;
    "// Helper macro to generate interceptor helper methods";
    "impl_interceptor_helpers!(";
    "    interceptors: Arc<RwLock<InterceptorChain>>,";
    "// Custom Debug implementation since InterceptorChain doesn't implement Debug";
    "            .field(" ++ dq ++ "interceptors" ++ dq ++ ", &" ++ dq
      ++ "<InterceptorChain>" ++ dq ++ ")" ++ nl;
    "            interceptors: Arc::new(RwLock::new(InterceptorChain::new()))," ++ nl;
    "    /// Add an interceptor to the client.";
    "    /// Get a reference to the interceptor chain.";
    "// Interceptor helper methods" ++ nl ++ "impl Client {";
    nl ++ "        let mut metadata = HashMap::new();" ++ nl;
    "        self.call_before_request(";
    "self.handle_api_error(e, ";
    "        self.call_after_response(" ].

(** A literal text that every match of each pattern of [fix_client]
    contains, in the order of the substitutions. *)
Definition needles : list string :=
  [ "        self.call_before_request(";
    "self.handle_api_error(e,";
    "        self.call_after_response(";
    "metadata" ].

(** The position after [before] is the start of a line. *)
Definition line_start (before : option ascii) : bool :=
  match before with
  | None => true
  | Some c => Ascii.eqb c "010"%char
  end.

(** The closing text [t] could be taken at the position that has [x]
    before it and [y] after it; [at_bol] asks for the start of a line. *)
Definition closes (t : string) (at_bol : bool) (x y : string) : bool :=
  (negb at_bol || line_start (last_or None x)) && startswith t y.

(** The end of a lazy block pattern: the closing text, at the start of
    a line ([^] under MULTILINE) when [at_bol]. *)
Definition tail_of (t : string) (at_bol : bool) : re :=
  if at_bol then Seq Bol (lit t) else lit t.

(** A block as the lazy patterns of [remove_interceptors] take it: the
    opening text [a], a body, the closing text [t], where the closing
    text could not have been taken anywhere earlier in the body. *)
Definition block_match (a t : string) (at_bol : bool) (m : string) : Prop :=
  exists body,
    m = a ++ body ++ t
    /\ closes t at_bol (a ++ body) t = true
    /\ forall j, j < String.length body ->
                 closes t at_bol (a ++ substring 0 j body) (drop j body ++ t) = false.

(** Every match of the pattern of [p] is at least as long as what
    replaces it. *)
Definition shrinking (p : substitution) : Prop :=
  forall prev m rest g,
    denotes (fst p) prev m rest None g ->
    String.length (expand (snd p) g) <= String.length m.

(** Every match of the pattern of [p] is longer than what replaces
    it. *)
Definition strictly_shrinking (p : substitution) : Prop :=
  forall prev m rest g,
    denotes (fst p) prev m rest None g ->
    String.length (expand (snd p) g) < String.length m.

(** What replaces a match of the pattern of [p] holds the character
    [c] only if the match held it. *)
Definition brings_no (c : ascii) (p : substitution) : Prop :=
  forall prev m rest g,
    denotes (fst p) prev m rest None g ->
    count c m = 0 -> count c (expand (snd p) g) = 0.

(** Every match of [r] contains the text [a]. *)
Definition needs (r : re) (a : string) : Prop :=
  forall prev m rest g, denotes r prev m rest None g -> contains a m = true.

End Lang.

(** * Theorems *)

Module StrFacts.
Import PyStr.

Lemma length_app (a b : string) :
  String.length (a ++ b) = String.length a + String.length b.
Proof. induction a as [|c a IH]; simpl; [reflexivity | now rewrite IH]. Qed.

Lemma app_empty_r (a : string) : a ++ EmptyString = a.
Proof. induction a as [|c a IH]; simpl; [reflexivity | now rewrite IH]. Qed.

Lemma app_assoc (a b c : string) : (a ++ b) ++ c = a ++ (b ++ c).
Proof. induction a as [|x a IH]; simpl; [reflexivity | now rewrite IH]. Qed.

Lemma indent_lstrip (s : string) : Trace.indent s ++ lstrip s = s.
Proof.
  induction s as [|c s IH]; simpl; [reflexivity|].
  destruct (is_space c); simpl; [now rewrite IH | reflexivity].
Qed.

Lemma indent_width (s : string) :
  String.length s - String.length (lstrip s) = String.length (Trace.indent s).
Proof.
  rewrite <- (indent_lstrip s) at 1. rewrite length_app. lia.
Qed.

Lemma times_spaces (s : string) :
  Trace.only_spaces s = true -> times " " (String.length s) = s.
Proof.
  induction s as [|c s IH]; simpl; [reflexivity|].
  intro H. apply andb_prop in H. destruct H as [Hc Hs].
  apply Ascii.eqb_eq in Hc. subst c. now rewrite IH.
Qed.

End StrFacts.

Module RefactorFacts.
Import PyStr Refactor Trace.

Section Scans.
Variable lines : list string.

Lemma skip_until_ge stop fuel i : i <= skip_until lines stop fuel i.
Proof.
  revert i; induction fuel as [|fuel IH]; intro i; simpl; [lia|].
  destruct ((i <? len lines) && negb (stop i)); [|lia].
  specialize (IH (i + 1)); lia.
Qed.

Lemma skip_through_ge hit fuel i : i <= skip_through lines hit fuel i.
Proof.
  revert i; induction fuel as [|fuel IH]; intro i; simpl; [lia|].
  destruct (i <? len lines); [|lia].
  destruct (hit i); [lia|]. specialize (IH (i + 1)); lia.
Qed.

Lemma skip_through_gt hit fuel i :
  0 < fuel -> i < len lines -> i < skip_through lines hit fuel i.
Proof.
  intros Hf Hi. destruct fuel as [|fuel]; [lia|]. simpl.
  apply Nat.ltb_lt in Hi. rewrite Hi.
  destruct (hit i); [lia|].
  pose proof (skip_through_ge hit fuel (i + 1)). lia.
Qed.

Lemma skip_braces_ge fuel i bc : i <= skip_braces lines fuel i bc.
Proof.
  revert i bc; induction fuel as [|fuel IH]; intros i bc; simpl; [lia|].
  destruct (i <? len lines); [|lia].
  match goal with |- context [if ?c then _ else _] => destruct c end; [lia|].
  match goal with |- _ <= skip_braces _ _ ?j ?b => specialize (IH j b) end. lia.
Qed.

Lemma collect_stmt_ge fuel i stmt : i <= collect_stmt lines fuel i stmt.
Proof.
  revert i stmt; induction fuel as [|fuel IH]; intros i stmt; simpl; [lia|].
  match goal with |- context [if ?c then _ else _] => destruct c end; [|lia].
  match goal with |- _ <= collect_stmt _ _ ?j ?b => specialize (IH j b) end. lia.
Qed.

(** Every branch of the loop body leaves [i] strictly larger. *)
Lemma body_advances i :
  i < len lines -> i < snd (fst (body lines i)).
Proof.
  intro Hi. unfold body, body_with.
  repeat match goal with
         | |- _ < snd (fst (if ?c then _ else _)) => destruct c
         end; cbn [fst snd]; try lia.
  - pose proof (skip_until_ge (macro_end lines) (len lines - i) i). lia.
  - pose proof (skip_until_ge (method_end lines) (len lines - i) i). lia.
  - pose proof (skip_until_ge (closing_brace lines) (len lines - i) i).
    match goal with |- context [if ?c then _ else _] => destruct c end; lia.
  - pose proof (skip_braces_ge (len lines - (i + 1)) (i + 1) 0%Z).
    pose proof (skip_braces_ge (len lines - i) (i + 1) 0%Z). lia.
  - apply skip_through_gt; lia.
  - pose proof (collect_stmt_ge (len lines - i) i (line_at lines i)). lia.
  - apply skip_through_gt; lia.
Qed.

Lemma step_advances st :
  idx st < len lines -> idx st < idx (step lines st).
Proof.
  intro H. apply body_advances in H. unfold step.
  destruct (body lines (idx st)) as [[r i'] em]. exact H.
Qed.

Lemma loop_finished fuel st :
  len lines - idx st <= fuel -> finished lines (loop lines fuel st).
Proof.
  revert st; induction fuel as [|fuel IH]; intros st Hf; simpl.
  - unfold finished. lia.
  - destruct (idx st <? len lines) eqn:E.
    + apply Nat.ltb_lt in E. apply IH.
      pose proof (step_advances st E). lia.
    + apply Nat.ltb_ge in E. exact E.
Qed.

Lemma tiled_snoc a tr b it :
  tiled lines a tr b ->
  start it = b -> b < len lines ->
  body lines b = (fired it, next it, emitted it) ->
  tiled lines a (tr ++ [it]) (next it).
Proof.
  induction 1 as [a|a it0 tr b H0 Hlt Hb Ht IH]; intros Hs Hl Hbody; simpl.
  - apply tiled_cons; auto. constructor.
  - apply tiled_cons; auto.
Qed.

Lemma step_inv st :
  idx st < len lines -> inv lines st -> inv lines (step lines st).
Proof.
  intros Hlt [Ht Ho]. unfold step.
  destruct (body lines (idx st)) as [[r i'] em] eqn:Hb.
  split; cbn [idx output trace].
  - apply (tiled_snoc 0 (trace st) (idx st) (Iteration r (idx st) i' em)); auto.
  - rewrite flat_map_app, Ho. cbn [flat_map emitted]. now rewrite app_nil_r.
Qed.

Lemma loop_inv fuel st : inv lines st -> inv lines (loop lines fuel st).
Proof.
  revert st; induction fuel as [|fuel IH]; intros st H; simpl; auto.
  destruct (idx st <? len lines) eqn:E; auto.
  apply IH, step_inv; auto. now apply Nat.ltb_lt.
Qed.

Lemma run_inv : inv lines (run lines).
Proof. apply loop_inv. split; [constructor | reflexivity]. Qed.

Lemma run_finished : finished lines (run lines).
Proof. apply loop_finished. simpl. lia. Qed.

Lemma tiled_bounds a tr b :
  tiled lines a tr b ->
  a <= b /\
  Forall (fun it => a <= start it /\ start it < next it
                    /\ start it < len lines /\ next it <= b) tr.
Proof.
  induction 1 as [a|a it tr b H0 Hlt Hb Ht [IHle IHall]].
  - split; [lia | constructor].
  - assert (Hadv : start it < next it).
    { pose proof (body_advances a Hlt) as Hadv. rewrite Hb in Hadv.
      cbn [fst snd] in Hadv. lia. }
    split; [lia|]. constructor; [lia|].
    eapply Forall_impl; [|exact IHall]. cbv beta. intros x Hx. lia.
Qed.

Lemma tiled_sorted a tr b :
  tiled lines a tr b ->
  StronglySorted (fun x y => next x <= start y) tr.
Proof.
  induction 1 as [a|a it tr b H0 Hlt Hb Ht IH]; constructor; auto.
  apply tiled_bounds in Ht. destruct Ht as [_ Hall].
  eapply Forall_impl; [|exact Hall]. cbv beta. intros x Hx. lia.
Qed.

Lemma tiled_length a tr b :
  tiled lines a tr b -> List.length tr <= len lines - a.
Proof.
  induction 1 as [a|a it tr b H0 Hlt Hb Ht IH]; simpl; [lia|].
  assert (Hadv : start it < next it).
  { pose proof (body_advances a Hlt) as Hadv. rewrite Hb in Hadv.
    cbn [fst snd] in Hadv. lia. }
  lia.
Qed.

(** The index ranges of the iterations, one after the other, are
    the indices from [a] up to the end of the tiled part. *)
Lemma tiled_ranges a tr b :
  tiled lines a tr b ->
  flat_map (fun it => seq (start it) (consumed (len lines) it)) tr
  = seq a (Nat.min b (len lines) - a).
Proof.
  induction 1 as [a|a it tr b H0 Hlt Hb Ht IH]; simpl.
  - replace (Nat.min a (len lines) - a) with 0 by lia. reflexivity.
  - assert (Hadv : start it < next it).
    { pose proof (body_advances a Hlt) as Hadv. rewrite Hb in Hadv.
      cbn [fst snd] in Hadv. lia. }
    pose proof (tiled_bounds _ _ _ Ht) as [Hle _].
    rewrite IH. unfold consumed. subst a.
    destruct (Nat.le_gt_cases (len lines) (next it)) as [Hge|Hlt'].
    + replace (Nat.min b (len lines) - next it) with 0 by lia.
      cbn [seq]. rewrite app_nil_r. f_equal. lia.
    + rewrite Nat.min_l by lia.
      replace (Nat.min b (len lines) - start it)
        with ((next it - start it) + (Nat.min b (len lines) - next it)) by lia.
      rewrite seq_app. do 2 f_equal. lia.
Qed.

Lemma loop_more fuel extra st :
  finished lines (loop lines fuel st) ->
  loop lines (fuel + extra) st = loop lines fuel st.
Proof.
  revert st; induction fuel as [|fuel IH]; intros st Hfin; simpl in *.
  - destruct extra; simpl; [reflexivity|].
    unfold finished in Hfin. apply Nat.ltb_ge in Hfin. now rewrite Hfin.
  - destruct (idx st <? len lines); [now apply IH | reflexivity].
Qed.

(** The output buffer is written, never read: the scan from index
    [i] runs the same way whatever was emitted so far. *)
Lemma loop_output_blind fuel i out tr :
  idx (loop lines fuel (State i out tr)) = idx (loop lines fuel (State i [] []))
  /\ output (loop lines fuel (State i out tr))
     = (out ++ output (loop lines fuel (State i [] [])))%list.
Proof.
  revert i out tr; induction fuel as [|fuel IH]; intros i out tr; simpl.
  - now rewrite app_nil_r.
  - destruct (i <? len lines); simpl; [|now rewrite app_nil_r].
    unfold step; cbn [idx output trace].
    destruct (body lines i) as [[r i'] em].
    destruct (IH i' (out ++ em)%list (tr ++ [Iteration r i i' em])%list) as [E1 E2].
    destruct (IH i' ([] ++ em)%list ([] ++ [Iteration r i i' em])%list) as [E3 E4].
    rewrite E1, E2, E3, E4. split; [reflexivity|].
    now rewrite <- app_assoc.
Qed.

Lemma applied_sorted a tr b :
  tiled lines a tr b ->
  StronglySorted before (applied (len lines) tr)
  /\ Forall (fun x => a <= span_start x /\ span_start x <= span_stop x
                      /\ span_stop x < len lines) (applied (len lines) tr).
Proof.
  induction 1 as [a|a it tr b H0 Hlt Hb Ht [IHs IHall]]; simpl.
  - split; constructor.
  - assert (Hadv : start it < next it).
    { pose proof (body_advances a Hlt) as Hadv. rewrite Hb in Hadv.
      cbn [fst snd] in Hadv. lia. }
    assert (Hall' : Forall (fun x => a <= span_start x /\ span_start x <= span_stop x
                      /\ span_stop x < len lines) (applied (len lines) tr)).
    { eapply Forall_impl; [|exact IHall]. cbv beta. intros x Hx. lia. }
    destruct (fired it) as [r|]; [|auto].
    split.
    + constructor; [exact IHs|].
      eapply Forall_impl; [|exact IHall]. intros x Hx.
      unfold before, span_start, span_stop in *. cbn [fst snd]. lia.
    + constructor; [|exact Hall'].
      unfold span_start, span_stop. cbn [fst snd]. lia.
Qed.

Lemma tiled_copied a tr b :
  tiled lines a tr b ->
  Forall (fun it => match fired it with
                    | None => next it = start it + 1
                              /\ emitted it = [line_at lines (start it)]
                    | Some _ => True
                    end) tr.
Proof.
  induction 1 as [a|a it tr b H0 Hlt Hb Ht IH]; constructor; auto.
  destruct (fired it) eqn:Ef; [exact I|]. subst a.
  revert Hb. unfold body, body_with.
  repeat match goal with
         | |- (if ?c then _ else _) = _ -> _ => destruct c
         end; intro Hb; inversion Hb; auto; congruence.
Qed.

(** Line count of the output against the consumed and emitted lines. *)
Lemma tiled_count a tr b :
  tiled lines a tr b ->
  List.length (flat_map emitted tr)
  + sum (map (consumed (len lines)) (filter is_applied tr))
  = (Nat.min b (len lines) - a)
    + sum (map (fun it => List.length (emitted it)) (filter is_applied tr)).
Proof.
  intro Ht. pose proof (tiled_copied _ _ _ Ht) as Hc. revert Hc.
  induction Ht as [a|a it tr b H0 Hlt Hb Ht IH]; intro Hc.
  - simpl. lia.
  - inversion Hc as [|? ? Hit Hc']; subst.
    specialize (IH Hc').
    assert (Hadv : start it < next it).
    { pose proof (body_advances _ Hlt) as Hadv. rewrite Hb in Hadv.
      cbn [fst snd] in Hadv. lia. }
    pose proof (tiled_bounds _ _ _ Ht) as [Hle _].
    cbn [flat_map filter]. rewrite length_app.
    destruct (fired it) eqn:Ef.
    + assert (Ea : is_applied it = true) by (unfold is_applied; now rewrite Ef).
      rewrite Ea. cbn [map sum]. unfold consumed at 1. lia.
    + assert (Ea : is_applied it = false) by (unfold is_applied; now rewrite Ef).
      rewrite Ea. destruct Hit as [Hn He]. rewrite He. cbn [List.length]. lia.
Qed.

End Scans.

Section Resolvers.
Variable lines : list string.

Lemma skip_until_exhausts stop fuel i :
  (forall j, i <= j -> j < len lines -> stop j = false) ->
  len lines - i <= fuel -> i <= len lines ->
  skip_until lines stop fuel i = len lines.
Proof.
  revert i; induction fuel as [|fuel IH]; intros i Hs Hf Hi; simpl; [lia|].
  destruct (i <? len lines) eqn:E; simpl.
  - apply Nat.ltb_lt in E. rewrite Hs by lia. simpl.
    apply IH; [|lia|lia]. intros j Hj Hj'. apply Hs; lia.
  - apply Nat.ltb_ge in E. lia.
Qed.

Lemma skip_through_exhausts hit fuel i :
  (forall j, i <= j -> j < len lines -> hit j = false) ->
  len lines - i <= fuel -> i <= len lines ->
  skip_through lines hit fuel i = len lines.
Proof.
  revert i; induction fuel as [|fuel IH]; intros i Hs Hf Hi; simpl; [lia|].
  destruct (i <? len lines) eqn:E; simpl.
  - apply Nat.ltb_lt in E. rewrite Hs by lia.
    apply IH; [|lia|lia]. intros j Hj Hj'. apply Hs; lia.
  - apply Nat.ltb_ge in E. lia.
Qed.

(** The brace loop, entered at line [i + 1 + m] with the depth of the
    [m] lines already scanned, leaves after the first line that
    passes its exit test. *)
Lemma skip_braces_first i n m fuel :
  let k := i + 1 + m + n in
  k < len lines ->
  len lines - (i + 1 + m) <= fuel ->
  (forall j, i + 1 + m <= j -> j < k -> brace_stop lines i j = false) ->
  brace_stop lines i k = true ->
  skip_braces lines fuel (i + 1 + m) (depth_upto lines (i + 1) m) = k + 1.
Proof.
  revert m fuel; induction n as [|n IH]; intros m fuel k Hk Hf Hno Hstop;
    subst k; (destruct fuel as [|fuel]; [lia|]); simpl.
  - assert (E : (i + 1 + m <? len lines) = true) by (apply Nat.ltb_lt; lia).
    rewrite E. replace (i + 1 + m + 1 - 1) with (i + 1 + m) by lia.
    unfold brace_stop in Hstop.
    replace (i + 1 + m + 0 - i) with (S m) in Hstop by lia.
    replace (i + 1 + m + 0) with (i + 1 + m) in Hstop by lia.
    simpl in Hstop. rewrite Hstop. lia.
  - assert (E : (i + 1 + m <? len lines) = true) by (apply Nat.ltb_lt; lia).
    rewrite E. replace (i + 1 + m + 1 - 1) with (i + 1 + m) by lia.
    pose proof (Hno (i + 1 + m) ltac:(lia) ltac:(lia)) as Hn.
    unfold brace_stop in Hn.
    replace (i + 1 + m - i) with (S m) in Hn by lia.
    simpl in Hn. rewrite Hn.
    replace (i + 1 + m + 1) with (i + 1 + S m) by lia.
    change (depth_upto lines (i + 1) m + brace_delta (line_at lines (i + 1 + m)))%Z
      with (depth_upto lines (i + 1) (S m)).
    rewrite (IH (S m) fuel); [lia|lia|lia| |].
    + intros j Hj Hj'. apply Hno; lia.
    + replace (i + 1 + S m + n) with (i + 1 + m + S n) by lia. exact Hstop.
Qed.

Lemma skip_braces_exhausts i m fuel :
  i + 1 + m <= len lines ->
  len lines - (i + 1 + m) <= fuel ->
  (forall j, i + 1 + m <= j -> j < len lines -> brace_stop lines i j = false) ->
  skip_braces lines fuel (i + 1 + m) (depth_upto lines (i + 1) m) = len lines.
Proof.
  revert m; induction fuel as [|fuel IH]; intros m Hle Hf Hno; simpl; [lia|].
  destruct (i + 1 + m <? len lines) eqn:E.
  - apply Nat.ltb_lt in E.
    replace (i + 1 + m + 1 - 1) with (i + 1 + m) by lia.
    pose proof (Hno (i + 1 + m) ltac:(lia) ltac:(lia)) as Hn.
    unfold brace_stop in Hn.
    replace (i + 1 + m - i) with (S m) in Hn by lia.
    simpl in Hn. rewrite Hn.
    replace (i + 1 + m + 1) with (i + 1 + S m) by lia.
    change (depth_upto lines (i + 1) m + brace_delta (line_at lines (i + 1 + m)))%Z
      with (depth_upto lines (i + 1) (S m)).
    apply IH; [lia|lia|]. intros j Hj Hj'. apply Hno; lia.
  - apply Nat.ltb_ge in E. lia.
Qed.

(** The branch that ran at line [i], read off the result of [body]. *)
Ltac walk H :=
  unfold body, body_with in H |- *;
  repeat match type of H with
         | fst (fst (if ?c then _ else _)) = _ => destruct c eqn:?
         end;
  cbn [fst snd] in H |- *.

Lemma unterminated_body i r :
  i < len lines ->
  fst (fst (body lines i)) = Some r ->
  unterminated lines r i ->
  len lines <= snd (fst (body lines i)) /\ snd (body lines i) = [].
Proof.
  intros Hi Hr Hu. walk Hr; inversion Hr; subst r; cbn [unterminated] in Hu;
    try contradiction; (split; [|reflexivity]).
  - rewrite skip_until_exhausts; auto; lia.
  - rewrite skip_until_exhausts; auto; lia.
  - rewrite skip_until_exhausts; auto; try lia.
    match goal with |- context [if ?c then _ else _] => destruct c end; lia.
  - replace (i + 1) with (i + 1 + 0) by lia.
    change 0%Z with (depth_upto lines (i + 1) 0).
    rewrite skip_braces_exhausts; try lia.
    intros j Hj Hj'. apply Hu; lia.
  - rewrite skip_through_exhausts; auto; lia.
  - rewrite skip_through_exhausts; auto; lia.
Qed.

Lemma handle_api_error_body i :
  fst (fst (body lines i)) = Some HandleApiError ->
  contains ".handle_api_error(" (line_at lines i) = true
  /\ snd (body lines i)
     = [times " " (String.length (line_at lines i)
                   - String.length (lstrip (line_at lines i)))
        ++ "map_api_error(e)" ++ nl].
Proof.
  intro Hr. walk Hr; try discriminate. split; reflexivity.
Qed.

End Resolvers.

Lemma indent_times n (s : string) :
  indent (String "m" s) = EmptyString ->
  indent (times " " n ++ String "m" s) = times " " n.
Proof.
  intro H. induction n as [|n IH]; [exact H|].
  cbn [times append indent]. change (is_space " ") with true.
  cbv iota. now rewrite IH.
Qed.

(** C9, as amended. Where the [handle_api_error] branch runs, the
    line contains ['.handle_api_error('] and what is appended to the
    output is exactly one line: as many spaces as the line has leading
    whitespace characters, then the fixed text [map_api_error(e)] and a
    newline.  The text does not depend on the error variable of the
    original call; its indentation has as many characters as that of
    the original line; and it starts with the original indentation
    itself when that is made of spaces only (any other whitespace
    character of the indentation is written as a space). *)
Theorem handle_api_error_replacement : forall (lines : list string) (i : nat),
  fst (fst (body lines i)) = Some HandleApiError ->
  let line := line_at lines i in
  let emitted_line :=
    times " " (String.length (indent line)) ++ "map_api_error(e)" ++ nl in
  contains ".handle_api_error(" line = true
  /\ snd (body lines i) = [emitted_line]
  /\ String.length (indent emitted_line) = String.length (indent line)
  /\ (only_spaces (indent line) = true ->
      snd (body lines i) = [indent line ++ "map_api_error(e)" ++ nl]).
Proof.
  intros lines i Hr line emitted_line.
  destruct (handle_api_error_body lines i Hr) as [Hc He].
  fold line in Hc, He. rewrite StrFacts.indent_width in He.
  split; [exact Hc|]. split; [exact He|]. split.
  - unfold emitted_line. cbn [append]. rewrite indent_times by reflexivity.
    clear. induction (String.length (indent line)); simpl; congruence.
  - intro Hs. rewrite He. unfold emitted_line.
    now rewrite StrFacts.times_spaces.
Qed.

Lemma handle_api_error_replacement_witness :
  snd (body [ "    Err(err) => Err(self.handle_api_error(err, ctx))," ++ nl ] 0)
  = [ "    map_api_error(e)" ++ nl ].
Proof.
  exact (proj1 (proj2 (handle_api_error_replacement
    [ "    Err(err) => Err(self.handle_api_error(err, ctx))," ++ nl ] 0
    eq_refl))).
Defined.

(** C9, counterexample.  A line indented with one tab: the branch runs
    and writes one space in front of [map_api_error(e)], not the tab the
    line began with. *)
Lemma tab_indent_becomes_space :
  let line := String "009" ("Err(e) => self.handle_api_error(e, ctx)," ++ nl) in
  fst (fst (body [line] 0)) = Some HandleApiError
  /\ indent line = String "009" EmptyString
  /\ snd (body [line] 0) = [ " map_api_error(e)" ++ nl ]
  /\ String.eqb (" map_api_error(e)" ++ nl)
                (indent line ++ "map_api_error(e)" ++ nl) = false.
Proof. repeat split; vm_compute; reflexivity. Qed.

(** C1, as amended. The helper-block resolver passes over the marker
    line without counting its braces, then keeps a counter seeded at 0 to
    which each scanned line adds its number of ['{'] and from which it
    takes its number of ['}'], and ends at the first scanned line after
    which the counter is zero and which, stripped, is exactly ['}']; the
    next index is the one after that line.  On the synthetic construct
    (marker line, then [{], [A {], [}], [B], [}], [tail]) it ends exactly
    at the last ['}'] before [tail], so that only [tail] is kept. *)
Theorem helper_block_resolution :
  (forall (lines : list string) (i k : nat),
      fst (fst (body lines i)) = Some HelperBlock ->
      i < k -> k < len lines ->
      (forall j, i < j -> j < k -> brace_stop lines i j = false) ->
      brace_stop lines i k = true ->
      snd (fst (body lines i)) = k + 1)
  /\ snd (fst (body synthetic 0)) = 6
  /\ audit_trail synthetic = [(HelperBlock, 0, 5)]
  /\ refactor_lines synthetic = ["tail" ++ nl].
Proof.
  split; [|repeat split; vm_compute; reflexivity].
  intros lines i k Hr Hik Hk Hno Hstop.
  assert (Hb : snd (fst (body lines i))
               = skip_braces lines (len lines - i) (i + 1) 0%Z).
  { revert Hr. unfold body, body_with.
    repeat match goal with
           | |- fst (fst (if ?c then _ else _)) = _ -> _ => destruct c
           end; cbn [fst snd]; intro Hr; try discriminate. reflexivity. }
  rewrite Hb.
  replace (i + 1) with (i + 1 + 0) by lia.
  change 0%Z with (depth_upto lines (i + 1) 0).
  replace k with (i + 1 + 0 + (k - i - 1)) at 1 by lia.
  apply skip_braces_first.
  - lia.
  - lia.
  - intros j Hj Hj'. apply Hno; lia.
  - replace (i + 1 + 0 + (k - i - 1)) with k by lia. exact Hstop.
Qed.

Lemma helper_block_resolution_witness :
  snd (fst (body synthetic 0)) = 5 + 1.
Proof.
  refine (proj1 helper_block_resolution synthetic 0 5 eq_refl _ _ _ eq_refl).
  - lia.
  - vm_compute. lia.
  - intros j H1 H2.
    destruct j as [|[|[|[|[|j]]]]]; try lia; reflexivity.
Defined.

(** C1, counterexample.  With the block closed by [} // end] the depth
    first returns to zero at line 2, where the specification's resolver
    ends; the script goes on to the next bare ['}'] at line 4 and takes
    the function [g] with it.  With the opening brace on the marker line
    itself the script ends at line 2, before the matching ['}'] of
    line 4. *)
Lemma helper_block_not_first_zero :
  let ls := [ "// Interceptor helper methods" ++ nl; "impl Client {" ++ nl;
              "} // end" ++ nl; "fn g() {" ++ nl; "}" ++ nl; "tail" ++ nl ] in
  let ls2 := [ "// Interceptor helper methods {" ++ nl; "A {" ++ nl; "}" ++ nl;
               "B" ++ nl; "}" ++ nl; "tail" ++ nl ] in
  SpecWords.balanced_end "{" "}" 0 false (tl ls) 1 = Some 2
  /\ audit_trail ls = [(HelperBlock, 0, 4)]
  /\ refactor_lines ls = ["tail" ++ nl]
  /\ SpecWords.balanced_end "{" "}" 0 false ls2 0 = Some 4
  /\ audit_trail ls2 = [(HelperBlock, 0, 2)]
  /\ refactor_lines ls2 = ["B" ++ nl; "}" ++ nl; "tail" ++ nl].
Proof. repeat split; vm_compute; reflexivity. Qed.

Lemma loop_add lines a b st :
  loop lines (a + b) st = loop lines b (loop lines a st).
Proof.
  revert st; induction a as [|a IH]; intro st; simpl; [reflexivity|].
  destruct (idx st <? len lines) eqn:E; [apply IH|].
  destruct b; simpl; [reflexivity | now rewrite E].
Qed.

Lemma unterminated_loop lines i r out tr fuel :
  i < len lines ->
  fst (fst (body lines i)) = Some r ->
  unterminated lines r i ->
  finished lines (loop lines (S fuel) (State i out tr))
  /\ output (loop lines (S fuel) (State i out tr)) = out.
Proof.
  intros Hi Hr Hu.
  destruct (unterminated_body lines i r Hi Hr Hu) as [Hn He].
  cbn [loop idx]. apply Nat.ltb_lt in Hi. rewrite Hi.
  unfold step. cbn [idx output trace].
  destruct (body lines i) as [[r' i'] em]. cbn [fst snd] in Hn, He. subst em.
  assert (E : loop lines fuel
                (State i' (out ++ []) (tr ++ [Iteration r' i i' []]))
              = State i' (out ++ []) (tr ++ [Iteration r' i i' []])).
  { destruct fuel; simpl; [reflexivity|].
    assert (E' : (i' <? len lines) = false) by (apply Nat.ltb_ge; lia).
    now rewrite E'. }
  rewrite E. unfold finished. cbn [idx output].
  split; [lia | apply app_nil_r].
Qed.

(** If the run reaches, with [out] emitted so far, a marker line whose
    terminator is missing, then [out] is the whole output of the run. *)
Lemma unterminated_run lines fuel0 i r out tr :
  loop lines fuel0 init = State i out tr ->
  i < len lines ->
  fst (fst (body lines i)) = Some r ->
  unterminated lines r i ->
  refactor_lines lines = out.
Proof.
  intros Hreach Hi Hr Hu.
  destruct (unterminated_loop lines i r out tr (len lines) Hi Hr Hu) as [Hf Ho].
  unfold refactor_lines, run.
  rewrite <- (loop_more lines (len lines) (fuel0 + 1) init (run_finished lines)).
  replace (len lines + (fuel0 + 1)) with (fuel0 + S (len lines)) by lia.
  rewrite loop_add, Hreach. exact Ho.
Qed.

(** The inner loops leave by their guard or their [break], never for
    want of fuel: with the lines that are left as fuel, more fuel gives
    the same result. *)
Section Fuel.
Variable lines : list string.

Lemma skip_until_fuel stop extra : forall fuel i,
  len lines - i <= fuel ->
  skip_until lines stop (fuel + extra) i = skip_until lines stop fuel i.
Proof.
  induction fuel as [|fuel IH]; intros i H; simpl.
  - destruct extra; simpl; [reflexivity|].
    assert (E : (i <? len lines) = false) by (apply Nat.ltb_ge; lia).
    now rewrite E.
  - destruct ((i <? len lines) && negb (stop i)); [|reflexivity].
    apply IH. lia.
Qed.

Lemma skip_through_fuel hit extra : forall fuel i,
  len lines - i <= fuel ->
  skip_through lines hit (fuel + extra) i = skip_through lines hit fuel i.
Proof.
  induction fuel as [|fuel IH]; intros i H; simpl.
  - destruct extra; simpl; [reflexivity|].
    assert (E : (i <? len lines) = false) by (apply Nat.ltb_ge; lia).
    now rewrite E.
  - destruct (i <? len lines); [|reflexivity].
    destruct (hit i); [reflexivity|]. apply IH. lia.
Qed.

Lemma skip_braces_fuel extra : forall fuel i bc,
  len lines - i <= fuel ->
  skip_braces lines (fuel + extra) i bc = skip_braces lines fuel i bc.
Proof.
  induction fuel as [|fuel IH]; intros i bc H; simpl.
  - destruct extra; simpl; [reflexivity|].
    assert (E : (i <? len lines) = false) by (apply Nat.ltb_ge; lia).
    now rewrite E.
  - destruct (i <? len lines); [|reflexivity].
    match goal with |- context [if ?c then _ else _] => destruct c end;
      [reflexivity|].
    apply IH. lia.
Qed.

Lemma collect_stmt_fuel extra : forall fuel i stmt,
  len lines - i <= fuel ->
  collect_stmt lines (fuel + extra) i stmt = collect_stmt lines fuel i stmt.
Proof.
  induction fuel as [|fuel IH]; intros i stmt H; simpl.
  - destruct extra; simpl; [reflexivity|].
    assert (E : (i <? len lines) = false) by (apply Nat.ltb_ge; lia).
    now rewrite E.
  - destruct ((i <? len lines) && negb (endswith ";" (rstrip stmt)));
      [|reflexivity].
    apply IH. lia.
Qed.

Lemma body_fuel i extra :
  body_with lines (len lines - i + extra) i = body lines i.
Proof.
  unfold body, body_with.
  rewrite !skip_until_fuel, !skip_through_fuel, skip_braces_fuel,
    collect_stmt_fuel by lia.
  reflexivity.
Qed.

End Fuel.

(** C10. Termination of [refactor]'s main loop: entered at any index
    inside the buffer, the loop body leaves [i] strictly larger, whichever
    branch runs, and its inner loops end within the lines that are left
    (more fuel gives the same result); so the run on any finite list of
    lines reaches the end of the buffer, every executed iteration leaves
    [i] strictly larger than it found it, the loop runs at most
    [len(lines)] iterations, and running it for longer changes nothing. *)
Theorem refactor_loop_terminates : forall lines : list string,
  (forall i, i < len lines -> i < snd (fst (body lines i)))
  /\ (forall i extra, body_with lines (len lines - i + extra) i = body lines i)
  /\ finished lines (run lines)
  /\ Forall (fun it => start it < next it) (trace (run lines))
  /\ List.length (trace (run lines)) <= len lines
  /\ forall extra, loop lines (len lines + extra) init = run lines.
Proof.
  intro lines. destruct (run_inv lines) as [Ht _].
  split; [apply body_advances|]. split; [apply body_fuel|].
  split; [apply run_finished|]. split; [|split].
  - apply tiled_bounds in Ht. destruct Ht as [_ Hall].
    eapply Forall_impl; [|exact Hall]. cbv beta. intros x Hx. lia.
  - apply tiled_length in Ht. lia.
  - intro extra. apply loop_more. apply run_finished.
Qed.

(** C7. Non-overlap of the audit trail: in every run the records
    (rule, start, end) of the rules that fired are pairwise disjoint and
    strictly increasing in their start index: each record ends before
    every later one starts, and each is a non-empty span of the buffer. *)
Theorem audit_trail_nonoverlap : forall lines : list string,
  StronglySorted before (audit_trail lines)
  /\ Forall (fun x => span_start x <= span_stop x /\ span_stop x < len lines)
            (audit_trail lines).
Proof.
  intro lines. destruct (run_inv lines) as [Ht _].
  destruct (applied_sorted lines _ _ _ Ht) as [Hs Hall].
  split; [exact Hs|].
  eapply Forall_impl; [|exact Hall]. cbv beta. intros x Hx. lia.
Qed.

End RefactorFacts.

Module IOFacts.
Import PyStr Refactor Trace IO.

Lemma set_file_same w p c : set_file w p c p = Some c.
Proof. unfold set_file. now rewrite String.eqb_refl. Qed.

Lemma set_file_other w p c q : q <> p -> set_file w p c q = w q.
Proof. intro H. unfold set_file. apply String.eqb_neq in H. now rewrite H. Qed.

(** Without an I/O fault a script on an existing file returns, with
    the transformed content in the file. *)
Lemma refactor_returns os w content :
  w client_rs = Some content ->
  snd (refactor os NoFault w) = inl tt
  /\ fst (refactor os NoFault w) client_rs
     = Some (write_newlines os
               (join (refactor_lines (readlines (universal_newlines content))))).
Proof.
  intro H. unfold refactor, bind, read_file, write_file. rewrite H.
  cbn [fst snd]. split; [reflexivity | apply set_file_same].
Qed.

(** C2, as amended. [refactor] has no failure for an unterminated
    construct: when the run reaches the start marker of a multi-line
    rule (macro definition, [with_interceptor], accessor, helper block,
    before-request or after-response call) and the rule's terminator
    occurs nowhere in the rest of the buffer, the script returns
    normally and writes the file; what it writes is exactly the lines
    emitted before the marker, every line from the marker on being
    dropped.  (The lines are those of the text as read, and they are
    written with the line ends of the platform.) *)
Theorem unterminated_construct_truncates :
  forall (os : platform) (w : world) (content : string) (fuel0 i : nat)
         (r : rule) (out : list string) (tr : list iteration),
    let lines := readlines (universal_newlines content) in
    w client_rs = Some content ->
    loop lines fuel0 init = State i out tr ->
    i < len lines ->
    fst (fst (body lines i)) = Some r ->
    unterminated lines r i ->
    snd (refactor os NoFault w) = inl tt
    /\ fst (refactor os NoFault w) client_rs = Some (write_newlines os (join out)).
Proof.
  intros os w content fuel0 i r out tr lines Hw Hreach Hi Hr Hu.
  destruct (refactor_returns os w content Hw) as [H1 H2].
  split; [exact H1|]. rewrite H2. fold lines.
  now rewrite (RefactorFacts.unterminated_run _ fuel0 i r out tr Hreach Hi Hr Hu).
Qed.

Lemma unterminated_construct_truncates_witness :
  snd (refactor Posix NoFault (only_client unterminated_sample)) = inl tt
  /\ fst (refactor Posix NoFault (only_client unterminated_sample)) client_rs
     = Some (write_newlines Posix (join ["fn keep() {}" ++ nl])).
Proof.
  refine (unterminated_construct_truncates
            Posix (only_client unterminated_sample) unterminated_sample
            1 1 BeforeRequest ["fn keep() {}" ++ nl]
            [Iteration None 0 1 ["fn keep() {}" ++ nl]]
            eq_refl eq_refl _ eq_refl _).
  - vm_compute. lia.
  - intros j H1 H2. vm_compute in H2.
    destruct j as [|[|[|[|j]]]]; try lia; reflexivity.
Defined.

(** C2, counterexample.  A file whose [call_before_request] statement
    never reaches ['.await?']: the run raises nothing, and the file is
    overwritten with the one line that came before the marker. *)
Lemma unterminated_run_is_written :
  snd (refactor Posix NoFault (only_client unterminated_sample)) = inl tt
  /\ fst (refactor Posix NoFault (only_client unterminated_sample)) client_rs
     = Some ("fn keep() {}" ++ nl)
  /\ contains ".await?" unterminated_sample = false.
Proof. repeat split; vm_compute; reflexivity. Qed.

(** One script: read, transform, write back. *)
Lemma script_cases (S : platform -> fault -> io unit) (T : string -> string) :
  In (S, T) Stable.scripts ->
  forall os flt w,
    S os flt w = bind (read_file flt client_rs)
                      (fun content => write_file os flt client_rs (T content)) w.
Proof.
  intros Hin os flt w. simpl in Hin.
  destruct Hin as [H|[H|[H|[]]]]; inversion H; subst; reflexivity.
Qed.

(** C6, as amended. The scripts write the target in place: they open
    [src/client.rs] itself in mode ['w'], which empties it, and write
    into it; no other path is ever created or changed, so there is no
    temporary file and no rename.  A run that fails before the file is
    opened for writing (file missing, read error, error on opening)
    leaves every file as it was; a run that fails during the write
    leaves in [src/client.rs] only the part of the new content that got
    through, the original content being lost.  (The new content is the
    script's transformation of the text as read, written with the line
    ends of the platform.) *)
Theorem output_written_in_place :
  forall (S : platform -> fault -> io unit) (T : string -> string)
         (os : platform) (flt : fault) (w : world),
    In (S, T) Stable.scripts ->
    (forall p, p <> client_rs -> fst (S os flt w) p = w p)
    /\ (forall e, snd (S os flt w) = inr e ->
                  (forall n, flt <> WriteFault n) ->
                  forall p, fst (S os flt w) p = w p)
    /\ (forall content n,
          w client_rs = Some content -> flt = WriteFault n ->
          snd (S os flt w) = inr OSError
          /\ fst (S os flt w) client_rs
             = Some (substring 0 n
                       (write_newlines os (T (universal_newlines content)))))
    /\ (forall content,
          w client_rs = Some content -> flt = NoFault ->
          snd (S os flt w) = inl tt
          /\ fst (S os flt w) client_rs
             = Some (write_newlines os (T (universal_newlines content)))).
Proof.
  intros S T os flt w Hin. rewrite (script_cases S T Hin os flt w).
  unfold bind, read_file, write_file.
  split; [|split; [|split]].
  - intros p Hp. destruct (w client_rs) as [c|]; [|reflexivity].
    destruct flt; cbn [fst]; try reflexivity;
      now rewrite !set_file_other by exact Hp.
  - intros e He Hflt p. destruct (w client_rs) as [c|]; [|reflexivity].
    destruct flt; cbn [fst snd] in *; try reflexivity; try discriminate.
    exfalso. now apply (Hflt written).
  - intros content n Hw ->. rewrite Hw. cbn [fst snd].
    split; [reflexivity | apply set_file_same].
  - intros content Hw ->. rewrite Hw. cbn [fst snd].
    split; [reflexivity | apply set_file_same].
Qed.

Lemma output_written_in_place_witness :
  snd (fix_client Posix (WriteFault 3) (only_client ("fn main() {}" ++ nl)))
  = inr OSError
  /\ fst (fix_client Posix (WriteFault 3) (only_client ("fn main() {}" ++ nl)))
         client_rs
     = Some (substring 0 3
               (write_newlines Posix
                  (FixClient.fix_content
                     (universal_newlines ("fn main() {}" ++ nl))))).
Proof.
  exact (proj1 (proj2 (proj2
           (output_written_in_place fix_client FixClient.fix_content
              Posix (WriteFault 3) (only_client ("fn main() {}" ++ nl))
              (or_intror (or_introl eq_refl)))))
           ("fn main() {}" ++ nl) 3 eq_refl eq_refl).
Defined.

(** C6, counterexample.  A file in which no rule matches, and a write
    that fails before any character got through: each script raises and
    leaves [src/client.rs] empty, not as it was. *)
Lemma failed_write_loses_original :
  snd (refactor Posix (WriteFault 0) (only_client ("fn main() {}" ++ nl))) = inr OSError
  /\ fst (refactor Posix (WriteFault 0) (only_client ("fn main() {}" ++ nl))) client_rs
     = Some EmptyString
  /\ snd (fix_client Posix (WriteFault 0) (only_client ("fn main() {}" ++ nl))) = inr OSError
  /\ fst (fix_client Posix (WriteFault 0) (only_client ("fn main() {}" ++ nl))) client_rs
     = Some EmptyString
  /\ snd (remove_interceptors Posix (WriteFault 0) (only_client ("fn main() {}" ++ nl)))
     = inr OSError
  /\ fst (remove_interceptors Posix (WriteFault 0) (only_client ("fn main() {}" ++ nl)))
         client_rs
     = Some EmptyString
  /\ only_client ("fn main() {}" ++ nl) client_rs = Some ("fn main() {}" ++ nl).
Proof. repeat split; vm_compute; reflexivity. Qed.

End IOFacts.

Module ReFacts.
Import PyStr Re Cover.

Lemma drop_empty n : drop n EmptyString = EmptyString.
Proof. destruct n; reflexivity. Qed.

Lemma take_drop n s : substring 0 n s ++ drop n s = s.
Proof.
  revert n; induction s as [|c s IH]; intro n; destruct n; simpl; try reflexivity.
  now rewrite IH.
Qed.

Lemma length_take n s :
  n <= String.length s -> String.length (substring 0 n s) = n.
Proof.
  revert n; induction s as [|c s IH]; intro n; destruct n; simpl; try lia.
  intro H. rewrite IH; lia.
Qed.

Lemma length_drop n s :
  n <= String.length s -> String.length (drop n s) + n = String.length s.
Proof.
  revert n; induction s as [|c s IH]; intro n; destruct n; simpl; try lia.
  intro H. specialize (IH n). lia.
Qed.

Lemma startswith_length p s :
  startswith p s = true -> String.length p <= String.length s.
Proof.
  revert s; induction p as [|a p IH]; intros s H; simpl; [lia|].
  destruct s as [|b s]; simpl in H; [discriminate|].
  apply andb_prop in H. destruct H as [_ H]. apply IH in H. simpl. lia.
Qed.

Lemma startswith_split p s :
  startswith p s = true -> s = p ++ drop (String.length p) s.
Proof.
  revert s; induction p as [|a p IH]; intros s H; simpl; [reflexivity|].
  destruct s as [|b s]; simpl in H; [discriminate|].
  apply andb_prop in H. destruct H as [Hab H].
  apply Ascii.eqb_eq in Hab. subst b. simpl. f_equal. now apply IH.
Qed.

(** A run of literal characters matches exactly when the subject
    starts with it. *)
Lemma exec_lit A p prev s g (kont : cont A) :
  exec A (lit p) prev s g kont
  = if startswith p s
    then kont (last_or prev p) (drop (String.length p) s) g
    else None.
Proof.
  revert prev s; induction p as [|a p IH]; intros prev s; simpl; [reflexivity|].
  destruct s as [|b s]; [reflexivity|]. unfold cls_match.
  destruct (Ascii.eqb_spec b a) as [->|Hne].
  - rewrite Ascii.eqb_refl. simpl. apply IH.
  - destruct (Ascii.eqb_spec a b) as [->|_]; [contradiction | reflexivity].
Qed.

(** Whatever [exec] returns was returned by its continuation. *)
Section FromCont.
Variable A : Type.
Variable P : A -> Prop.

Lemma rep_greedy_from_cont k min prev s g kont x :
  (forall p' s' g' y, kont p' s' g' = Some y -> P y) ->
  rep_greedy A k min prev s g kont = Some x -> P x.
Proof.
  intro HB. revert min prev.
  induction s as [|c s IH]; intros min prev; simpl.
  - destruct (min =? 0); [apply HB | discriminate].
  - destruct (cls_match k c).
    + destruct (rep_greedy A k (pred min) (Some c) s g kont) eqn:E.
      * intro H; inversion H; subst. eapply IH; eauto.
      * destruct (min =? 0); [apply HB | discriminate].
    + destruct (min =? 0); [apply HB | discriminate].
Qed.

Lemma rep_lazy_from_cont k min prev s g kont x :
  (forall p' s' g' y, kont p' s' g' = Some y -> P y) ->
  rep_lazy A k min prev s g kont = Some x -> P x.
Proof.
  intro HB. revert min prev.
  induction s as [|c s IH]; intros min prev; simpl.
  - destruct (min =? 0); [|discriminate].
    destruct (kont prev EmptyString g) eqn:E; [|discriminate].
    intro H; inversion H; subst. eapply HB; eauto.
  - destruct (if min =? 0 then kont prev (String c s) g else None) eqn:E.
    + intro H; inversion H; subst.
      destruct (min =? 0); [eapply HB; eauto | discriminate].
    + destruct (cls_match k c); [apply IH | discriminate].
Qed.

Lemma exec_from_cont r prev s g kont x :
  (forall p' s' g' y, kont p' s' g' = Some y -> P y) ->
  exec A r prev s g kont = Some x -> P x.
Proof.
  revert prev s g kont x.
  induction r as [|k|r1 IH1 r2 IH2|r1 IH1 r2 IH2|k min greedy| | |r1 IH1];
    intros prev s g kont x Hk; simpl.
  - apply Hk.
  - destruct s as [|c s]; [discriminate|].
    destruct (cls_match k c); [apply Hk | discriminate].
  - apply IH1. intros p' s' g' y. apply IH2. exact Hk.
  - destruct (exec A r1 prev s g kont) eqn:E.
    + intro H; inversion H; subst. eapply IH1; eauto.
    + apply IH2. exact Hk.
  - destruct greedy;
      [now apply rep_greedy_from_cont | now apply rep_lazy_from_cont].
  - destruct (xorb _ _); [apply Hk | discriminate].
  - destruct prev as [c|]; [|apply Hk].
    destruct (Ascii.eqb c "010"); [apply Hk | discriminate].
  - apply IH1. intros p' s' g' y. apply Hk.
Qed.
End FromCont.

(** A match is never longer than the text that is left. *)
Lemma match_at_le r ma prev s n g :
  match_at r ma prev s = Some (n, g) -> n <= String.length s.
Proof.
  unfold match_at. intro H.
  apply (exec_from_cont _ (fun y => fst y <= String.length s)) in H; [exact H|].
  intros p' s' g' y. destruct (ma && _); [discriminate|].
  intro E; inversion E; subst. simpl. lia.
Qed.

(** Case analysis on one step of the scan at a position outside a
    match. *)
Ltac scan_cases r prev s :=
  let E := fresh "E" in
  let E' := fresh "E'" in
  destruct (match_at r false prev s) as [[[|?n] ?g]|] eqn:E;
  [ destruct (match_at r true prev s) as [[[|?n] ?g]|] eqn:E' | | ].

(** Character conservation: the pieces of a scan, put back together,
    are the subject. *)
Lemma scan_original r s : forall prev skip,
  join (map original (scan r prev s skip)) = drop skip s.
Proof.
  induction s as [|c s IH]; intros prev skip.
  - destruct skip; [|reflexivity]. cbn [scan].
    scan_cases r prev EmptyString; reflexivity.
  - destruct skip as [|skip]; [|cbn [scan drop]; apply IH].
    cbn [scan drop]. scan_cases r prev (String c s);
      cbn [map join original append substring]; rewrite ?IH;
      cbn [drop]; rewrite ?take_drop; reflexivity.
Qed.

Lemma join_length (xs : list string) :
  String.length (join xs) = Trace.sum (map String.length xs).
Proof.
  induction xs as [|x xs IH]; simpl; [reflexivity|].
  now rewrite StrFacts.length_app, IH.
Qed.

(** Length of the result against the lengths of what was cut out and
    what was put in. *)
Lemma pieces_length repl (ps : list piece) :
  String.length (join (map (render repl) ps)) + cut_length ps
  = String.length (join (map original ps)) + inserted_length repl ps.
Proof.
  induction ps as [|[c|m g] ps IH]; simpl.
  - reflexivity.
  - lia.
  - rewrite !StrFacts.length_app. lia.
Qed.

Lemma no_cut_identity repl (ps : list piece) :
  existsb is_cut ps = false ->
  join (map (render repl) ps) = join (map original ps).
Proof.
  induction ps as [|[c|m g] ps IH]; simpl; intro H.
  - reflexivity.
  - now rewrite IH.
  - discriminate.
Qed.

(** A pattern that matches nowhere leaves the subject as it is. *)
Lemma sub_no_match r repl s :
  has_match r s = false -> sub r repl s = s.
Proof.
  unfold has_match, sub. intro H.
  rewrite (no_cut_identity repl _ H). now rewrite scan_original.
Qed.

Lemma keep_unmasked_true k mask s :
  k <= String.length s ->
  keep_unmasked (repeat true k ++ mask) s = keep_unmasked mask (drop k s).
Proof.
  revert s; induction k as [|k IH]; intros s H; [reflexivity|].
  destruct s as [|c s]; simpl in H; [lia|].
  cbn [repeat app keep_unmasked drop]. apply IH. lia.
Qed.

Lemma keep_unmasked_empty mask : keep_unmasked mask EmptyString = EmptyString.
Proof. destruct mask; reflexivity. Qed.

(** With an empty replacement the result is the subject without the
    characters of the matches. *)
Lemma scan_unmasked r s : forall prev skip,
  join (map (render []) (scan r prev s skip))
  = keep_unmasked (deleted (scan r prev s skip)) (drop skip s).
Proof.
  induction s as [|c s IH]; intros prev skip.
  - rewrite drop_empty, keep_unmasked_empty.
    destruct skip; [|reflexivity]. cbn [scan].
    scan_cases r prev EmptyString; reflexivity.
  - destruct skip as [|skip]; [|cbn [scan drop]; apply IH].
    cbn [scan drop]. scan_cases r prev (String c s);
      cbn [map join render expand deleted String.length repeat app
           keep_unmasked append];
      repeat match goal with
             | H : match_at _ _ _ _ = Some (S ?n, _) |- _ =>
                 apply match_at_le in H; cbn [String.length] in H
             end;
      rewrite ?length_take by (cbn [String.length]; lia);
      cbn [repeat app keep_unmasked];
      rewrite ?keep_unmasked_true by lia;
      rewrite ?IH; cbn [drop]; reflexivity.
Qed.

Lemma nth_repeat_true k (mask : list bool) j :
  j < k -> nth j (repeat true k ++ mask) false = true.
Proof.
  intro H. rewrite app_nth1 by (rewrite repeat_length; exact H).
  apply nth_repeat_lt. exact H.
Qed.

Lemma nth_repeat_skip k (mask : list bool) j :
  k <= j -> nth j (repeat true k ++ mask) false = nth (j - k) mask false.
Proof.
  intro H. rewrite app_nth2 by (rewrite repeat_length; exact H).
  now rewrite repeat_length.
Qed.

Lemma at_offset_drop occ : forall s before p,
  at_offset occ before s p = true -> exists before', occ before' (drop p s) = true.
Proof.
  induction s as [|c s IH]; intros before p H; destruct p; simpl in *;
    try discriminate; eauto.
Qed.

(** Occurrences against matches, for any pattern whose matches are
    never empty, cover an occurrence that starts where they start, and
    never end inside an occurrence. *)
Section Covered.
Variable r : re.
Variable occ : string -> string -> bool.
Variable L : string -> nat.

Hypothesis nonempty : forall prev s g, match_at r false prev s <> Some (0, g).
Hypothesis found : forall before s,
    occ before s = true ->
    exists n g, match_at r false (first before) s = Some (n, g) /\ L s <= n.
Hypothesis whole : forall before s n g p,
    match_at r false (first before) s = Some (n, g) -> 0 < p -> p < n ->
    at_offset occ before s p = true -> p + L (drop p s) <= n.

Lemma occurrences_covered : forall s before skip p,
  at_offset occ before s p = true -> skip <= p ->
  covered (deleted (scan r (first before) s skip)) (p - skip) (L (drop p s)).
Proof.
  induction s as [|c s IH]; intros before skip p Hocc Hskip.
  - destruct p as [|p]; [|discriminate]. assert (skip = 0) by lia. subst skip.
    cbn [at_offset] in Hocc. destruct (found _ _ Hocc) as (n & g & Hm & Hn).
    pose proof (match_at_le _ _ _ _ _ _ Hm) as Hle. cbn [String.length] in Hle.
    intros j Hj. cbn [drop] in Hj. lia.
  - destruct skip as [|skip].
    + cbn [scan]. rewrite Nat.sub_0_r.
      destruct (match_at r false (first before) (String c s)) as [[[|n] g]|] eqn:E.
      * exfalso. eapply nonempty; eauto.
      * pose proof (match_at_le _ _ _ _ _ _ E) as Hle.
        cbn [deleted]. rewrite length_take by exact Hle.
        destruct p as [|p].
        -- cbn [at_offset] in Hocc.
           destruct (found _ _ Hocc) as (n' & g' & Hm & Hn).
           rewrite E in Hm. inversion Hm; subst n' g'.
           intros j Hj. apply nth_repeat_true. cbn [drop] in Hj. lia.
        -- destruct (Nat.lt_ge_cases (S p) (S n)) as [Hin|Hout].
           ++ pose proof (whole before (String c s) (S n) g (S p) E ltac:(lia) Hin Hocc) as Hw.
              intros j Hj. apply nth_repeat_true. cbn [drop] in Hw, Hj. lia.
           ++ cbn [at_offset] in Hocc.
              pose proof (IH (String c before) n p Hocc ltac:(lia)) as Hc.
              intros j Hj. rewrite nth_repeat_skip by lia.
              replace (S p + j - S n) with (p - n + j) by lia.
              apply Hc. exact Hj.
      * destruct p as [|p].
        -- cbn [at_offset] in Hocc. destruct (found _ _ Hocc) as (n & g & Hm & _).
           congruence.
        -- cbn [at_offset] in Hocc.
           pose proof (IH (String c before) 0 p Hocc ltac:(lia)) as Hc.
           rewrite Nat.sub_0_r in Hc.
           intros j Hj. cbn [deleted]. exact (Hc j Hj).
    + destruct p as [|p]; [lia|]. cbn [at_offset] in Hocc. cbn [scan].
      change (S p - S skip) with (p - skip).
      apply (IH (String c before)); [exact Hocc | lia].
Qed.
End Covered.

End ReFacts.

Module MetadataFacts.
Import PyStr Re Cover ReFacts.

(** Greedy whitespace in front of a continuation that always succeeds
    takes all the whitespace there is. *)
Lemma rep_greedy_space A (f : string -> option string -> A) : forall t prev g,
  rep_greedy A Space 0 prev t g (fun _ s' g' => Some (f s' g'))
  = Some (f (lstrip t) g).
Proof.
  induction t as [|c t IH]; intros prev g; simpl; [reflexivity|].
  destruct (is_space c); [|reflexivity]. now rewrite IH.
Qed.

Lemma length_lstrip t :
  String.length t = String.length (Trace.indent t) + String.length (lstrip t).
Proof.
  rewrite <- (StrFacts.indent_lstrip t) at 1. apply StrFacts.length_app.
Qed.

(** What the pattern of the last substitution matches at a position. *)
Lemma match_metadata before s :
  match_at FixClient.metadata false (first before) s
  = if startswith "&mut metadata" s then Some (13, None)
    else if startswith "&metadata" s then Some (9, None)
    else if token_here before s then Some (8 + tail_len (drop 8 s), None)
    else None.
Proof.
  unfold match_at, FixClient.metadata. cbn [exec andb].
  rewrite exec_lit.
  destruct (startswith "&mut metadata" s) eqn:E1.
  { pose proof (startswith_length _ _ E1) as Hl. cbn [String.length] in Hl.
    pose proof (length_drop 13 s Hl). cbn [String.length].
    do 2 f_equal. lia. }
  rewrite exec_lit.
  destruct (startswith "&metadata" s) eqn:E2.
  { pose proof (startswith_length _ _ E2) as Hl. cbn [String.length] in Hl.
    pose proof (length_drop 9 s Hl). cbn [String.length].
    do 2 f_equal. lia. }
  cbn [cat exec]. unfold token_here.
  destruct (startswith "metadata" s) eqn:E3.
  2:{ rewrite andb_false_r. cbn [andb].
      destruct (xorb _ _); [|reflexivity]. now rewrite exec_lit, E3. }
  assert (Hf : first s = Some "m"%char).
  { destruct s as [|c s']; [discriminate|]. cbn [startswith] in E3.
    apply andb_prop in E3. destruct E3 as [Hc _].
    apply Ascii.eqb_eq in Hc. now subst c. }
  rewrite Hf. change (word_opt (Some "m"%char)) with true.
  rewrite xorb_true_r, andb_true_r.
  destruct (word_opt (first before)); cbn [negb andb]; [reflexivity|].
  rewrite exec_lit, E3. cbn [String.length last_or].
  change (word_opt (Some "a"%char)) with true. cbn [xorb].
  destruct (word_opt (first (drop 8 s))); cbn [negb]; [reflexivity|].
  pose proof (startswith_length _ _ E3) as Hl. cbn [String.length] in Hl.
  pose proof (length_drop 8 s Hl) as Hd.
  unfold Opt. cbn [exec].
  destruct (drop 8 s) as [|c t] eqn:Et.
  - cbn [rep_greedy Nat.eqb tail_len String.length] in *. do 2 f_equal. lia.
  - unfold cls_match at 1. cbn [tail_len].
    destruct (Ascii.eqb c ",") eqn:Ec.
    + rewrite (rep_greedy_space _ (fun s' g' => (String.length s - String.length s', g'))).
      pose proof (length_lstrip t). cbn [String.length] in Hd.
      do 2 f_equal. lia.
    + rewrite (rep_greedy_space _ (fun s' g' => (String.length s - String.length s', g'))).
      pose proof (length_lstrip (String c t)). cbn [String.length] in Hd, H.
      do 2 f_equal. cbn [String.length] in *. lia.
Qed.

Lemma first_of (prev : option ascii) : exists before, first before = prev.
Proof.
  destruct prev as [c|];
    [exists (String c EmptyString) | exists EmptyString]; reflexivity.
Qed.

Lemma metadata_nonempty prev s g :
  match_at FixClient.metadata false prev s <> Some (0, g).
Proof.
  destruct (first_of prev) as [before <-]. rewrite match_metadata.
  destruct (startswith "&mut metadata" s); [discriminate|].
  destruct (startswith "&metadata" s); [discriminate|].
  destruct (token_here before s); discriminate.
Qed.

Lemma at_offset_add occ : forall a s before b,
  a <= String.length s ->
  at_offset occ before s (a + b) = true ->
  exists before', at_offset occ before' (drop a s) b = true.
Proof.
  induction a as [|a IH]; intros s before b Hl H; [eauto|].
  destruct s as [|c s]; [simpl in Hl; lia|].
  cbn [Nat.add at_offset drop] in *. eapply IH; eauto. simpl in Hl. lia.
Qed.

(** Inside the whitespace a match took, nothing starts with a
    character that is not whitespace. *)
Lemma indent_head a F : forall t q,
  is_space a = false ->
  q < String.length (Trace.indent t) ->
  startswith (String a F) (drop q t) = false.
Proof.
  induction t as [|c t IH]; intros q Ha Hq; [simpl in Hq; lia|].
  cbn [Trace.indent] in Hq. destruct (is_space c) eqn:Ec; [|simpl in Hq; lia].
  destruct q as [|q]; cbn [drop].
  - cbn [startswith]. destruct (Ascii.eqb_spec a c) as [->|_]; [congruence|reflexivity].
  - apply IH; [exact Ha|]. simpl in Hq. lia.
Qed.

Lemma tail_head a F t q :
  is_space a = false -> a <> ","%char ->
  q < tail_len t ->
  startswith (String a F) (drop q t) = false.
Proof.
  intros Ha Hc Hq. destruct t as [|c t]; [simpl in Hq; lia|].
  cbn [tail_len] in Hq. destruct (Ascii.eqb_spec c ",") as [->|Hne].
  - destruct q as [|q]; cbn [drop].
    + cbn [startswith]. destruct (Ascii.eqb_spec a ","); [contradiction|reflexivity].
    + apply indent_head; [exact Ha | lia].
  - now apply indent_head.
Qed.

Lemma occ_tail occ a F before t q :
  (forall b s, occ b s = true -> startswith (String a F) s = true) ->
  is_space a = false -> a <> ","%char ->
  q < tail_len t ->
  at_offset occ before t q = false.
Proof.
  intros Hocc Ha Hc Hq.
  destruct (at_offset occ before t q) eqn:E; [|reflexivity].
  apply at_offset_drop in E. destruct E as [b E]. apply Hocc in E.
  now rewrite (tail_head a F t q Ha Hc Hq) in E.
Qed.

Ltac split_andb :=
  repeat match goal with
         | H : (_ && _)%bool = true |- _ => apply andb_prop in H; destruct H
         end.

(** Decide an occurrence test on a text whose first characters are
    known. *)
Ltac settle H :=
  cbn [at_offset append] in H;
  unfold bare_token_here, token_here, form_here in H;
  split_andb; simpl in *; try congruence; try lia.

Section Whole.
Variable occ : string -> string -> bool.
Variable L : string -> nat.
Variable a : ascii.
Variable F : string.

(** What the three kinds of occurrence have in common. *)
Hypothesis starts : forall b s, occ b s = true -> startswith (String a F) s = true.
Hypothesis not_space : is_space a = false.
Hypothesis not_comma : a <> ","%char.
Hypothesis in_mut : forall before t p,
    0 < p -> p < 13 ->
    at_offset occ before ("&mut metadata" ++ t) p = true ->
    p + L (drop p ("&mut metadata" ++ t)) <= 13.
Hypothesis in_ref : forall before t p,
    0 < p -> p < 9 ->
    at_offset occ before ("&metadata" ++ t) p = true ->
    p + L (drop p ("&metadata" ++ t)) <= 9.
Hypothesis in_word : forall before t p,
    0 < p -> p < 8 ->
    at_offset occ before ("metadata" ++ t) p = false.

Lemma metadata_whole before s n g p :
  match_at FixClient.metadata false (first before) s = Some (n, g) ->
  0 < p -> p < n ->
  at_offset occ before s p = true -> p + L (drop p s) <= n.
Proof.
  intros Hm Hp Hn Hocc. rewrite match_metadata in Hm.
  destruct (startswith "&mut metadata" s) eqn:E1.
  { inversion Hm; subst n g. rewrite (startswith_split _ _ E1) in Hocc |- *.
    now apply (in_mut before). }
  destruct (startswith "&metadata" s) eqn:E2.
  { inversion Hm; subst n g. rewrite (startswith_split _ _ E2) in Hocc |- *.
    now apply (in_ref before). }
  destruct (token_here before s) eqn:E3; [|discriminate].
  assert (En : n = 8 + tail_len (drop 8 s)) by congruence.
  subst n. clear Hm. exfalso.
  assert (E4 : startswith "metadata" s = true).
  { unfold token_here in E3. split_andb. assumption. }
  pose proof (startswith_length _ _ E4) as Hl. cbn [String.length] in Hl.
  destruct (Nat.lt_ge_cases p 8) as [Hlt|Hge].
  - rewrite (startswith_split _ _ E4) in Hocc.
    rewrite in_word in Hocc by assumption. discriminate.
  - replace p with (8 + (p - 8)) in Hocc by lia.
    apply at_offset_add in Hocc; [|exact Hl]. destruct Hocc as [b Hocc].
    rewrite (occ_tail occ a F b (drop 8 s) (p - 8)) in Hocc;
      [discriminate | exact starts | exact not_space | exact not_comma | lia].
Qed.
End Whole.

Ltac upto13 p H :=
  do 13 (destruct p as [|p]; [settle H|]); try lia.

Lemma token_starts b s : token_here b s = true -> startswith "metadata" s = true.
Proof. unfold token_here. intro H. split_andb. assumption. Qed.

Lemma bare_starts b s : bare_token_here b s = true -> startswith "metadata" s = true.
Proof. unfold bare_token_here. intro H. split_andb. now apply (token_starts b). Qed.

Lemma token_whole before s n g p :
  match_at FixClient.metadata false (first before) s = Some (n, g) ->
  0 < p -> p < n ->
  at_offset token_here before s p = true -> p + 8 <= n.
Proof.
  apply (metadata_whole token_here (fun _ => 8) "m" "etadata");
    try reflexivity; try discriminate.
  - exact token_starts.
  - clear. intros before t p Hp Hlt H. upto13 p H.
  - clear. intros before t p Hp Hlt H. upto13 p H.
  - clear. intros before t p Hp Hlt.
    destruct (at_offset token_here before ("metadata" ++ t) p) eqn:H; [|reflexivity].
    exfalso. upto13 p H.
Qed.

Lemma bare_whole before s n g p :
  match_at FixClient.metadata false (first before) s = Some (n, g) ->
  0 < p -> p < n ->
  at_offset bare_token_here before s p = true ->
  p + (8 + tail_len (drop 8 (drop p s))) <= n.
Proof.
  apply (metadata_whole bare_token_here (fun s => 8 + tail_len (drop 8 s))
                        "m" "etadata");
    try reflexivity; try discriminate.
  - exact bare_starts.
  - clear. intros before t p Hp Hlt H. exfalso. upto13 p H.
  - clear. intros before t p Hp Hlt H. exfalso. upto13 p H.
  - clear. intros before t p Hp Hlt.
    destruct (at_offset bare_token_here before ("metadata" ++ t) p) eqn:H;
      [|reflexivity].
    exfalso. upto13 p H.
Qed.

Lemma form_whole (form : string) before s n g p :
  form = "&metadata" \/ form = "&mut metadata" ->
  match_at FixClient.metadata false (first before) s = Some (n, g) ->
  0 < p -> p < n ->
  at_offset (form_here form) before s p = true -> p + String.length form <= n.
Proof.
  intro Hform.
  apply (metadata_whole (form_here form) (fun _ => String.length form)
                        "&" (drop 1 form));
    try reflexivity; try discriminate.
  - intros b t H. unfold form_here in H. destruct Hform; subst form; exact H.
  - clear - Hform. intros before t p Hp Hlt H. exfalso.
    destruct Hform; subst form; upto13 p H.
  - clear - Hform. intros before t p Hp Hlt H. exfalso.
    destruct Hform; subst form; upto13 p H.
  - clear - Hform. intros before t p Hp Hlt.
    destruct (at_offset (form_here form) before ("metadata" ++ t) p) eqn:H;
      [|reflexivity].
    exfalso. destruct Hform; subst form; upto13 p H.
Qed.

Lemma token_found before s :
  token_here before s = true ->
  match_at FixClient.metadata false (first before) s
  = Some (8 + tail_len (drop 8 s), None).
Proof.
  intro H. rewrite match_metadata, H.
  apply token_starts in H. rewrite (startswith_split _ _ H). reflexivity.
Qed.

Lemma form_found (form : string) before s :
  form = "&metadata" \/ form = "&mut metadata" ->
  form_here form before s = true ->
  match_at FixClient.metadata false (first before) s
  = Some (String.length form, None).
Proof.
  unfold form_here. intros [->| ->] H; rewrite match_metadata.
  - rewrite (startswith_split _ _ H). reflexivity.
  - now rewrite H.
Qed.

Lemma drop_add a : forall s b, drop (a + b) s = drop b (drop a s).
Proof.
  induction a as [|a IH]; intros s b; [reflexivity|].
  destruct s as [|c s]; cbn [Nat.add drop]; [now rewrite drop_empty | apply IH].
Qed.

Lemma fix_content_last file :
  FixClient.fix_content file
  = Re.sub FixClient.metadata [] (apply_all (firstn 3 FixClient.substitutions) file).
Proof. reflexivity. Qed.




End MetadataFacts.

Module EngineFacts.
Import PyStr Refactor Trace Re Cover Stable.

Lemma apply_all_no_match ps content :
  matches_none ps content = true -> apply_all ps content = content.
Proof.
  unfold apply_all. induction ps as [|p ps IH]; simpl; [reflexivity|].
  intro H. apply andb_prop in H. destruct H as [Hp Hps].
  apply negb_true_iff in Hp. unfold apply_sub at 2.
  rewrite (ReFacts.sub_no_match _ _ _ Hp). now apply IH.
Qed.

Lemma body_no_rule lines i :
  fst (fst (body lines i)) = None ->
  body lines i = (None, i + 1, [line_at lines i]).
Proof.
  unfold body, body_with.
  repeat match goal with
         | |- fst (fst (if ?c then _ else _)) = _ -> _ => destruct c
         end; cbn [fst snd]; intro H; try discriminate. reflexivity.
Qed.

Lemma skipn_cons_nth (l : list string) : forall i,
  i < List.length l ->
  ([nth i l EmptyString] ++ skipn (i + 1) l)%list = skipn i l.
Proof.
  induction l as [|x l IH]; intros i Hi; simpl in Hi; [lia|].
  destruct i as [|i]; [reflexivity|].
  cbn [nth Nat.add skipn]. apply IH. lia.
Qed.

Lemma loop_no_rule lines :
  (forall i, i < len lines -> fst (fst (body lines i)) = None) ->
  forall fuel i out tr,
    i + fuel = len lines ->
    output (loop lines fuel (State i out tr)) = (out ++ skipn i lines)%list.
Proof.
  intros Hnone fuel. induction fuel as [|fuel IH]; intros i out tr Hi; simpl.
  - rewrite skipn_all2 by (unfold len in Hi; lia). now rewrite app_nil_r.
  - assert (Hlt : i < len lines) by lia.
    pose proof Hlt as Hlt'. apply Nat.ltb_lt in Hlt'. rewrite Hlt'.
    unfold step. cbn [idx output trace].
    rewrite (body_no_rule lines i (Hnone i Hlt)).
    rewrite IH by lia. rewrite <- app_assoc. f_equal.
    apply skipn_cons_nth. exact Hlt.
Qed.

Lemma refactor_no_rule lines :
  no_rule_fires lines = true -> refactor_lines lines = lines.
Proof.
  intro H. unfold refactor_lines, run, init.
  rewrite (loop_no_rule lines); [reflexivity| |reflexivity].
  intros i Hi. unfold no_rule_fires in H. rewrite forallb_forall in H.
  specialize (H i). rewrite in_seq in H. unfold len in Hi.
  specialize (H ltac:(lia)).
  destruct (fst (fst (body lines i))); [discriminate | reflexivity].
Qed.

Section Lookback.
Variables lines lines' : list string.
Hypothesis same_len : len lines = len lines'.

Lemma skip_until_ext stop stop' fuel : forall i,
  (forall j, i <= j -> stop j = stop' j) ->
  skip_until lines stop fuel i = skip_until lines' stop' fuel i.
Proof.
  induction fuel as [|fuel IH]; intros i H; simpl; [reflexivity|].
  rewrite <- same_len, (H i) by lia.
  destruct ((i <? len lines) && negb (stop' i)); [|reflexivity].
  apply IH. intros j Hj. apply H. lia.
Qed.

Lemma skip_through_ext hit hit' fuel : forall i,
  (forall j, i <= j -> hit j = hit' j) ->
  skip_through lines hit fuel i = skip_through lines' hit' fuel i.
Proof.
  induction fuel as [|fuel IH]; intros i H; simpl; [reflexivity|].
  rewrite <- same_len, (H i) by lia.
  destruct (i <? len lines); [|reflexivity].
  destruct (hit' i); [reflexivity|].
  apply IH. intros j Hj. apply H. lia.
Qed.

Lemma skip_braces_ext fuel : forall i bc,
  (forall j, i <= j -> line_at lines j = line_at lines' j) ->
  skip_braces lines fuel i bc = skip_braces lines' fuel i bc.
Proof.
  induction fuel as [|fuel IH]; intros i bc H; simpl; [reflexivity|].
  rewrite <- same_len. destruct (i <? len lines); [|reflexivity].
  replace (i + 1 - 1) with i by lia. rewrite (H i) by lia.
  match goal with |- context [if ?c then _ else _] => destruct c end;
    [reflexivity|].
  apply IH. intros j Hj. apply H. lia.
Qed.

Lemma collect_stmt_ext fuel : forall i stmt,
  (forall j, i <= j -> line_at lines j = line_at lines' j) ->
  collect_stmt lines fuel i stmt = collect_stmt lines' fuel i stmt.
Proof.
  induction fuel as [|fuel IH]; intros i stmt H; simpl; [reflexivity|].
  rewrite <- same_len.
  destruct ((i <? len lines) && negb (endswith ";" (rstrip stmt))); [|reflexivity].
  rewrite (H (i + 1)) by lia.
  apply IH. intros j Hj. apply H. lia.
Qed.

(** The rule table at line [i] reads the lines from [i - 1] on and
    nothing before them. *)
Lemma body_ext i :
  (forall j, i - 1 <= j -> line_at lines j = line_at lines' j) ->
  body lines i = body lines' i.
Proof.
  intro H.
  assert (Hi : line_at lines i = line_at lines' i) by (apply H; lia).
  assert (Hp : line_at lines (i - 1) = line_at lines' (i - 1)) by (apply H; lia).
  assert (Hfrom : forall j, i <= j -> line_at lines j = line_at lines' j)
    by (intros j Hj; apply H; lia).
  unfold body, body_with. rewrite Hi, Hp, <- same_len.
  rewrite (skip_until_ext (macro_end lines) (macro_end lines'))
    by (intros j Hj; unfold macro_end; rewrite <- same_len;
        rewrite !Hfrom by lia; reflexivity).
  rewrite (skip_until_ext (method_end lines) (method_end lines'))
    by (intros j Hj; unfold method_end; rewrite <- same_len;
        rewrite !Hfrom by lia; reflexivity).
  rewrite (skip_until_ext (closing_brace lines) (closing_brace lines'))
    by (intros j Hj; unfold closing_brace; rewrite !Hfrom by lia; reflexivity).
  rewrite (skip_braces_ext (len lines - i) (i + 1) 0%Z)
    by (intros j Hj; apply Hfrom; lia).
  rewrite (skip_through_ext (fun j => contains ".await?" (line_at lines j))
                            (fun j => contains ".await?" (line_at lines' j)))
    by (intros j Hj; rewrite Hfrom by lia; reflexivity).
  rewrite (skip_through_ext (fun j => contains ".await;" (line_at lines j))
                            (fun j => contains ".await;" (line_at lines' j)))
    by (intros j Hj; rewrite Hfrom by lia; reflexivity).
  rewrite (collect_stmt_ext (len lines - i) i (line_at lines' i)) by exact Hfrom.
  rewrite (Hfrom (skip_until lines' (closing_brace lines') (len lines - i) i + 1))
    by (pose proof (RefactorFacts.skip_until_ge lines' (closing_brace lines')
                      (len lines - i) i); lia).
  reflexivity.
Qed.
End Lookback.

Lemma starts_sorted lines a tr b :
  tiled lines a tr b -> StronglySorted lt (map start tr).
Proof.
  intro Ht. pose proof (RefactorFacts.tiled_sorted lines a tr b Ht) as Hs.
  pose proof (RefactorFacts.tiled_bounds lines a tr b Ht) as [_ Hb].
  clear Ht. induction Hs as [|x l Hs IH Hall]; simpl; constructor.
  - apply IH. now inversion Hb.
  - inversion Hb as [|? ? Hx Hl]; subst.
    apply Forall_map. eapply Forall_impl; [|exact Hall].
    cbv beta. intros y Hy. lia.
Qed.

(** C3, as amended. [refactor] is a single forward pass: the indices
    at which the rule table is consulted are strictly increasing (so no
    line is the current line twice) and lie in the buffer; the output
    list is only appended to and never read, the scan from an index
    being the same whatever was emitted before; and the rule table at
    line [i] depends on the lines from [i - 1] on only, the one line
    of look-behind being that of the lint rule.  [fix_client] is not a
    single pass: it is four substitutions over the whole content, each
    applied to the result of the one before. *)
Theorem refactor_single_forward_pass : forall lines : list string,
  StronglySorted lt (map start (trace (run lines)))
  /\ Forall (fun it => start it < len lines) (trace (run lines))
  /\ (forall fuel i out tr,
        idx (loop lines fuel (State i out tr))
        = idx (loop lines fuel (State i [] []))
        /\ output (loop lines fuel (State i out tr))
           = (out ++ output (loop lines fuel (State i [] [])))%list)
  /\ (forall lines' i,
        len lines = len lines' ->
        (forall j, i - 1 <= j -> line_at lines j = line_at lines' j) ->
        body lines i = body lines' i)
  /\ (forall content,
        FixClient.fix_content content
        = sub FixClient.metadata []
            (sub FixClient.after_response []
               (sub FixClient.handle_api_error [TGroup1; TLit "map_api_error(e)"]
                  (sub FixClient.before_request [] content)))).
Proof.
  intro lines. destruct (RefactorFacts.run_inv lines) as [Ht _].
  split; [eapply starts_sorted; exact Ht|]. split; [|split; [|split]].
  - apply RefactorFacts.tiled_bounds in Ht. destruct Ht as [_ Hall].
    eapply Forall_impl; [|exact Hall]. cbv beta. intros x Hx. lia.
  - intros. apply RefactorFacts.loop_output_blind.
  - intros lines' i Hlen H. now apply body_ext.
  - reflexivity.
Qed.

(** C3, counterexample.  In [fix_client] the last pattern matches
    nothing in the input, yet it matches in what the first substitution
    produced: output already emitted by one rule is matched again by
    another.  In [refactor] the line that iteration 0 copied to the
    output is read again by iteration 1, which drops the next line
    because of it. *)
Lemma later_pass_rematches_output :
  has_match FixClient.metadata split_word_sample = false
  /\ has_match FixClient.metadata
               (sub FixClient.before_request [] split_word_sample) = true
  /\ FixClient.fix_content split_word_sample = "let = 1;" ++ nl
  /\ body [ "// Allow this lint" ++ nl; "x" ++ nl ] 0
     = (None, 1, [ "// Allow this lint" ++ nl ])
  /\ fst (fst (body [ "// Allow this lint" ++ nl; "x" ++ nl ] 1))
     = Some TooManyArguments
  /\ fst (fst (body [ "// no lint" ++ nl; "x" ++ nl ] 1)) = None.
Proof. repeat split; vm_compute; reflexivity. Qed.

(** C4, as amended. [refactor] conserves lines: the index ranges of
    the iterations of a run, one after the other, are exactly the
    indices of the input, so every input line is in the range of one
    iteration and of one only; an iteration in which no rule fired
    took exactly one line and emitted that line unchanged; the output
    is what the iterations emitted, in order; and the number of output
    lines is the number of input lines minus the lines the applied spans
    took plus the lines they put in.  The substitutions of [fix_client]
    and [remove_interceptors] conserve characters, not lines: the pieces
    of a scan put back together are the subject, a character outside
    every match is kept as it is, and the length of the result is the
    length of the subject minus the matched texts plus the replacements;
    a match may begin and end inside a line. *)
Theorem lines_and_characters_conserved :
  forall (lines : list string) (r : re) (repl : list titem) (s : string),
    let tr := trace (run lines) in
    let ps := scan r None s 0 in
    flat_map (fun it => seq (start it) (consumed (len lines) it)) tr
    = seq 0 (len lines)
    /\ refactor_lines lines = flat_map emitted tr
    /\ Forall (fun it => match fired it with
                         | None => next it = start it + 1
                                   /\ emitted it = [line_at lines (start it)]
                         | Some _ => True
                         end) tr
    /\ List.length (refactor_lines lines)
       + sum (map (consumed (len lines)) (filter is_applied tr))
       = len lines
         + sum (map (fun it => List.length (emitted it)) (filter is_applied tr))
    /\ join (map original ps) = s
    /\ sub r repl s = join (map (render repl) ps)
    /\ String.length (sub r repl s) + cut_length ps
       = String.length s + inserted_length repl ps.
Proof.
  intros lines r repl s tr ps.
  destruct (RefactorFacts.run_inv lines) as [Ht Ho]. fold tr in Ht, Ho.
  pose proof (RefactorFacts.run_finished lines) as Hfin. unfold finished in Hfin.
  assert (Hmin : Nat.min (idx (run lines)) (len lines) - 0 = len lines) by lia.
  split; [|split; [|split; [|split; [|split; [|split]]]]].
  - rewrite (RefactorFacts.tiled_ranges lines _ _ _ Ht). now rewrite Hmin.
  - exact Ho.
  - exact (RefactorFacts.tiled_copied lines _ _ _ Ht).
  - unfold refactor_lines. rewrite Ho.
    rewrite (RefactorFacts.tiled_count lines _ _ _ Ht). now rewrite Hmin.
  - apply (ReFacts.scan_original r s None 0).
  - reflexivity.
  - unfold sub. fold ps. rewrite ReFacts.pieces_length.
    unfold ps. now rewrite (ReFacts.scan_original r s None 0).
Qed.

(** C4, counterexample.  A file of one line that is in no interceptor
    construct: the first three patterns of [fix_client] match nothing,
    the last pattern matches twice inside the line (characters 8 to 16
    and 19 to 26); the line is contained in neither span, it is touched
    by two of them, and it is not copied unchanged. *)
Lemma line_partly_rewritten :
  readlines partly_sample = [ partly_sample ]
  /\ String.length partly_sample = 29
  /\ has_match FixClient.before_request partly_sample = false
  /\ has_match FixClient.handle_api_error partly_sample = false
  /\ has_match FixClient.after_response partly_sample = false
  /\ match_spans FixClient.metadata partly_sample = [(8, 17); (19, 27)]
  /\ readlines (FixClient.fix_content partly_sample) = [ "let a = + ;" ++ nl ].
Proof. repeat split; vm_compute; reflexivity. Qed.

(** C5, as amended. A file in which no rule matches is returned
    unchanged by each script; in particular patching a patched file
    changes nothing whenever no rule matches the patched file.  (A
    patched file may still contain matches: idempotence does not hold in
    general.) *)
Theorem unchanged_when_no_rule_matches : forall content : string,
  (matches_none FixClient.substitutions content = true ->
   FixClient.fix_content content = content)
  /\ (matches_none RemoveInterceptors.substitutions content = true ->
      RemoveInterceptors.remove_content content = content)
  /\ (no_rule_fires (readlines content) = true ->
      refactor_lines (readlines content) = readlines content).
Proof.
  intro content. split; [|split].
  - apply apply_all_no_match.
  - apply apply_all_no_match.
  - apply refactor_no_rule.
Qed.

Lemma unchanged_when_no_rule_matches_witness :
  FixClient.fix_content (FixClient.fix_content ("fn f(metadata: u8) {}" ++ nl))
  = FixClient.fix_content ("fn f(metadata: u8) {}" ++ nl).
Proof.
  exact (proj1 (unchanged_when_no_rule_matches
                  (FixClient.fix_content ("fn f(metadata: u8) {}" ++ nl)))
               eq_refl).
Defined.

(** C5, counterexample.  Each script changes its own output again:
    [refactor] deletes on every run the line that follows the lint
    comment it keeps; [remove_interceptors] removes the second of two
    consecutive declarations only on the second run; [fix_client] leaves
    a token [metadata] that the next run removes. *)
Lemma patch_not_idempotent :
  refactor_lines lint_sample
  = [ "// Allow this lint: builders take many arguments" ++ nl; nl;
      "use std::sync::Arc;" ++ nl ]
  /\ refactor_lines (refactor_lines lint_sample)
     = [ "// Allow this lint: builders take many arguments" ++ nl;
         "use std::sync::Arc;" ++ nl ]
  /\ RemoveInterceptors.remove_content decl_sample
     = "fn a() {" ++ nl ++ "        let mut metadata = HashMap::new();" ++ nl
       ++ "}" ++ nl
  /\ RemoveInterceptors.remove_content (RemoveInterceptors.remove_content decl_sample)
     = "fn a() {" ++ nl ++ "}" ++ nl
  /\ FixClient.fix_content "&metadatametadata" = "metadata"
  /\ FixClient.fix_content (FixClient.fix_content "&metadatametadata") = EmptyString.
Proof. repeat split; vm_compute; reflexivity. Qed.

End EngineFacts.

(** * Further properties of the line loop *)

Module RefactorMore.
Import PyStr Refactor Trace Spans.

Section Firsts.
Variable lines : list string.

Lemma skip_until_first stop : forall n fuel i,
  len lines - i <= fuel ->
  i + n < len lines ->
  (forall j, i <= j -> j < i + n -> stop j = false) ->
  stop (i + n) = true ->
  skip_until lines stop fuel i = i + n.
Proof.
  induction n as [|n IH]; intros fuel i Hf Hlt Hno Hstop;
    (destruct fuel as [|fuel]; [lia|]); simpl.
  - rewrite Nat.add_0_r in Hstop. rewrite Hstop.
    rewrite andb_false_r. lia.
  - assert (E : (i <? len lines) = true) by (apply Nat.ltb_lt; lia).
    rewrite E, (Hno i) by lia. simpl.
    rewrite (IH fuel (i + 1)); [lia|lia|lia| |].
    + intros j Hj Hj'. apply Hno; lia.
    + replace (i + 1 + n) with (i + S n) by lia. exact Hstop.
Qed.

Lemma skip_through_first hit : forall n fuel i,
  len lines - i <= fuel ->
  i + n < len lines ->
  (forall j, i <= j -> j < i + n -> hit j = false) ->
  hit (i + n) = true ->
  skip_through lines hit fuel i = i + n + 1.
Proof.
  induction n as [|n IH]; intros fuel i Hf Hlt Hno Hhit;
    (destruct fuel as [|fuel]; [lia|]); simpl.
  - assert (E : (i <? len lines) = true) by (apply Nat.ltb_lt; lia).
    rewrite Nat.add_0_r in Hhit. rewrite E, Hhit. lia.
  - assert (E : (i <? len lines) = true) by (apply Nat.ltb_lt; lia).
    rewrite E, (Hno i) by lia.
    rewrite (IH fuel (i + 1)); [lia|lia|lia| |].
    + intros j Hj Hj'. apply Hno; lia.
    + replace (i + 1 + n) with (i + S n) by lia. exact Hhit.
Qed.

(** The statement loop, entered at line [i + m] with the [m] lines after
    line [i] already added, leaves at the first line at which the
    statement is complete. *)
Lemma collect_stmt_first i : forall n m fuel,
  len lines - (i + m) <= fuel ->
  i + m + n < len lines ->
  (forall j, m <= j -> j < m + n -> stmt_done lines i j = false) ->
  stmt_done lines i (m + n) = true ->
  collect_stmt lines fuel (i + m) (stmt_upto lines i m) = i + m + n.
Proof.
  induction n as [|n IH]; intros m fuel Hf Hlt Hno Hdone;
    (destruct fuel as [|fuel]; [lia|]); simpl.
  - rewrite Nat.add_0_r in Hdone. unfold stmt_done in Hdone. rewrite Hdone.
    rewrite andb_false_r. lia.
  - assert (E : (i + m <? len lines) = true) by (apply Nat.ltb_lt; lia).
    pose proof (Hno m ltac:(lia) ltac:(lia)) as Hm. unfold stmt_done in Hm.
    rewrite E, Hm. simpl.
    assert (E' : (i + m + 1 <? len lines) = true) by (apply Nat.ltb_lt; lia).
    rewrite E'.
    replace (i + m + 1) with (i + S m) by lia.
    change (stmt_upto lines i m ++ line_at lines (i + S m))
      with (stmt_upto lines i (S m)).
    rewrite (IH (S m) fuel); [lia|lia|lia| |].
    + intros j Hj Hj'. apply Hno; lia.
    + replace (S m + n) with (m + S n) by lia. exact Hdone.
Qed.

Lemma collect_stmt_exhausts i : forall fuel m,
  i + m < len lines ->
  len lines - (i + m) <= fuel ->
  (forall j, m <= j -> i + j < len lines -> stmt_done lines i j = false) ->
  collect_stmt lines fuel (i + m) (stmt_upto lines i m) = len lines.
Proof.
  induction fuel as [|fuel IH]; intros m Hlt Hf Hno; simpl; [lia|].
  assert (E : (i + m <? len lines) = true) by (apply Nat.ltb_lt; lia).
  pose proof (Hno m ltac:(lia) ltac:(lia)) as Hm. unfold stmt_done in Hm.
  rewrite E, Hm. simpl.
  destruct (i + m + 1 <? len lines) eqn:E'.
  - apply Nat.ltb_lt in E'.
    replace (i + m + 1) with (i + S m) by lia.
    change (stmt_upto lines i m ++ line_at lines (i + S m))
      with (stmt_upto lines i (S m)).
    apply IH; [lia|lia|]. intros j Hj Hj'. apply Hno; lia.
  - apply Nat.ltb_ge in E'.
    destruct fuel as [|fuel]; simpl; [lia|].
    assert (E2 : (i + m + 1 <? len lines) = false) by (apply Nat.ltb_ge; lia).
    rewrite E2. simpl. lia.
Qed.

End Firsts.

(** The branch that ran at line [i], read off the result of [body]. *)
Ltac branch H :=
  unfold body, body_with in H |- *;
  repeat match type of H with
         | fst (fst (if ?c then _ else _)) = _ => destruct c eqn:?
         end;
  cbn [fst snd] in H |- *;
  try discriminate H.

(** X1. The before-request and after-response rules delete from their
    start line through the first line, from the start line on, that
    contains the text they scan for (['.await?'], ['.await;']), that line
    included; the start line itself may be that line.  Nothing is
    emitted. *)
Theorem await_rule_span :
  forall (lines : list string) (i n : nat) (r : rule) (marker term : string),
    In (r, marker, term) await_rules ->
    fst (fst (body lines i)) = Some r ->
    i + n < len lines ->
    (forall j, i <= j -> j < i + n -> contains term (line_at lines j) = false) ->
    contains term (line_at lines (i + n)) = true ->
    body lines i = (Some r, i + n + 1, [])
    /\ contains marker (line_at lines i) = true.
Proof.
  intros lines i n r marker term Hin Hr Hlt Hno Hhit.
  destruct Hin as [E|[E|[]]]; inversion E; subst r marker term; clear E;
    branch Hr;
    (rewrite (skip_through_first lines _ n); [split; reflexivity|lia|lia| |]);
    assumption.
Qed.

Lemma await_rule_span_witness :
  body [ "        self.call_after_response(ctx)" ++ nl; "    .await;" ++ nl;
         "ok" ++ nl ] 0
  = (Some AfterResponse, 0 + 1 + 1, []).
Proof.
  refine (proj1 (await_rule_span
            [ "        self.call_after_response(ctx)" ++ nl; "    .await;" ++ nl;
              "ok" ++ nl ] 0 1 AfterResponse
            "        self.call_after_response" ".await;"
            (or_intror (or_introl eq_refl)) eq_refl _ _ eq_refl)).
  - vm_compute. lia.
  - intros j H1 H2. destruct j as [|j]; [reflexivity | lia].
Defined.

(** X2. The macro-definition rule deletes from its start line through
    the first pair of consecutive lines that are both, stripped, exactly
    ['}'], the pair included; both lines of the pair are inside the
    buffer.  Nothing is emitted. *)
Theorem macro_definition_span : forall (lines : list string) (i n : nat),
  fst (fst (body lines i)) = Some MacroDefinition ->
  i + n < len lines ->
  (forall j, i <= j -> j < i + n -> macro_end lines j = false) ->
  macro_end lines (i + n) = true ->
  body lines i = (Some MacroDefinition, i + n + 2, [])
  /\ i + n + 2 <= len lines
  /\ strip (line_at lines (i + n)) = "}"
  /\ strip (line_at lines (i + n + 1)) = "}".
Proof.
  intros lines i n Hr Hlt Hno Hend.
  pose proof Hend as Hend'. unfold macro_end in Hend'.
  apply andb_prop in Hend'. destruct Hend' as [Hend' H3].
  apply andb_prop in Hend'. destruct Hend' as [H1 H2].
  apply String.eqb_eq in H1, H3. apply Nat.ltb_lt in H2.
  split; [|split; [lia|split; assumption]].
  branch Hr. now rewrite (skip_until_first lines _ n) by (assumption || lia).
Qed.

Lemma macro_definition_span_witness :
  body [ "// Helper macro to generate helpers" ++ nl; "macro_rules! m {" ++ nl;
         "    }" ++ nl; "}" ++ nl; "fn f() {}" ++ nl ] 0
  = (Some MacroDefinition, 0 + 2 + 2, []).
Proof.
  refine (proj1 (macro_definition_span
            [ "// Helper macro to generate helpers" ++ nl; "macro_rules! m {" ++ nl;
              "    }" ++ nl; "}" ++ nl; "fn f() {}" ++ nl ] 0 2 eq_refl _ _ eq_refl)).
  - vm_compute. lia.
  - intros j H1 H2. destruct j as [|[|j]]; [reflexivity | reflexivity | lia].
Defined.

(** X3. The [with_interceptor] rule deletes from its start line through
    the first line that is, stripped, exactly ['}'] and is the last line
    or is followed by a line that does not start, stripped, with ['//'];
    a closing brace followed by a comment line does not end the span.
    Nothing is emitted. *)
Theorem with_interceptor_span : forall (lines : list string) (i n : nat),
  fst (fst (body lines i)) = Some WithInterceptor ->
  i + n < len lines ->
  (forall j, i <= j -> j < i + n -> method_end lines j = false) ->
  method_end lines (i + n) = true ->
  body lines i = (Some WithInterceptor, i + n + 1, []).
Proof.
  intros lines i n Hr Hlt Hno Hend.
  branch Hr. now rewrite (skip_until_first lines _ n) by (assumption || lia).
Qed.

Lemma with_interceptor_span_witness :
  body [ "    /// Add an interceptor" ++ nl; "    pub fn w(self) {" ++ nl;
         "    }" ++ nl; "    // moved" ++ nl; "}" ++ nl; "fn f() {}" ++ nl ] 0
  = (Some WithInterceptor, 0 + 4 + 1, []).
Proof.
  refine (with_interceptor_span
            [ "    /// Add an interceptor" ++ nl; "    pub fn w(self) {" ++ nl;
              "    }" ++ nl; "    // moved" ++ nl; "}" ++ nl; "fn f() {}" ++ nl ]
            0 4 eq_refl _ _ eq_refl).
  - vm_compute. lia.
  - intros j H1 H2.
    destruct j as [|[|[|[|j]]]]; [reflexivity|reflexivity|reflexivity|reflexivity|lia].
Defined.

(** X4. The accessor rule deletes from its start line through the first
    line that is, stripped, exactly ['}'], and one line more when the
    line after it is inside the buffer and is, stripped, exactly ['}']
    too.  Nothing is emitted. *)
Theorem accessor_span : forall (lines : list string) (i n : nat),
  fst (fst (body lines i)) = Some InterceptorsAccessor ->
  i + n < len lines ->
  (forall j, i <= j -> j < i + n -> closing_brace lines j = false) ->
  closing_brace lines (i + n) = true ->
  body lines i
  = (Some InterceptorsAccessor,
     (if (i + n + 1 <? len lines)
         && String.eqb (strip (line_at lines (i + n + 1))) "}"
      then i + n + 2 else i + n + 1),
     []).
Proof.
  intros lines i n Hr Hlt Hno Hend.
  branch Hr. rewrite (skip_until_first lines _ n) by (assumption || lia).
  destruct ((i + n + 1 <? len lines)
            && String.eqb (strip (line_at lines (i + n + 1))) "}");
    do 2 f_equal; lia.
Qed.

Lemma accessor_span_witness :
  body [ "    pub(crate) fn interceptors(&self) -> &Chain {" ++ nl;
         "        &self.chain" ++ nl; "    }" ++ nl; "}" ++ nl; "fn f() {}" ++ nl ] 0
  = (Some InterceptorsAccessor, 0 + 2 + 2, []).
Proof.
  refine (accessor_span
            [ "    pub(crate) fn interceptors(&self) -> &Chain {" ++ nl;
              "        &self.chain" ++ nl; "    }" ++ nl; "}" ++ nl;
              "fn f() {}" ++ nl ] 0 2 eq_refl _ _ eq_refl).
  - vm_compute. lia.
  - intros j H1 H2. destruct j as [|[|j]]; [reflexivity | reflexivity | lia].
Defined.

(** X5. The [handle_api_error] rule takes its start line and then line
    after line until the text collected so far, stripped on the right,
    ends with [';']: it resumes after the first such line, and a start
    line that already ends with [';'] is the whole span.  The one line
    emitted is computed from the start line alone. *)
Theorem handle_api_error_span : forall (lines : list string) (i n : nat),
  fst (fst (body lines i)) = Some HandleApiError ->
  i + n < len lines ->
  (forall j, j < n -> stmt_done lines i j = false) ->
  stmt_done lines i n = true ->
  body lines i
  = (Some HandleApiError, i + n + 1,
     [ times " " (String.length (line_at lines i)
                  - String.length (lstrip (line_at lines i)))
       ++ "map_api_error(e)" ++ nl ]).
Proof.
  intros lines i n Hr Hlt Hno Hdone.
  branch Hr.
  pose proof (collect_stmt_first lines i n 0 (len lines - i)) as H.
  rewrite Nat.add_0_r in H. cbn [stmt_upto Nat.add] in H.
  rewrite H; [reflexivity|lia|lia| |assumption].
  intros j Hj Hj'. apply Hno. lia.
Qed.

Lemma handle_api_error_span_witness :
  body [ "    Err(e) => Err(self.handle_api_error(e," ++ nl;
         "        &meta" ++ nl; "    ).await)?;" ++ nl; "next();" ++ nl ] 0
  = (Some HandleApiError, 0 + 2 + 1, [ "    map_api_error(e)" ++ nl ]).
Proof.
  refine (handle_api_error_span
            [ "    Err(e) => Err(self.handle_api_error(e," ++ nl;
              "        &meta" ++ nl; "    ).await)?;" ++ nl; "next();" ++ nl ]
            0 2 eq_refl _ _ eq_refl).
  - vm_compute. lia.
  - intros j H. destruct j as [|[|j]]; [reflexivity | reflexivity | lia].
Defined.

(** X6. When the statement of a [handle_api_error] line never comes to
    end with [';'], the rule takes every line to the end of the buffer
    and still emits its replacement line; the index it leaves is one past
    the length of the buffer. *)
Theorem handle_api_error_unterminated : forall (lines : list string) (i : nat),
  fst (fst (body lines i)) = Some HandleApiError ->
  i < len lines ->
  (forall j, i + j < len lines -> stmt_done lines i j = false) ->
  body lines i
  = (Some HandleApiError, len lines + 1,
     [ times " " (String.length (line_at lines i)
                  - String.length (lstrip (line_at lines i)))
       ++ "map_api_error(e)" ++ nl ]).
Proof.
  intros lines i Hr Hlt Hno.
  branch Hr.
  pose proof (collect_stmt_exhausts lines i (len lines - i) 0) as H.
  rewrite Nat.add_0_r in H. cbn [stmt_upto] in H.
  rewrite H; [reflexivity|lia|lia|].
  intros j _ Hj. now apply Hno.
Qed.

Lemma handle_api_error_unterminated_witness :
  body [ "keep();" ++ nl; "  x.handle_api_error(e," ++ nl; "  y)" ++ nl ] 1
  = (Some HandleApiError, 3 + 1, [ "  map_api_error(e)" ++ nl ]).
Proof.
  refine (handle_api_error_unterminated
            [ "keep();" ++ nl; "  x.handle_api_error(e," ++ nl; "  y)" ++ nl ]
            1 eq_refl _ _).
  - vm_compute. lia.
  - intros j H. vm_compute in H.
    destruct j as [|[|j]]; [reflexivity | reflexivity | lia].
Defined.

Lemma tiled_bodies lines a tr b :
  tiled lines a tr b ->
  Forall (fun it => start it < len lines
                    /\ body lines (start it) = (fired it, next it, emitted it)) tr.
Proof.
  induction 1 as [a|a it tr b H0 Hlt Hb Ht IH]; constructor; auto.
  subst a. split; assumption.
Qed.

Lemma count_app c (a b : string) : count c (a ++ b) = count c a + count c b.
Proof.
  induction a as [|x a IH]; simpl; [reflexivity|]. rewrite IH. lia.
Qed.

Lemma startswith_count c : forall m s,
  startswith m s = true -> count c m <= count c s.
Proof.
  induction m as [|a m IH]; intros s H; simpl; [lia|].
  destruct s as [|b s]; cbn [startswith] in H; [discriminate|].
  apply andb_prop in H. destruct H as [Hab H].
  apply Ascii.eqb_eq in Hab. subst b. apply IH in H. simpl. lia.
Qed.

(** A text with a character that the line does not have is not in the
    line. *)
Lemma contains_absent c m : forall s,
  count c s = 0 -> 0 < count c m -> contains m s = false.
Proof.
  induction s as [|b s IH]; intros Hs Hm.
  - destruct m; simpl in *; [lia | reflexivity].
  - cbn [contains]. simpl in Hs.
    destruct (startswith m (String b s)) eqn:E.
    + apply (startswith_count c) in E. simpl in E. lia.
    + simpl. apply IH; [lia | exact Hm].
Qed.

Lemma count_indented c n (t : string) :
  Ascii.eqb " " c = false -> count c (times " " n ++ t) = count c t.
Proof.
  intro H. induction n as [|n IH]; [reflexivity|].
  cbn [times append count]. rewrite H. exact IH.
Qed.

Lemma replacement_has_no_marker l m :
  replacement_line l -> In m markers -> contains m l = false.
Proof.
  intros [->|[n ->]] Hin.
  - unfold markers in Hin. simpl in Hin.
    repeat (destruct Hin as [<-|Hin]; [vm_compute; reflexivity|]).
    destruct Hin.
  - unfold markers in Hin. cbn [In] in Hin.
    repeat (destruct Hin as [<-|Hin];
            [ first
                [ apply (contains_absent "u");
                  [rewrite count_indented by reflexivity; reflexivity
                  | vm_compute; lia]
                | apply (contains_absent "c");
                  [rewrite count_indented by reflexivity; reflexivity
                  | vm_compute; lia]
                | apply (contains_absent "/");
                  [rewrite count_indented by reflexivity; reflexivity
                  | vm_compute; lia]
                | apply (contains_absent "l");
                  [rewrite count_indented by reflexivity; reflexivity
                  | vm_compute; lia]
                | apply (contains_absent "s");
                  [rewrite count_indented by reflexivity; reflexivity
                  | vm_compute; lia]
                | apply (contains_absent ".");
                  [rewrite count_indented by reflexivity; reflexivity
                  | vm_compute; lia] ]
            |]).
    destruct Hin.
Qed.

(** What one iteration appends: nothing, a replacement line, or the
    current line when no marker is in it. *)
Lemma body_emits lines i :
  Forall (fun l => replacement_line l
                   \/ (l = line_at lines i
                       /\ forall m, In m markers -> contains m l = false))
         (snd (body lines i)).
Proof.
  unfold body, body_with.
  repeat match goal with
         | |- Forall _ (snd (if ?c then _ else _)) => destruct c eqn:?
         end; cbn [snd];
    try apply Forall_nil; (apply Forall_cons; [|apply Forall_nil]).
  - left. left. reflexivity.
  - left. right. eexists. reflexivity.
  - right. split; [reflexivity|].
    repeat match goal with
           | H : (_ || _)%bool = false |- _ =>
               apply orb_false_elim in H; destruct H
           end.
    intros m Hin. unfold markers in Hin. cbn [In] in Hin.
    repeat (destruct Hin as [<-|Hin]; [assumption|]). destruct Hin.
Qed.

Lemma run_emits lines :
  Forall (fun l => replacement_line l
                   \/ (In l lines
                       /\ forall m, In m markers -> contains m l = false))
         (refactor_lines lines).
Proof.
  unfold refactor_lines.
  destruct (RefactorFacts.run_inv lines) as [Ht Ho]. rewrite Ho. clear Ho.
  apply tiled_bodies in Ht.
  induction Ht as [|it tr [Hlt Hb] Ht IH]; cbn [flat_map].
  - constructor.
  - apply Forall_app. split; [|exact IH].
    pose proof (body_emits lines (start it)) as He. rewrite Hb in He.
    cbn [snd] in He. eapply Forall_impl; [|exact He]. cbv beta.
    intros l [Hl|[Hl Hm]]; [left; exact Hl|right].
    split; [|exact Hm]. subst l. apply nth_In. exact Hlt.
Qed.

(** X7. [refactor] writes no text of its own making but two: every line
    of the output is a line of the input, copied character for
    character, or the fixed comment line of the Debug rule, or a run of
    spaces followed by [map_api_error(e)] and a newline. *)
Theorem output_lines_origin : forall (lines : list string) (l : string),
  In l (refactor_lines lines) -> In l lines \/ replacement_line l.
Proof.
  intros lines l Hin.
  pose proof (run_emits lines) as H. rewrite Forall_forall in H.
  destruct (H l Hin) as [Hr|[Hl _]]; [right; exact Hr | left; exact Hl].
Qed.

Lemma output_lines_origin_witness :
  In ("    map_api_error(e)" ++ nl)
     [ "fn f() {" ++ nl; "    x.handle_api_error(e, y);" ++ nl ]
  \/ replacement_line ("    map_api_error(e)" ++ nl).
Proof.
  exact (output_lines_origin
           [ "fn f() {" ++ nl; "    x.handle_api_error(e, y);" ++ nl ]
           ("    map_api_error(e)" ++ nl) (or_intror (or_introl eq_refl))).
Defined.

(** X8. No line of the output of [refactor] contains any of the texts
    its rules look for in the current line: every line in which one of
    them occurs is deleted or replaced, and the two replacement lines
    contain none of them. *)
Theorem output_has_no_marker : forall (lines : list string) (l m : string),
  In l (refactor_lines lines) -> In m markers -> contains m l = false.
Proof.
  intros lines l m Hl Hm.
  pose proof (run_emits lines) as H. rewrite Forall_forall in H.
  destruct (H l Hl) as [Hr|[_ Hn]].
  - now apply replacement_has_no_marker.
  - now apply Hn.
Qed.

Lemma output_has_no_marker_witness :
  contains ".handle_api_error(" ("    map_api_error(e)" ++ nl) = false.
Proof.
  exact (output_has_no_marker
           [ "fn f() {" ++ nl; "    x.handle_api_error(e, y);" ++ nl ]
           ("    map_api_error(e)" ++ nl) ".handle_api_error("
           (or_intror (or_introl eq_refl))
           (or_intror (or_intror (or_intror (or_intror (or_intror (or_intror
            (or_intror (or_intror (or_intror (or_intror (or_intror (or_intror
            (or_intror (or_intror (or_intror (or_introl eq_refl))))))))))))))))).
Defined.

Lemma body_emits_at_most_one lines i : List.length (snd (body lines i)) <= 1.
Proof.
  unfold body, body_with.
  repeat match goal with
         | |- List.length (snd (if ?c then _ else _)) <= 1 => destruct c
         end; cbn [snd List.length]; lia.
Qed.

Lemma tiled_output_length lines a tr b :
  tiled lines a tr b ->
  List.length (flat_map emitted tr) <= Nat.min b (len lines) - a.
Proof.
  induction 1 as [a|a it tr b H0 Hlt Hb Ht IH]; simpl; [lia|].
  rewrite length_app.
  pose proof (body_emits_at_most_one lines a) as H1. rewrite Hb in H1.
  cbn [snd] in H1.
  pose proof (RefactorFacts.body_advances lines a Hlt) as H2. rewrite Hb in H2.
  cbn [fst snd] in H2.
  pose proof (RefactorFacts.tiled_bounds lines _ _ _ Ht) as [H3 _].
  lia.
Qed.

(** X9. [refactor] never adds lines: the output has at most as many
    lines as the input. *)
Theorem output_not_longer : forall lines : list string,
  List.length (refactor_lines lines) <= List.length lines.
Proof.
  intro lines. unfold refactor_lines.
  destruct (RefactorFacts.run_inv lines) as [Ht Ho]. rewrite Ho.
  pose proof (tiled_output_length lines _ _ _ Ht) as H. unfold len in H. lia.
Qed.

Lemma join_readlines_from : forall s cur,
  join (readlines_from cur s) = cur ++ s.
Proof.
  induction s as [|c s IH]; intro cur; cbn [readlines_from].
  - destruct cur; [reflexivity|]. cbn [join]. reflexivity.
  - destruct (Ascii.eqb c "010").
    + cbn [join]. rewrite IH. cbn [append].
      rewrite StrFacts.app_assoc. reflexivity.
    + rewrite IH. rewrite StrFacts.app_assoc. reflexivity.
Qed.

End RefactorMore.

(** * Further properties of the substitutions *)

Module ReMore.
Import PyStr Re Cover Lang.

Lemma last_or_app prev a b : last_or prev (a ++ b) = last_or (last_or prev a) b.
Proof. revert prev; induction a as [|c a IH]; intro prev; simpl; auto. Qed.

Lemma take_app (m s' : string) :
  substring 0 (String.length (m ++ s') - String.length s') (m ++ s') = m.
Proof.
  rewrite StrFacts.length_app.
  replace (String.length m + String.length s' - String.length s')
    with (String.length m) by lia.
  induction m as [|c m IH]; simpl.
  - destruct s'; reflexivity.
  - now rewrite IH.
Qed.

Lemma take_length_app (m s' : string) :
  substring 0 (String.length m) (m ++ s') = m.
Proof.
  induction m as [|c m IH]; simpl.
  - destruct s'; reflexivity.
  - now rewrite IH.
Qed.

Section Sound.
Variable A : Type.

Lemma rep_greedy_sound k : forall s min prev g (kont : cont A) x,
  rep_greedy A k min prev s g kont = Some x ->
  exists m s', s = m ++ s' /\ all_cls k m = true /\ min <= String.length m
               /\ kont (last_or prev m) s' g = Some x.
Proof.
  induction s as [|c s IH]; intros min prev g kont x; simpl.
  - destruct (min =? 0) eqn:E; [|discriminate]. apply Nat.eqb_eq in E.
    intro H. exists EmptyString, EmptyString. simpl. repeat split; auto; lia.
  - assert (Hstop : (if min =? 0 then kont prev (String c s) g else None) = Some x ->
                    exists m s', String c s = m ++ s' /\ all_cls k m = true
                                 /\ min <= String.length m
                                 /\ kont (last_or prev m) s' g = Some x).
    { destruct (min =? 0) eqn:E; [|discriminate]. apply Nat.eqb_eq in E.
      intro H. exists EmptyString, (String c s). simpl. repeat split; auto; lia. }
    destruct (cls_match k c) eqn:Ec; [|exact Hstop].
    destruct (rep_greedy A k (pred min) (Some c) s g kont) eqn:Er; [|exact Hstop].
    intro H. inversion H; subst a.
    destruct (IH _ _ _ _ _ Er) as (m & s' & Hs & Hall & Hmin & Hk).
    exists (String c m), s'. simpl. rewrite Ec, Hall, <- Hs.
    repeat split; auto; lia.
Qed.

Lemma rep_lazy_sound k : forall s min prev g (kont : cont A) x,
  rep_lazy A k min prev s g kont = Some x ->
  exists m s', s = m ++ s' /\ all_cls k m = true /\ min <= String.length m
               /\ kont (last_or prev m) s' g = Some x.
Proof.
  induction s as [|c s IH]; intros min prev g kont x; simpl.
  - destruct (min =? 0) eqn:E.
    + apply Nat.eqb_eq in E.
      destruct (kont prev EmptyString g) eqn:Ek; [|discriminate].
      intro H. inversion H; subst a.
      exists EmptyString, EmptyString. simpl. repeat split; auto; lia.
    + discriminate.
  - destruct (if min =? 0 then kont prev (String c s) g else None) eqn:E0.
    + intro H. inversion H; subst a.
      destruct (min =? 0) eqn:E; [|discriminate]. apply Nat.eqb_eq in E.
      exists EmptyString, (String c s). simpl. repeat split; auto; lia.
    + destruct (cls_match k c) eqn:Ec; [|discriminate].
      intro Er.
      destruct (IH _ _ _ _ _ Er) as (m & s' & Hs & Hall & Hmin & Hk).
      exists (String c m), s'. simpl. rewrite Ec, Hall, <- Hs.
      repeat split; auto; lia.
Qed.

(** The matcher is sound: what it takes before it calls its
    continuation is a text the pattern stands for. *)
Lemma exec_sound : forall r prev s g (kont : cont A) x,
  exec A r prev s g kont = Some x ->
  exists m s' g',
    s = m ++ s' /\ denotes r prev m s' g g'
    /\ kont (last_or prev m) s' g' = Some x.
Proof.
  induction r as [|k|r1 IH1 r2 IH2|r1 IH1 r2 IH2|k min greedy| | |r1 IH1];
    intros prev s g kont x; cbn [exec].
  - intro H. exists EmptyString, s, g. repeat split; auto. constructor.
  - destruct s as [|c s]; [discriminate|].
    destruct (cls_match k c) eqn:E; [|discriminate].
    intro H. exists (String c EmptyString), s, g.
    repeat split; auto. now constructor.
  - intro H.
    destruct (IH1 _ _ _ _ _ H) as (m1 & s1 & g1 & Hs & Hd1 & Hk1).
    destruct (IH2 _ _ _ _ _ Hk1) as (m2 & s2 & g2 & Hs2 & Hd2 & Hk2).
    exists (m1 ++ m2), s2, g2. subst s s1. repeat split.
    + now rewrite StrFacts.app_assoc.
    + econstructor; eauto.
    + now rewrite last_or_app.
  - destruct (exec A r1 prev s g kont) eqn:E.
    + intro H. inversion H; subst a.
      destruct (IH1 _ _ _ _ _ E) as (m & s' & g' & Hs & Hd & Hk).
      exists m, s', g'. repeat split; auto. now apply D_alt_l.
    + intro H.
      destruct (IH2 _ _ _ _ _ H) as (m & s' & g' & Hs & Hd & Hk).
      exists m, s', g'. repeat split; auto. now apply D_alt_r.
  - intro H.
    assert (Hr : exists m s', s = m ++ s' /\ all_cls k m = true
                              /\ min <= String.length m
                              /\ kont (last_or prev m) s' g = Some x).
    { destruct greedy; [now apply rep_greedy_sound | now apply rep_lazy_sound]. }
    destruct Hr as (m & s' & Hs & Hall & Hmin & Hk).
    exists m, s', g. repeat split; auto. now constructor.
  - destruct (xorb (word_opt prev) (word_opt (first s))) eqn:E; [|discriminate].
    intro H. exists EmptyString, s, g. repeat split; auto. now constructor.
  - destruct prev as [c|].
    + destruct (Ascii.eqb_spec c "010") as [->|Hne]; [|discriminate].
      intro H. exists EmptyString, s, g. repeat split; auto.
      constructor. now right.
    + intro H. exists EmptyString, s, g. repeat split; auto.
      constructor. now left.
  - intro H.
    destruct (IH1 _ _ _ _ _ H) as (m & s' & g' & Hs & Hd & Hk).
    subst s. rewrite take_app in Hk.
    exists m, s', (Some m). repeat split; auto. econstructor; eauto.
Qed.

End Sound.

Lemma match_at_sound r ma prev s n g :
  match_at r ma prev s = Some (n, g) ->
  exists m s', s = m ++ s' /\ n = String.length m /\ denotes r prev m s' None g.
Proof.
  unfold match_at. intro H.
  destruct (exec_sound _ _ _ _ _ _ _ H) as (m & s' & g' & Hs & Hd & Hk).
  destruct (ma && _); [discriminate|]. inversion Hk; subst.
  exists m, s'. repeat split; auto.
  rewrite StrFacts.length_app. lia.
Qed.

(** Every match of a scan is a text the pattern stands for. *)
Lemma scan_denotes r : forall s prev skip,
  Forall (cut_ok (fun m g => exists prev' rest, denotes r prev' m rest None g))
         (scan r prev s skip).
Proof.
  assert (Hcut : forall prev s n g ma,
             match_at r ma prev s = Some (n, g) ->
             cut_ok (fun m g => exists prev' rest, denotes r prev' m rest None g)
                    (Cut (substring 0 n s) g)).
  { intros prev s n g ma H.
    destruct (match_at_sound _ _ _ _ _ _ H) as (m & s' & Hs & Hn & Hd).
    subst s n. rewrite take_length_app. simpl. eauto. }
  induction s as [|c s IH]; intros prev skip.
  - destruct skip; [|constructor]. cbn [scan].
    destruct (match_at r false prev EmptyString) as [[[|n] g]|] eqn:E.
    + constructor; [exact (Hcut _ _ _ _ _ E)|].
      destruct (match_at r true prev EmptyString) as [[[|n] g']|] eqn:E';
        repeat constructor. exact (Hcut _ _ _ _ _ E').
    + constructor; [exact (Hcut _ _ _ _ _ E) | constructor].
    + constructor.
  - destruct skip as [|skip]; [|cbn [scan]; apply IH].
    cbn [scan].
    destruct (match_at r false prev (String c s)) as [[[|n] g]|] eqn:E.
    + constructor; [exact (Hcut _ _ _ _ _ E)|].
      destruct (match_at r true prev (String c s)) as [[[|n] g']|] eqn:E'.
      * constructor; [exact I | apply IH].
      * constructor; [exact (Hcut _ _ _ _ _ E') | apply IH].
      * constructor; [exact I | apply IH].
    + constructor; [exact (Hcut _ _ _ _ _ E) | apply IH].
    + constructor; [exact I | apply IH].
Qed.

Lemma denotes_seq_inv r1 r2 prev m rest g g2 :
  denotes (Seq r1 r2) prev m rest g g2 ->
  exists m1 m2 g1,
    m = m1 ++ m2 /\ denotes r1 prev m1 (m2 ++ rest) g g1
    /\ denotes r2 (last_or prev m1) m2 rest g1 g2.
Proof. inversion 1; subst. eauto 7. Qed.

Lemma denotes_rep_inv k min greedy prev m rest g g' :
  denotes (Rep k min greedy) prev m rest g g' ->
  all_cls k m = true /\ min <= String.length m /\ g' = g.
Proof. inversion 1; subst. auto. Qed.

Lemma denotes_group_inv r prev m rest g g' :
  denotes (Group r) prev m rest g g' ->
  g' = Some m /\ exists g1, denotes r prev m rest g g1.
Proof. inversion 1; subst. eauto. Qed.

Lemma denotes_alt_inv r1 r2 prev m rest g g' :
  denotes (Alt r1 r2) prev m rest g g' ->
  denotes r1 prev m rest g g' \/ denotes r2 prev m rest g g'.
Proof. inversion 1; subst; auto. Qed.

Lemma denotes_empty_inv r prev m rest g g' :
  r = Eps \/ r = WordB \/ r = Bol ->
  denotes r prev m rest g g' -> m = EmptyString /\ g' = g.
Proof. intros [->|[->| ->]]; inversion 1; subst; auto. Qed.

Lemma denotes_lit : forall p prev m rest g g',
  denotes (lit p) prev m rest g g' -> m = p /\ g' = g.
Proof.
  induction p as [|c p IH]; intros prev m rest g g' H; cbn [lit] in H.
  - inversion H; subst. auto.
  - apply denotes_seq_inv in H. destruct H as (m1 & m2 & g1 & -> & H1 & H2).
    inversion H1; subst. apply IH in H2. destruct H2 as [-> ->].
    match goal with Hc : cls_match (Lit c) ?c0 = true |- _ =>
      cbn [cls_match] in Hc; apply Ascii.eqb_eq in Hc; subst end.
    auto.
Qed.

Lemma all_not_count c : forall s,
  all_cls (Not c) s = true -> count c s = 0.
Proof.
  induction s as [|a s IH]; cbn [all_cls count cls_match]; [reflexivity|].
  intro H. apply andb_prop in H. destruct H as [Ha Hs].
  destruct (Ascii.eqb a c); [discriminate|]. now rewrite IH.
Qed.

Lemma nonempty_length (s : string) : 1 <= String.length s -> s <> EmptyString.
Proof. destruct s; simpl; [lia | discriminate]. Qed.

(** Take a match of a concatenation apart, item by item. *)
Ltac apart H :=
  cbn [cat] in H;
  repeat match goal with
         | H : denotes (Seq _ _) _ _ _ _ _ |- _ =>
             apply denotes_seq_inv in H;
             let m1 := fresh "m" in
             let m2 := fresh "m" in
             let g1 := fresh "g" in
             let Hl := fresh "Hl" in
             let Hr := fresh "Hr" in
             destruct H as (m1 & m2 & g1 & -> & Hl & Hr)
         | H : denotes (lit _) _ _ _ _ _ |- _ =>
             apply denotes_lit in H; destruct H as [-> ->]
         | H : denotes (Rep _ _ _) _ _ _ _ _ |- _ =>
             apply denotes_rep_inv in H;
             let Ha := fresh "Hall" in
             let Hn := fresh "Hmin" in
             destruct H as (Ha & Hn & ->)
         | H : denotes (Group _) _ _ _ _ _ |- _ =>
             apply denotes_group_inv in H;
             let g1 := fresh "g" in
             let Hg := fresh "Hg" in
             destruct H as (-> & g1 & Hg)
         | H : denotes WordB _ _ _ _ _ |- _ =>
             apply (denotes_empty_inv WordB) in H;
             [destruct H as [-> ->] | auto]
         | H : denotes Bol _ _ _ _ _ |- _ =>
             apply (denotes_empty_inv Bol) in H;
             [destruct H as [-> ->] | auto]
         | H : denotes Eps _ _ _ _ _ |- _ =>
             apply (denotes_empty_inv Eps) in H;
             [destruct H as [-> ->] | auto]
         end.

Lemma await_shape call await prev m rest g g' :
  denotes (cat [lit call; Rep (Not ")") 1 true; lit ")"; Rep Space 0 true;
                lit await]) prev m rest g g' ->
  await_statement call await m.
Proof.
  intro H. apart H.
  match goal with
  | Ha : all_cls (Not ")") ?args = true, Hw : all_cls Space ?ws = true |- _ =>
      exists args, ws
  end.
  repeat split; auto using all_not_count, nonempty_length.
Qed.

Lemma plain_shape call close prev m rest g g' :
  denotes (cat [lit call; Rep (Not ")") 1 true; lit close]) prev m rest g g' ->
  plain_call call close m.
Proof.
  intro H. apart H.
  match goal with
  | Ha : all_cls (Not ")") ?args = true |- _ => exists args
  end.
  repeat split; auto using all_not_count, nonempty_length.
Qed.

Lemma forall_cut_impl (P Q : string -> option string -> Prop) ps :
  (forall m g, P m g -> Q m g) ->
  Forall (cut_ok P) ps -> Forall (cut_ok Q) ps.
Proof.
  intros H Hall. eapply Forall_impl; [|exact Hall].
  intros [c|m g]; simpl; auto.
Qed.

(** X12. What the first and the third substitution of [fix_client]
    delete is, match by match, a whole call statement: the eight spaces
    and [self.call_before_request(] (or [self.call_after_response(]),
    arguments of at least one character with no closing parenthesis in
    them, the closing parenthesis, whitespace, and [.await?;] (or
    [.await;]) with the line feed after it.  Everything else is kept. *)
Theorem fix_client_deletes_await_statements : forall content : string,
  Forall (cut_ok (fun m _ => await_statement "        self.call_before_request("
                                             (".await?;" ++ nl) m))
         (scan FixClient.before_request None content 0)
  /\ Forall (cut_ok (fun m _ => await_statement "        self.call_after_response("
                                                (".await;" ++ nl) m))
            (scan FixClient.after_response None content 0).
Proof.
  intro content. split.
  - eapply forall_cut_impl; [|apply scan_denotes].
    intros m g (prev & rest & H). now apply await_shape in H.
  - eapply forall_cut_impl; [|apply scan_denotes].
    intros m g (prev & rest & H). now apply await_shape in H.
Qed.

(** X13. What substitutions 13 and 15 of [remove_interceptors] delete
    is, match by match, the eight spaces and the call, arguments of at
    least one character with no closing parenthesis in them, and
    [).await?;] (or [).await;]) with the line feed: no whitespace is
    allowed between the closing parenthesis and [.await], so a call whose
    [.await] is on a line of its own is never among the matches.  What
    substitution 14 replaces is [self.handle_api_error(e, ], with the
    error variable [e] and one space, such arguments, and the closing
    parenthesis. *)
Theorem remove_interceptors_deletes_plain_calls : forall content : string,
  Forall (cut_ok (fun m _ => plain_call "        self.call_before_request("
                                        (").await?;" ++ nl) m))
         (scan RemoveInterceptors.before_request None content 0)
  /\ Forall (cut_ok (fun m _ => plain_call "        self.call_after_response("
                                           (").await;" ++ nl) m))
            (scan RemoveInterceptors.after_response None content 0)
  /\ Forall (cut_ok (fun m _ => plain_call "self.handle_api_error(e, " ")" m))
            (scan RemoveInterceptors.handle_api_error None content 0).
Proof.
  intro content. split; [|split].
  - eapply forall_cut_impl; [|apply scan_denotes].
    intros m g (prev & rest & H). now apply plain_shape in H.
  - eapply forall_cut_impl; [|apply scan_denotes].
    intros m g (prev & rest & H). now apply plain_shape in H.
  - eapply forall_cut_impl; [|apply scan_denotes].
    intros m g (prev & rest & H). now apply plain_shape in H.
Qed.

Lemma api_error_shape prev m rest g :
  denotes FixClient.handle_api_error prev m rest None g ->
  api_error_call m g.
Proof.
  unfold FixClient.handle_api_error. intro H. apart H.
  match goal with
  | Hw : all_cls Space ?ws = true, H1 : 1 <= String.length ?ws,
    Hw2 : all_cls Space ?ws2 = true, Ha : all_cls (Not ")") ?args = true |- _ =>
      exists ws, ws2, args
  end.
  repeat split; auto using all_not_count, nonempty_length.
Qed.

(** X14. The second substitution of [fix_client] replaces, match by
    match, whitespace of at least one character followed by
    [self.handle_api_error(e,], optional whitespace, arguments with no
    closing parenthesis in them, and the closing parenthesis; what it puts
    in is that same leading whitespace, character for character, followed
    by [map_api_error(e)].  The error variable must be [e], and text
    between the start of the line and the call is not touched. *)
Theorem fix_client_rewrites_api_error_calls : forall content : string,
  Forall (cut_ok (fun m g =>
            api_error_call m g
            /\ exists ws, g = Some ws
                          /\ expand [TGroup1; TLit "map_api_error(e)"] g
                             = ws ++ "map_api_error(e)"))
         (scan FixClient.handle_api_error None content 0).
Proof.
  intro content.
  eapply forall_cut_impl; [|apply scan_denotes].
  intros m g (prev & rest & H). apply api_error_shape in H.
  split; [exact H|].
  destruct H as (ws & ws2 & args & _ & -> & _).
  exists ws. split; [reflexivity|].
  unfold expand. cbn [map join]. now rewrite StrFacts.app_empty_r.
Qed.

Lemma startswith_app a : forall x y,
  startswith a x = true -> startswith a (x ++ y) = true.
Proof.
  induction a as [|c a IH]; intros x y H; [reflexivity|].
  destruct x as [|b x]; cbn [startswith append] in *; [discriminate|].
  apply andb_prop in H. destruct H as [Hc H]. rewrite Hc. cbn [andb].
  now apply IH.
Qed.

Lemma startswith_self_app a : forall x, startswith a (a ++ x) = true.
Proof.
  induction a as [|c a IH]; intro x; [reflexivity|].
  cbn [startswith append]. rewrite Ascii.eqb_refl. apply IH.
Qed.

Lemma contains_start a s : startswith a s = true -> contains a s = true.
Proof. intro H. destruct s; cbn [contains]; rewrite H; reflexivity. Qed.

Lemma contains_app_r a : forall x y,
  contains a y = true -> contains a (x ++ y) = true.
Proof.
  induction x as [|c x IH]; intros y H; [exact H|].
  cbn [append contains]. rewrite (IH y H). apply orb_true_r.
Qed.

Lemma contains_app_l a : forall x y,
  contains a x = true -> contains a (x ++ y) = true.
Proof.
  induction x as [|c x IH]; intros y H.
  - cbn [contains] in H. rewrite orb_false_r in H.
    apply contains_start. now apply (startswith_app a EmptyString y).
  - cbn [contains] in H. apply orb_prop in H. destruct H as [H|H].
    + apply contains_start. now apply startswith_app.
    + cbn [append contains]. rewrite (IH y H). apply orb_true_r.
Qed.

Lemma contains_prefix a x : contains a (a ++ x) = true.
Proof. apply contains_start, startswith_self_app. Qed.

Lemma contains_self a : contains a a = true.
Proof.
  rewrite <- (StrFacts.app_empty_r a) at 2. apply contains_prefix.
Qed.

(** A pattern whose every match contains a text matches nowhere in a
    subject that does not contain that text. *)
Lemma scan_no_cut r a :
  needs r a ->
  forall s prev, contains a s = false -> existsb is_cut (scan r prev s 0) = false.
Proof.
  intros Hn.
  assert (Hnone : forall s prev, contains a s = false ->
                                 match_at r false prev s = None).
  { intros s prev Hc. destruct (match_at r false prev s) as [[n g]|] eqn:E;
      [|reflexivity].
    destruct (match_at_sound _ _ _ _ _ _ E) as (m & s' & -> & _ & Hd).
    apply Hn in Hd. rewrite (contains_app_l a m s' Hd) in Hc. discriminate. }
  induction s as [|c s IH]; intros prev Hc; cbn [scan];
    rewrite (Hnone _ prev Hc); [reflexivity|].
  cbn [existsb is_cut orb]. apply IH.
  cbn [contains] in Hc. apply orb_false_elim in Hc. tauto.
Qed.

Lemma needs_no_match ps : forall anchors_of content,
  Forall2 (fun p a => needs (fst p) a) ps anchors_of ->
  (forall a, In a anchors_of -> contains a content = false) ->
  Stable.matches_none ps content = true.
Proof.
  induction ps as [|p ps IH]; intros al content HF Hno;
    inversion HF as [|? a ? al' Hp HF']; subst; [reflexivity|].
  cbn [Stable.matches_none forallb].
  unfold has_match. rewrite (scan_no_cut _ a Hp) by (apply Hno; now left).
  cbn [negb andb]. apply (IH al'); [exact HF'|].
  intros b Hb. apply Hno. now right.
Qed.

(** Close a goal [contains a m = true] after the match was taken apart. *)
Ltac found :=
  first [ apply contains_prefix
        | apply contains_self
        | apply contains_app_r; apply contains_prefix
        | cbn [append]; apply contains_prefix
        | vm_compute; reflexivity ].

Lemma remove_interceptors_needs :
  Forall2 (fun p a => needs (fst p) a) RemoveInterceptors.substitutions anchors.
Proof.
  unfold RemoveInterceptors.substitutions, anchors.
  repeat (apply Forall2_cons; [|]); [..|apply Forall2_nil];
    cbn [fst]; intros prev m rest g H;
    unfold RemoveInterceptors.imports, RemoveInterceptors.lint_allow,
      RemoveInterceptors.rwlock, RemoveInterceptors.macro_def,
      RemoveInterceptors.macro_call, RemoveInterceptors.struct_field,
      RemoveInterceptors.debug_comment, RemoveInterceptors.debug_field,
      RemoveInterceptors.new_init, RemoveInterceptors.with_interceptor,
      RemoveInterceptors.accessor, RemoveInterceptors.helper_block,
      RemoveInterceptors.metadata_decl, RemoveInterceptors.before_request,
      RemoveInterceptors.handle_api_error, RemoveInterceptors.after_response in H;
    apart H; found.
Qed.

Lemma fix_client_needs :
  Forall2 (fun p a => needs (fst p) a) FixClient.substitutions needles.
Proof.
  unfold FixClient.substitutions, needles.
  repeat (apply Forall2_cons; [|]); [..|apply Forall2_nil];
    cbn [fst]; intros prev m rest g H.
  - unfold FixClient.before_request in H. apart H. found.
  - unfold FixClient.handle_api_error in H. apart H. found.
  - unfold FixClient.after_response in H. apart H. found.
  - unfold FixClient.metadata in H.
    apply denotes_alt_inv in H. destruct H as [H|H]; [apart H; found|].
    apply denotes_alt_inv in H. destruct H as [H|H]; [apart H; found|].
    apart H. found.
Qed.

(** X15. [remove_interceptors] changes nothing in a content that
    contains none of the sixteen literal texts its patterns begin with:
    every match of every pattern starts with its literal text. *)
Theorem remove_interceptors_needs_an_anchor : forall content : string,
  (forall a, In a anchors -> contains a content = false) ->
  RemoveInterceptors.remove_content content = content.
Proof.
  intros content H. apply EngineFacts.apply_all_no_match.
  exact (needs_no_match _ _ _ remove_interceptors_needs H).
Qed.

Lemma remove_interceptors_needs_an_anchor_witness :
  RemoveInterceptors.remove_content ("self.handle_api_error(err, ctx)" ++ nl)
  = "self.handle_api_error(err, ctx)" ++ nl.
Proof.
  refine (remove_interceptors_needs_an_anchor
            ("self.handle_api_error(err, ctx)" ++ nl) _).
  intros a Hin. unfold anchors in Hin. cbn [In] in Hin.
  repeat (destruct Hin as [<-|Hin]; [vm_compute; reflexivity|]). destruct Hin.
Defined.

(** X16. [fix_client] changes nothing in a content that contains none
    of [        self.call_before_request(], [self.handle_api_error(e,],
    [        self.call_after_response(] and [metadata]: every match of
    each of its four patterns contains the corresponding text. *)
Theorem fix_client_needs_a_needle : forall content : string,
  (forall a, In a needles -> contains a content = false) ->
  FixClient.fix_content content = content.
Proof.
  intros content H. apply EngineFacts.apply_all_no_match.
  exact (needs_no_match _ _ _ fix_client_needs H).
Qed.

Lemma fix_client_needs_a_needle_witness :
  FixClient.fix_content ("    Err(err) => self.handle_api_error(err, ctx)," ++ nl)
  = "    Err(err) => self.handle_api_error(err, ctx)," ++ nl.
Proof.
  refine (fix_client_needs_a_needle
            ("    Err(err) => self.handle_api_error(err, ctx)," ++ nl) _).
  intros a Hin. unfold needles in Hin. cbn [In] in Hin.
  repeat (destruct Hin as [<-|Hin]; [vm_compute; reflexivity|]). destruct Hin.
Defined.

Lemma inserted_le_cut repl ps :
  Forall (cut_ok (fun m g => String.length (expand repl g) <= String.length m)) ps ->
  inserted_length repl ps <= cut_length ps.
Proof.
  induction 1 as [|[c|m g] ps Hp Hps IH]; simpl in *; lia.
Qed.

Lemma sub_not_longer (p : substitution) (s : string) :
  shrinking p -> String.length (apply_sub s p) <= String.length s.
Proof.
  intro Hs. unfold apply_sub, sub.
  pose proof (ReFacts.pieces_length (snd p) (scan (fst p) None s 0)) as H.
  rewrite (ReFacts.scan_original (fst p) s None 0) in H. cbn [drop] in H.
  assert (Hle : inserted_length (snd p) (scan (fst p) None s 0)
                <= cut_length (scan (fst p) None s 0)).
  { apply inserted_le_cut. eapply forall_cut_impl; [|apply scan_denotes].
    intros m g (prev & rest & Hd). exact (Hs _ _ _ _ Hd). }
  lia.
Qed.

Lemma apply_all_not_longer ps : forall s,
  Forall shrinking ps -> String.length (apply_all ps s) <= String.length s.
Proof.
  unfold apply_all. induction ps as [|p ps IH]; intros s H; simpl; [lia|].
  inversion H as [|? ? Hp Hps]; subst.
  pose proof (IH (apply_sub s p) Hps). pose proof (sub_not_longer p s Hp). lia.
Qed.

Lemma shrinking_deletion r : shrinking (r, []).
Proof. intros prev m rest g _. cbn. lia. Qed.

Lemma fix_client_shrinking : Forall shrinking FixClient.substitutions.
Proof.
  unfold FixClient.substitutions.
  repeat (apply Forall_cons; [|]); [..|apply Forall_nil];
    try apply shrinking_deletion.
  intros prev m rest g H. cbn [fst snd] in *.
  apply api_error_shape in H.
  destruct H as (ws & ws2 & args & -> & -> & _).
  unfold expand. cbn [map join].
  rewrite !StrFacts.length_app. cbn [String.length]. lia.
Qed.

Lemma remove_interceptors_shrinking :
  Forall shrinking RemoveInterceptors.substitutions.
Proof.
  unfold RemoveInterceptors.substitutions.
  repeat (apply Forall_cons; [|]); [..|apply Forall_nil];
    try apply shrinking_deletion;
    intros prev m rest g H; cbn [fst snd] in *.
  - unfold RemoveInterceptors.debug_comment in H. apart H.
    vm_compute. lia.
  - unfold RemoveInterceptors.metadata_decl in H. apart H.
    vm_compute. lia.
  - unfold RemoveInterceptors.handle_api_error in H. apart H.
    unfold expand. cbn [map join].
    rewrite !StrFacts.length_app. cbn [String.length]. lia.
Qed.

(** X17. Neither [fix_client] nor [remove_interceptors] ever makes the
    content longer: each of their substitutions puts in at most as many
    characters as the match it replaces had. *)
Theorem regex_scripts_never_lengthen : forall content : string,
  String.length (FixClient.fix_content content) <= String.length content
  /\ String.length (RemoveInterceptors.remove_content content)
     <= String.length content.
Proof.
  intro content. split.
  - apply apply_all_not_longer, fix_client_shrinking.
  - apply apply_all_not_longer, remove_interceptors_shrinking.
Qed.

End ReMore.

(** * The lazy block patterns of remove_interceptors *)

Module BlockFacts.
Import PyStr Re Cover Lang.

(** A property of every match lifts to the matches of a scan, for a
    pattern that never matches the empty text. *)
Lemma scan_cuts r (P : string -> option string -> Prop) :
  (forall prev s g, match_at r false prev s <> Some (0, g)) ->
  (forall prev s n g, match_at r false prev s = Some (n, g) ->
                      P (substring 0 n s) g) ->
  forall s prev skip, Forall (cut_ok P) (scan r prev s skip).
Proof.
  intros Hne HP. induction s as [|c s IH]; intros prev skip.
  - destruct skip; [|constructor]. cbn [scan].
    destruct (match_at r false prev EmptyString) as [[[|n] g]|] eqn:E.
    + exfalso. eapply Hne; eauto.
    + constructor; [exact (HP _ _ _ _ E) | constructor].
    + constructor.
  - destruct skip as [|skip]; [|cbn [scan]; apply IH].
    cbn [scan].
    destruct (match_at r false prev (String c s)) as [[[|n] g]|] eqn:E.
    + exfalso. eapply Hne; eauto.
    + constructor; [exact (HP _ _ _ _ E) | apply IH].
    + constructor; [exact I | apply IH].
Qed.

(** A lazy [.*?] under DOTALL gives its continuation the first position
    at which the continuation succeeds. *)
Lemma lazy_first A : forall s prev g (kont : cont A) x,
  rep_lazy A (Dot true) 0 prev s g kont = Some x ->
  exists n, n <= String.length s
            /\ kont (last_or prev (substring 0 n s)) (drop n s) g = Some x
            /\ forall j, j < n ->
                 kont (last_or prev (substring 0 j s)) (drop j s) g = None.
Proof.
  induction s as [|c s IH]; intros prev g kont x; cbn [rep_lazy Nat.eqb].
  - destruct (kont prev EmptyString g) eqn:E; [|discriminate].
    intro H. inversion H; subst a. exists 0. cbn. repeat split; auto; lia.
  - destruct (kont prev (String c s) g) eqn:E.
    + intro H. inversion H; subst a. exists 0. cbn. repeat split; auto; lia.
    + cbn [cls_match orb Nat.pred]. intro H.
      destruct (IH _ _ _ _ H) as (n & Hn & Hk & Hmin).
      exists (S n). cbn [String.length substring drop last_or].
      split; [lia|]. split; [exact Hk|].
      intros j Hj. destruct j as [|j]; [exact E|].
      cbn [substring drop last_or]. apply Hmin. lia.
Qed.

Lemma last_or_nonempty prev prev' (a x : string) :
  a <> EmptyString -> last_or prev (a ++ x) = last_or prev' (a ++ x).
Proof. destruct a; [congruence | reflexivity]. Qed.

Lemma drop_split : forall j n s,
  j <= n -> n <= String.length s ->
  drop j s = drop j (substring 0 n s) ++ drop n s.
Proof.
  induction j as [|j IH]; intros n s Hj Hn.
  - cbn [drop]. now rewrite ReFacts.take_drop.
  - destruct n as [|n]; [lia|]. destruct s as [|c s]; [simpl in Hn; lia|].
    cbn [substring drop]. apply IH; [lia | simpl in Hn; lia].
Qed.

Lemma take_take : forall j n s,
  j <= n -> substring 0 j (substring 0 n s) = substring 0 j s.
Proof.
  induction j as [|j IH]; intros n s Hj.
  - destruct s, n; reflexivity.
  - destruct n as [|n]; [lia|]. destruct s as [|c s]; [reflexivity|].
    cbn [substring]. f_equal. apply IH. lia.
Qed.

Lemma startswith_within t : forall x y,
  String.length t <= String.length x ->
  startswith t (x ++ y) = startswith t x.
Proof.
  induction t as [|c t IH]; intros x y H; [reflexivity|].
  destruct x as [|b x]; [simpl in H; lia|].
  cbn [append startswith]. rewrite IH; [reflexivity | simpl in H; lia].
Qed.

Section Block.
Variables a t : string.
Hypothesis a_nonempty : a <> EmptyString.

Lemma tail_spec at_bol p s2 g (F : string -> nat) :
  exec _ (tail_of t at_bol) p s2 g (fun _ s' g' => Some (F s', g'))
  = if (negb at_bol || line_start p) && startswith t s2
    then Some (F (drop (String.length t) s2), g) else None.
Proof.
  destruct at_bol; cbn [tail_of exec negb orb line_start].
  - destruct p as [c|]; cbn [line_start].
    + destruct (Ascii.eqb c "010"); [|reflexivity].
      rewrite ReFacts.exec_lit. reflexivity.
    + rewrite ReFacts.exec_lit. reflexivity.
  - rewrite ReFacts.exec_lit. reflexivity.
Qed.

Lemma block_shape at_bol prev s n g :
  match_at (Seq (lit a) (Seq (Rep (Dot true) 0 false) (tail_of t at_bol)))
           false prev s = Some (n, g) ->
  block_match a t at_bol (substring 0 n s) /\ 0 < n.
Proof.
  unfold match_at. cbn [exec andb]. rewrite ReFacts.exec_lit.
  destruct (startswith a s) eqn:Ea; [|discriminate].
  intro H. apply lazy_first in H. destruct H as (k & Hk & Hsome & Hmin).
  set (s1 := drop (String.length a) s) in *.
  pose proof (ReFacts.startswith_split _ _ Ea) as Hs. fold s1 in Hs.
  rewrite (tail_spec at_bol _ _ _ (fun s' => String.length s - String.length s'))
    in Hsome.
  destruct ((negb at_bol
             || line_start (last_or (last_or prev a) (substring 0 k s1)))
            && startswith t (drop k s1)) eqn:Ec; [|discriminate].
  inversion Hsome as [[Hn Hg]]. clear Hsome.
  apply andb_prop in Ec. destruct Ec as [Hbol Ht].
  pose proof (ReFacts.startswith_split _ _ Ht) as Hd.
  set (s3 := drop (String.length t) (drop k s1)) in *.
  set (body := substring 0 k s1).
  assert (Hbody : String.length body = k) by (apply ReFacts.length_take; exact Hk).
  assert (Hs1 : s1 = body ++ t ++ s3).
  { rewrite <- (ReFacts.take_drop k s1) at 1. fold body. now rewrite Hd at 1. }
  assert (Hlen : String.length s - String.length s3
                 = String.length (a ++ body ++ t)).
  { rewrite Hs, Hs1 at 1. rewrite !StrFacts.length_app. lia. }
  assert (Htake : substring 0 (String.length s - String.length s3) s
                  = a ++ body ++ t).
  { rewrite Hlen. rewrite Hs at 1. rewrite Hs1 at 1.
    replace (a ++ body ++ t ++ s3) with ((a ++ body ++ t) ++ s3)
      by (now rewrite !StrFacts.app_assoc).
    apply ReMore.take_length_app. }
  split.
  2:{ rewrite Hlen, !StrFacts.length_app.
      destruct a; [congruence | simpl; lia]. }
  rewrite Htake. exists body. split; [reflexivity|]. split.
  - unfold closes.
    assert (Htt : startswith t t = true).
    { rewrite <- (StrFacts.app_empty_r t) at 2. apply ReMore.startswith_self_app. }
    rewrite Htt, andb_true_r.
    rewrite <- ReMore.last_or_app in Hbol.
    now rewrite (last_or_nonempty None prev a body a_nonempty).
  - intros j Hj. rewrite Hbody in Hj.
    specialize (Hmin j Hj).
    rewrite (tail_spec at_bol _ _ _ (fun s' => String.length s - String.length s'))
      in Hmin.
    destruct ((negb at_bol
               || line_start (last_or (last_or prev a) (substring 0 j s1)))
              && startswith t (drop j s1)) eqn:Ec; [discriminate|].
    unfold closes.
    rewrite <- ReMore.last_or_app in Ec.
    rewrite (last_or_nonempty None prev a _ a_nonempty).
    unfold body. rewrite take_take by lia.
    rewrite (drop_split j k s1) in Ec by lia. fold body in Ec.
    rewrite Hd in Ec.
    replace (drop j body ++ t ++ s3) with ((drop j body ++ t) ++ s3) in Ec
      by (now rewrite StrFacts.app_assoc).
    rewrite startswith_within in Ec; [exact Ec|].
    rewrite StrFacts.length_app. lia.
Qed.

End Block.

Lemma block_cuts a t at_bol :
  a <> EmptyString ->
  forall s prev skip,
    Forall (cut_ok (fun m _ => block_match a t at_bol m))
           (scan (Seq (lit a) (Seq (Rep (Dot true) 0 false) (tail_of t at_bol)))
                 prev s skip).
Proof.
  intros Ha. apply scan_cuts.
  - intros prev s g H. apply (block_shape a t Ha) in H. lia.
  - intros prev s n g H. now apply (block_shape a t Ha) in H.
Qed.

(** X18. The five block patterns of [remove_interceptors] (lint
    comment, macro definition, [with_interceptor], accessor, helper
    block) are lazy: each match is the opening text, a body and the
    closing text, and it ends at the first place after the opening text
    where the closing text can be taken, at the start of a line for the
    three patterns written with [^].  The deleted block therefore never
    reaches past the nearest closing line. *)
Theorem remove_interceptors_blocks_end_at_first_close : forall content : string,
  Forall (cut_ok (fun m _ =>
            block_match "// Allow this lint"
                        (nl ++ "#![allow(clippy::too_many_arguments)]" ++ nl ++ nl)
                        false m))
         (scan RemoveInterceptors.lint_allow None content 0)
  /\ Forall (cut_ok (fun m _ =>
               block_match "// Helper macro to generate interceptor helper methods"
                           ("}" ++ nl) true m))
            (scan RemoveInterceptors.macro_def None content 0)
  /\ Forall (cut_ok (fun m _ =>
               block_match "    /// Add an interceptor to the client."
                           ("    }" ++ nl) true m))
            (scan RemoveInterceptors.with_interceptor None content 0)
  /\ Forall (cut_ok (fun m _ =>
               block_match "    /// Get a reference to the interceptor chain."
                           ("    }" ++ nl) true m))
            (scan RemoveInterceptors.accessor None content 0)
  /\ Forall (cut_ok (fun m _ =>
               block_match ("// Interceptor helper methods" ++ nl ++ "impl Client {")
                           (nl ++ "}" ++ nl) false m))
            (scan RemoveInterceptors.helper_block None content 0).
Proof.
  intro content. repeat split.
  - apply (block_cuts "// Allow this lint"
             (nl ++ "#![allow(clippy::too_many_arguments)]" ++ nl ++ nl) false).
    discriminate.
  - apply (block_cuts "// Helper macro to generate interceptor helper methods"
             ("}" ++ nl) true). discriminate.
  - apply (block_cuts "    /// Add an interceptor to the client."
             ("    }" ++ nl) true). discriminate.
  - apply (block_cuts "    /// Get a reference to the interceptor chain."
             ("    }" ++ nl) true). discriminate.
  - apply (block_cuts ("// Interceptor helper methods" ++ nl ++ "impl Client {")
             (nl ++ "}" ++ nl) false). discriminate.
Qed.

End BlockFacts.

(** * Fixed points of the three scripts *)

Module FixedPoints.
Import PyStr Refactor Trace Spans Re Cover Lang Stable.

Ltac marker :=
  unfold markers; cbn [In]; repeat (first [left; reflexivity | right]).

(** An iteration that appends the current line took no rule: the two
    lines the rules write differ from the line that triggers them. *)
Lemma body_copy lines i :
  snd (body lines i) = [line_at lines i] -> fst (fst (body lines i)) = None.
Proof.
  unfold body, body_with.
  repeat match goal with
         | |- snd (if ?c then _ else _) = _ -> _ => destruct c eqn:?
         end; cbn [fst snd]; intro H; try discriminate; try reflexivity;
    exfalso; injection H as H.
  - assert (Hr : replacement_line (line_at lines i))
      by (left; symmetry; exact H).
    match goal with
    | E : contains ?m (line_at lines i) = true |- _ =>
        rewrite (RefactorMore.replacement_has_no_marker _ m Hr) in E;
          [discriminate | marker]
    end.
  - assert (Hr : replacement_line (line_at lines i))
      by (right; eexists; symmetry; exact H).
    match goal with
    | E : contains ?m (line_at lines i) = true |- _ =>
        rewrite (RefactorMore.replacement_has_no_marker _ m Hr) in E;
          [discriminate | marker]
    end.
Qed.

(** When what the iterations from [a] on emit is the rest of the input
    from [a] on, each of them copied its line. *)
Lemma tiled_fixed lines a tr b :
  tiled lines a tr b -> len lines <= b ->
  flat_map emitted tr = skipn a lines ->
  forall i, a <= i -> i < len lines -> fst (fst (body lines i)) = None.
Proof.
  induction 1 as [a|a it tr b H0 Hlt Hb Ht IH]; intros Hfin Hout i Hai Hi;
    [lia|].
  cbn [flat_map] in Hout.
  pose proof (RefactorMore.tiled_output_length lines _ _ _ Ht) as Hlen.
  pose proof (RefactorMore.body_emits_at_most_one lines a) as H1.
  rewrite Hb in H1. cbn [snd] in H1.
  pose proof (RefactorFacts.body_advances lines a Hlt) as H2.
  rewrite Hb in H2. cbn [fst snd] in H2.
  assert (Hl : List.length (emitted it ++ flat_map emitted tr)%list
               = len lines - a).
  { rewrite Hout. apply length_skipn. }
  rewrite length_app in Hl.
  rewrite <- (EngineFacts.skipn_cons_nth lines a Hlt) in Hout.
  destruct (emitted it) as [|x [|y e]] eqn:He; cbn [List.length] in *;
    try (unfold len in *; lia).
  cbn [app] in Hout. injection Hout as Hx Hrest.
  assert (Ha : fst (fst (body lines a)) = None).
  { apply body_copy. rewrite Hb. cbn [snd]. now rewrite Hx. }
  destruct (Nat.eq_dec i a) as [->|Hne]; [exact Ha|].
  apply EngineFacts.body_no_rule in Ha. rewrite Hb in Ha.
  injection Ha as _ Hn _.
  apply IH; [exact Hfin | now rewrite Hn | lia | exact Hi].
Qed.

Lemma fixed_no_rule lines :
  refactor_lines lines = lines -> no_rule_fires lines = true.
Proof.
  unfold refactor_lines. intro H.
  destruct (RefactorFacts.run_inv lines) as [Ht Ho].
  pose proof (RefactorFacts.run_finished lines) as Hf. unfold finished in Hf.
  rewrite H in Ho.
  unfold no_rule_fires. apply forallb_forall. intros i Hi.
  apply in_seq in Hi.
  rewrite (tiled_fixed lines 0 _ _ Ht Hf (eq_sym Ho) i); [reflexivity|lia|].
  unfold len. lia.
Qed.

(** X19. The files [refactor] gives back line for line are exactly the
    files in which no branch of its [if] chain is taken: whenever one
    rule fires, on whatever line, the output differs from the input. *)
Theorem refactor_fixed_points : forall lines : list string,
  refactor_lines lines = lines <-> no_rule_fires lines = true.
Proof.
  intro lines. split.
  - apply fixed_no_rule.
  - apply EngineFacts.refactor_no_rule.
Qed.

Lemma output_unmarked lines l m :
  In l (refactor_lines lines) -> In m markers -> contains m l = false.
Proof.
  intros Hl Hm.
  pose proof (RefactorMore.run_emits lines) as H. rewrite Forall_forall in H.
  destruct (H l Hl) as [Hr|[_ Hn]].
  - now apply RefactorMore.replacement_has_no_marker.
  - now apply Hn.
Qed.

(** On a line without any of the texts looked for, the only branch
    left is the look-behind of the lint rule. *)
Lemma body_unmarked lines i :
  (forall m, In m markers -> contains m (line_at lines i) = false) ->
  fst (fst (body lines i))
  = if (0 <? i) && contains "Allow this lint" (line_at lines (i - 1))
    then Some TooManyArguments else None.
Proof.
  intro H. unfold body, body_with.
  repeat match goal with
         | |- context [contains ?m (line_at lines i)] =>
             rewrite (H m) by marker
         end.
  cbn [orb].
  destruct ((0 <? i) && contains "Allow this lint" (line_at lines (i - 1)));
    reflexivity.
Qed.

(** X20. A second run of [refactor] over its own output changes it if
    and only if some line of that output other than the last contains
    ['Allow this lint']: the line after it is then deleted, whatever it
    holds.  No other rule can fire on the output of a run. *)
Theorem second_run_fixed : forall lines : list string,
  refactor_lines (refactor_lines lines) = refactor_lines lines
  <-> (forall j, j + 1 < List.length (refactor_lines lines) ->
         contains "Allow this lint" (line_at (refactor_lines lines) j) = false).
Proof.
  intro lines.
  assert (Hu : forall i, i < List.length (refactor_lines lines) ->
               forall m, In m markers ->
                         contains m (line_at (refactor_lines lines) i) = false).
  { intros i Hi m Hm. apply (output_unmarked lines); [|exact Hm].
    apply nth_In. exact Hi. }
  split.
  - intros H j Hj. apply fixed_no_rule in H.
    unfold no_rule_fires in H. rewrite forallb_forall in H.
    specialize (H (j + 1)). rewrite in_seq in H. specialize (H ltac:(lia)).
    rewrite (body_unmarked _ _ (Hu (j + 1) Hj)) in H.
    replace (j + 1 - 1) with j in H by lia.
    replace (0 <? j + 1) with true in H by (symmetry; apply Nat.ltb_lt; lia).
    cbn [andb] in H.
    destruct (contains "Allow this lint" (line_at (refactor_lines lines) j));
      [discriminate | reflexivity].
  - intro H. apply EngineFacts.refactor_no_rule.
    unfold no_rule_fires. apply forallb_forall. intros i Hi.
    apply in_seq in Hi. rewrite (body_unmarked _ _ (Hu i ltac:(lia))).
    destruct i as [|i]; [reflexivity|].
    replace (S i - 1) with i by lia.
    rewrite (H i) by lia. now rewrite andb_false_r.
Qed.

Lemma contains_length a : forall m,
  contains a m = true -> String.length a <= String.length m.
Proof.
  induction m as [|c m IH]; cbn [contains]; intro H;
    apply orb_prop in H; destruct H as [H|H].
  - now apply ReFacts.startswith_length.
  - discriminate.
  - now apply ReFacts.startswith_length.
  - apply IH in H. simpl. lia.
Qed.

Lemma needs_strict r a repl :
  needs r a ->
  (forall g, String.length (expand repl g) < String.length a) ->
  strictly_shrinking (r, repl).
Proof.
  intros Hn Hl prev m rest g H. cbn [fst snd] in *.
  apply Hn in H. apply contains_length in H. specialize (Hl g). lia.
Qed.

Lemma strict_of_needs ps : forall al,
  Forall2 (fun p a => needs (fst p) a) ps al ->
  Forall2 (fun p a =>
             (forall g, String.length (expand (snd p) g) < String.length a)
             \/ strictly_shrinking p) ps al ->
  Forall strictly_shrinking ps.
Proof.
  induction ps as [|p ps IH]; intros al H1 H2; [constructor|].
  inversion H1 as [|? a ? al' Hp H1']; subst.
  inversion H2 as [|? ? ? ? Hq H2']; subst.
  constructor; [|eapply IH; eassumption].
  destruct Hq as [Hq|Hq]; [|exact Hq].
  destruct p as [r repl]. eapply needs_strict; eassumption.
Qed.

Lemma remove_interceptors_strict :
  Forall strictly_shrinking RemoveInterceptors.substitutions.
Proof.
  apply (strict_of_needs _ anchors ReMore.remove_interceptors_needs).
  unfold RemoveInterceptors.substitutions, anchors.
  repeat (apply Forall2_cons; [left; intro g; vm_compute; lia|]).
  apply Forall2_nil.
Qed.

Lemma fix_client_strict : Forall strictly_shrinking FixClient.substitutions.
Proof.
  apply (strict_of_needs _ needles ReMore.fix_client_needs).
  unfold FixClient.substitutions, needles.
  apply Forall2_cons; [left; intro g; vm_compute; lia|].
  apply Forall2_cons; [right|].
  { intros prev m rest g H. cbn [fst snd] in *.
    apply ReMore.api_error_shape in H.
    destruct H as (ws & ws2 & args & -> & -> & _).
    unfold expand. cbn [map join].
    rewrite !StrFacts.length_app. cbn [String.length]. lia. }
  repeat (apply Forall2_cons; [left; intro g; vm_compute; lia|]).
  apply Forall2_nil.
Qed.

Lemma strict_shrinking p : strictly_shrinking p -> shrinking p.
Proof. intros H prev m rest g Hd. apply H in Hd. lia. Qed.

Lemma inserted_lt_cut repl ps :
  Forall (cut_ok (fun m g => String.length (expand repl g) < String.length m)) ps ->
  inserted_length repl ps <= cut_length ps
  /\ (existsb is_cut ps = true -> inserted_length repl ps < cut_length ps).
Proof.
  induction 1 as [|[c|m g] ps Hp Hps [IH1 IH2]]; simpl in *.
  - split; [lia | discriminate].
  - split; [lia | exact IH2].
  - split; [lia | intros _; lia].
Qed.

Lemma sub_strict (p : substitution) (s : string) :
  strictly_shrinking p -> has_match (fst p) s = true ->
  String.length (apply_sub s p) < String.length s.
Proof.
  intros Hs Hm. unfold apply_sub, sub. unfold has_match in Hm.
  pose proof (ReFacts.pieces_length (snd p) (scan (fst p) None s 0)) as H.
  rewrite (ReFacts.scan_original (fst p) s None 0) in H. cbn [drop] in H.
  assert (Hlt : inserted_length (snd p) (scan (fst p) None s 0)
                < cut_length (scan (fst p) None s 0)).
  { apply inserted_lt_cut; [|exact Hm].
    eapply ReMore.forall_cut_impl; [|apply ReMore.scan_denotes].
    intros m g (prev & rest & Hd). exact (Hs _ _ _ _ Hd). }
  lia.
Qed.

(** A script whose every pattern takes more than it gives shortens the
    content as soon as one pattern matches it. *)
Lemma apply_all_matched ps :
  Forall strictly_shrinking ps ->
  forall s, matches_none ps s = false ->
            String.length (apply_all ps s) < String.length s.
Proof.
  unfold apply_all.
  induction 1 as [|p ps Hp Hps IH]; intros s H; [discriminate|].
  cbn [matches_none forallb] in H. cbn [fold_left].
  destruct (has_match (fst p) s) eqn:E.
  - pose proof (sub_strict p s Hp E) as H1.
    pose proof (ReMore.apply_all_not_longer ps (apply_sub s p)) as H2.
    unfold apply_all in H2.
    assert (Forall shrinking ps)
      by (eapply Forall_impl; [|exact Hps]; apply strict_shrinking).
    specialize (H2 ltac:(assumption)). lia.
  - cbn [negb andb] in H. unfold apply_sub at 2.
    rewrite (ReFacts.sub_no_match _ _ _ E). now apply IH.
Qed.

(** X21. Each of the two regex scripts shortens the content as soon as
    one of its patterns matches it, so the contents it gives back
    unchanged are exactly those in which none of its patterns matches. *)
Theorem regex_scripts_fixed_points : forall content : string,
  (matches_none FixClient.substitutions content = false ->
   String.length (FixClient.fix_content content) < String.length content)
  /\ (FixClient.fix_content content = content
      <-> matches_none FixClient.substitutions content = true)
  /\ (matches_none RemoveInterceptors.substitutions content = false ->
      String.length (RemoveInterceptors.remove_content content)
      < String.length content)
  /\ (RemoveInterceptors.remove_content content = content
      <-> matches_none RemoveInterceptors.substitutions content = true).
Proof.
  intro content.
  assert (G : forall ps, Forall strictly_shrinking ps ->
                         apply_all ps content = content ->
                         matches_none ps content = true).
  { intros ps Hs H. destruct (matches_none ps content) eqn:E; [reflexivity|].
    pose proof (apply_all_matched ps Hs content E) as Hlt.
    rewrite H in Hlt. lia. }
  split; [|split; [|split]].
  - apply apply_all_matched, fix_client_strict.
  - split; [apply G, fix_client_strict | apply EngineFacts.apply_all_no_match].
  - apply apply_all_matched, remove_interceptors_strict.
  - split; [apply G, remove_interceptors_strict
           | apply EngineFacts.apply_all_no_match].
Qed.

End FixedPoints.

(** * Line ends of the file read and of the file written *)

Module NewlineFacts.
Import PyStr Refactor Trace Spans Re Cover Lang Stable IO.

Lemma universal_newlines_step : forall s,
  count cr (universal_newlines s) = 0
  /\ forall c, count cr (universal_newlines (String c s)) = 0.
Proof.
  induction s as [|d s [IH1 IH2]].
  - split; [reflexivity|]. intro c. cbn [universal_newlines].
    destruct (Ascii.eqb c cr) eqn:E; cbn [count]; [reflexivity|].
    now rewrite E.
  - split; [apply IH2|]. intro c.
    change (universal_newlines (String c (String d s)))
      with (if Ascii.eqb c cr
            then String lf (if Ascii.eqb d lf then universal_newlines s
                            else universal_newlines (String d s))
            else String c (universal_newlines (String d s))).
    destruct (Ascii.eqb c cr) eqn:E; cbn [count].
    + change (Ascii.eqb lf cr) with false.
      destruct (Ascii.eqb d lf); [apply IH1 | apply IH2].
    + rewrite E. apply IH2.
Qed.

(** The text a script reads holds no carriage return. *)
Lemma universal_newlines_clean s : count cr (universal_newlines s) = 0.
Proof. apply universal_newlines_step. Qed.

Lemma universal_newlines_fixed s :
  universal_newlines s = s <-> count cr s = 0.
Proof.
  split.
  - intro H. rewrite <- H. apply universal_newlines_clean.
  - induction s as [|c s IH]; intro H; [reflexivity|].
    cbn [count] in H. cbn [universal_newlines].
    destruct (Ascii.eqb c cr); [discriminate|].
    now rewrite IH.
Qed.

Lemma write_newlines_posix s : write_newlines Posix s = s.
Proof.
  induction s as [|c s IH]; [reflexivity|]. cbn [write_newlines linesep].
  rewrite IH. destruct (Ascii.eqb_spec c lf) as [->|_]; reflexivity.
Qed.

Lemma write_newlines_windows s :
  count cr s = 0 ->
  count cr (write_newlines Windows s) = count lf (write_newlines Windows s).
Proof.
  induction s as [|c s IH]; intro H; [reflexivity|].
  cbn [count] in H. cbn [write_newlines linesep].
  destruct (Ascii.eqb c cr) eqn:Ec; [discriminate|].
  destruct (Ascii.eqb c lf) eqn:El; cbn [append count].
  - change (Ascii.eqb cr cr) with true. change (Ascii.eqb lf cr) with false.
    change (Ascii.eqb cr lf) with false. change (Ascii.eqb lf lf) with true.
    rewrite IH by exact H. reflexivity.
  - rewrite Ec, El. now apply IH.
Qed.

Lemma written_line_ends os t :
  count cr t = 0 ->
  count cr (write_newlines os t)
  = match os with
    | Posix => 0
    | Windows => count lf (write_newlines os t)
    end.
Proof.
  intro H. destruct os.
  - now rewrite write_newlines_posix.
  - now apply write_newlines_windows.
Qed.

Lemma count_join c ls :
  count c (join ls) = 0 <-> Forall (fun l => count c l = 0) ls.
Proof.
  induction ls as [|l ls IH]; cbn [join].
  - split; [constructor | reflexivity].
  - rewrite RefactorMore.count_app. split.
    + intro H. constructor; [lia | apply IH; lia].
    + intro H. inversion H as [|? ? H1 H2]; subst.
      apply IH in H2. lia.
Qed.

Lemma replacement_clean l : replacement_line l -> count cr l = 0.
Proof.
  intros [->|[n ->]]; [reflexivity|].
  now rewrite RefactorMore.count_indented.
Qed.

(** The three transformations bring in no carriage return. *)
Lemma refactor_clean t :
  count cr t = 0 -> count cr (join (refactor_lines (readlines t))) = 0.
Proof.
  intro H. apply count_join.
  assert (Hl : Forall (fun l => count cr l = 0) (readlines t)).
  { apply count_join. unfold readlines.
    now rewrite RefactorMore.join_readlines_from. }
  rewrite Forall_forall in Hl.
  pose proof (RefactorMore.run_emits (readlines t)) as He.
  eapply Forall_impl; [|exact He]. cbv beta.
  intros l [Hr|[Hin _]]; [now apply replacement_clean | now apply Hl].
Qed.

Lemma pieces_clean c repl ps :
  Forall (cut_ok (fun m g => count c m = 0 -> count c (expand repl g) = 0)) ps ->
  count c (join (map original ps)) = 0 ->
  count c (join (map (render repl) ps)) = 0.
Proof.
  induction 1 as [|[a|m g] ps Hp Hps IH]; cbn [map join original render];
    [reflexivity| |]; rewrite !RefactorMore.count_app; intro H.
  - rewrite IH by lia. lia.
  - cbn [cut_ok] in Hp. rewrite Hp, IH by lia. reflexivity.
Qed.

Lemma sub_clean c (p : substitution) (s : string) :
  brings_no c p -> count c s = 0 -> count c (apply_sub s p) = 0.
Proof.
  intros Hp Hs. unfold apply_sub, sub. apply pieces_clean.
  - eapply ReMore.forall_cut_impl; [|apply ReMore.scan_denotes].
    intros m g (prev & rest & Hd). exact (Hp _ _ _ _ Hd).
  - rewrite (ReFacts.scan_original (fst p) s None 0). exact Hs.
Qed.

Lemma apply_all_clean c ps :
  Forall (brings_no c) ps ->
  forall s, count c s = 0 -> count c (apply_all ps s) = 0.
Proof.
  unfold apply_all.
  induction 1 as [|p ps Hp Hps IH]; intros s H; [exact H|].
  cbn [fold_left]. apply IH. now apply sub_clean.
Qed.

Lemma fixed_text_brings_no r repl :
  (forall g, count cr (expand repl g) = 0) -> brings_no cr (r, repl).
Proof. intros H prev m rest g _ _. apply H. Qed.

Lemma remove_interceptors_clean :
  Forall (brings_no cr) RemoveInterceptors.substitutions.
Proof.
  unfold RemoveInterceptors.substitutions.
  repeat (apply Forall_cons;
          [apply fixed_text_brings_no; intro g; reflexivity|]).
  apply Forall_nil.
Qed.

Lemma fix_client_clean : Forall (brings_no cr) FixClient.substitutions.
Proof.
  unfold FixClient.substitutions.
  apply Forall_cons; [apply fixed_text_brings_no; intro g; reflexivity|].
  apply Forall_cons.
  { intros prev m rest g H Hm. cbn [fst snd] in *.
    apply ReMore.api_error_shape in H.
    destruct H as (ws & ws2 & args & -> & -> & _).
    rewrite RefactorMore.count_app in Hm.
    unfold expand. cbn [map join]. rewrite RefactorMore.count_app.
    change (count cr ("map_api_error(e)" ++ EmptyString)) with 0. lia. }
  repeat (apply Forall_cons;
          [apply fixed_text_brings_no; intro g; reflexivity|]).
  apply Forall_nil.
Qed.

Lemma scripts_clean S T :
  In (S, T) scripts -> forall t, count cr t = 0 -> count cr (T t) = 0.
Proof.
  intros Hin t H. simpl in Hin.
  destruct Hin as [E|[E|[E|[]]]]; inversion E; subst.
  - now apply refactor_clean.
  - now apply apply_all_clean; [apply fix_client_clean|].
  - now apply apply_all_clean; [apply remove_interceptors_clean|].
Qed.

(** X10. Each of the three scripts normalises the line ends of the
    file: whatever [src/client.rs] held, the file a run without fault
    writes holds no carriage return on a POSIX system, and on Windows as
    many carriage returns as line feeds.  Reading turns every ['\r\n']
    and every ['\r'] into ['\n'], and no rule or replacement brings a
    carriage return in. *)
Theorem scripts_normalise_line_ends :
  forall (S : platform -> fault -> io unit) (T : string -> string)
         (os : platform) (w : world) (content : string),
    In (S, T) scripts ->
    w client_rs = Some content ->
    exists out,
      fst (S os NoFault w) client_rs = Some out
      /\ count cr out = match os with
                        | Posix => 0
                        | Windows => count lf out
                        end.
Proof.
  intros S T os w content Hin Hw.
  rewrite (IOFacts.script_cases S T Hin os NoFault w).
  unfold bind, read_file, write_file. rewrite Hw. cbn [fst snd].
  eexists. split; [apply IOFacts.set_file_same|].
  apply written_line_ends, (scripts_clean S T Hin), universal_newlines_clean.
Qed.

Lemma scripts_normalise_line_ends_witness :
  exists out,
    fst (refactor Posix NoFault
           (only_client ("fn main() {" ++ String cr nl ++ "}" ++ String cr nl)))
        client_rs = Some out
    /\ count cr out = 0.
Proof.
  exact (scripts_normalise_line_ends refactor _ Posix
           (only_client ("fn main() {" ++ String cr nl ++ "}" ++ String cr nl))
           ("fn main() {" ++ String cr nl ++ "}" ++ String cr nl)
           (or_introl eq_refl) eq_refl).
Defined.

(** X11. A run of [refactor] without I/O fault on a file in which no
    rule fires returns normally and writes back the text it read, line
    for line, with the line ends of the platform.  On a POSIX system the
    file comes back exactly as it was if and only if it held no carriage
    return. *)
Theorem unmatched_file_rewritten :
  forall (os : platform) (w : world) (content : string),
    w client_rs = Some content ->
    no_rule_fires (readlines (universal_newlines content)) = true ->
    snd (refactor os NoFault w) = inl tt
    /\ fst (refactor os NoFault w) client_rs
       = Some (write_newlines os (universal_newlines content))
    /\ (fst (refactor Posix NoFault w) client_rs = Some content
        <-> count cr content = 0).
Proof.
  intros os w content Hw Hno.
  assert (E : forall os', fst (refactor os' NoFault w) client_rs
                          = Some (write_newlines os' (universal_newlines content))).
  { intro os'. destruct (IOFacts.refactor_returns os' w content Hw) as [_ H2].
    rewrite H2, (EngineFacts.refactor_no_rule _ Hno).
    unfold readlines. now rewrite RefactorMore.join_readlines_from. }
  split; [apply (IOFacts.refactor_returns os w content Hw)|].
  split; [apply E|].
  rewrite E, write_newlines_posix, <- universal_newlines_fixed.
  split; [now intros [= ->] | now intros ->].
Qed.

Lemma unmatched_file_rewritten_witness :
  snd (refactor Posix NoFault
         (only_client ("fn main() {" ++ String cr nl ++ "}" ++ String cr nl)))
  = inl tt
  /\ fst (refactor Posix NoFault
            (only_client ("fn main() {" ++ String cr nl ++ "}" ++ String cr nl)))
         client_rs
     = Some ("fn main() {" ++ nl ++ "}" ++ nl).
Proof.
  pose proof (unmatched_file_rewritten Posix
                (only_client ("fn main() {" ++ String cr nl ++ "}" ++ String cr nl))
                ("fn main() {" ++ String cr nl ++ "}" ++ String cr nl)
                eq_refl eq_refl) as [H1 [H2 _]].
  split; [exact H1 | exact H2].
Defined.

End NewlineFacts.
